(** * GameConfig: the options-line parser and serializer of scripts/manage.py

    A shallow embedding of class [GameConfig] (manage.py, lines 190-344):
    the tokenizer and type classifier of [_parse_options], the serializer
    [save], the loader [load] and the accessors [get] and [set], together
    with the Python built-ins they call.

    Conventions of the model.
    - A Python [str] is a list of characters.  A character is a code point
      in the range 0..255, with the classification CPython gives to these
      code points ([str.isspace], [str.isdigit], [str.lower]).  Code points
      above 255 are outside the model.
    - A Python [int] is a [Z]; the interpreter's limit on the length of
      decimal conversions (4300 digits by default since 3.11) is not
      modelled.
    - A Python [float] is an IEEE-754 binary64 value, kept as sign,
      integer significand and binary exponent; conversions from and to
      text round correctly with exact integer arithmetic.
    - A [dict] is an association list in insertion order with unique keys.
    - A raised exception is the left injection of a sum.
    - The file system is the pair of the contents of the live file and of
      the bundled default file ([None] when the file does not exist);
      reading an existing file and writing the live file do not fail, and
      the text written is the text read back. *)

From Stdlib Require Import List Ascii String ZArith NArith Lia Bool Arith.
Import ListNotations.
Open Scope list_scope.

(** ** Python values and built-ins *)

Module Py.

Definition str := list ascii.

(** A string literal of the source. *)
Definition lit (s : string) : str := list_ascii_of_string s.

Definition code (c : ascii) : N := N_of_ascii c.

Definition dquote : ascii := "034"%char.
Definition newline : ascii := "010"%char.
Definition creturn : ascii := "013"%char.

Inductive exn : Type :=
| IndexError
| ValueError
| TypeError
| AttributeError
| FileNotFoundError.

Definition result (A : Type) : Type := (exn + A)%type.

Abbreviation ret a := (@inr exn _ a) (only parsing).
Abbreviation raise e := (@inl exn _ e) (only parsing).
Definition bind {A B} (m : result A) (k : A -> result B) : result B :=
  match m with
  | inl e => inl e
  | inr a => k a
  end.

Declare Scope py_scope.
Delimit Scope py_scope with py.
Notation "x <- m ;; k" := (bind m (fun x => k))
  (at level 61, m at next level, right associativity) : py_scope.

(** *** Characters *)

Definition char_eqb (a b : ascii) : bool := Ascii.eqb a b.

(** [str.isspace] on one code point below 256. *)
Definition isspace (c : ascii) : bool :=
  let n := code c in
  ((9 <=? n) && (n <=? 13) || (28 <=? n) && (n <=? 32)
   || (n =? 133) || (n =? 160))%N.

(** ASCII decimal digits, the only decimal digits below 256. *)
Definition isdecimal (c : ascii) : bool :=
  let n := code c in ((48 <=? n) && (n <=? 57))%N.

(** [str.isdigit] on one code point below 256: the decimal digits and the
    superscript digits U+00B2, U+00B3 and U+00B9. *)
Definition isdigit_char (c : ascii) : bool :=
  let n := code c in
  (isdecimal c || (n =? 178) || (n =? 179) || (n =? 185))%N.

Definition digit_val (c : ascii) : Z := Z.of_N (code c) - 48.

Definition digit_char (d : Z) : ascii := ascii_of_N (Z.to_N (d + 48)).

(** [str.lower] on one code point below 256. *)
Definition lower_char (c : ascii) : ascii :=
  let n := code c in
  if ((65 <=? n) && (n <=? 90)
      || (192 <=? n) && (n <=? 222) && negb (n =? 215))%N
  then ascii_of_N (n + 32) else c.

(** *** Strings *)

Fixpoint str_eqb (a b : str) : bool :=
  match a, b with
  | [], [] => true
  | x :: a', y :: b' => char_eqb x y && str_eqb a' b'
  | _, _ => false
  end.

Fixpoint dropwhile (p : ascii -> bool) (s : str) : str :=
  match s with
  | [] => []
  | c :: s' => if p c then dropwhile p s' else s
  end.

Definition lstrip_by (p : ascii -> bool) (s : str) : str := dropwhile p s.
Definition rstrip_by (p : ascii -> bool) (s : str) : str :=
  rev (dropwhile p (rev s)).
Definition strip_by (p : ascii -> bool) (s : str) : str :=
  rstrip_by p (lstrip_by p s).

(** [s.strip()] *)
Definition strip (s : str) : str := strip_by isspace s.

(** [s.strip(c)] for a one-character argument. *)
Definition strip_char (c : ascii) (s : str) : str := strip_by (char_eqb c) s.

(** [s.lower()] *)
Definition lower (s : str) : str := map lower_char s.

(** [s.isdigit()]: false on the empty string. *)
Definition isdigit (s : str) : bool :=
  match s with
  | [] => false
  | _ => forallb isdigit_char s
  end.

(** [c in s] for a character [c]. *)
Definition contains (c : ascii) (s : str) : bool := existsb (char_eqb c) s.

(** [s.replace(c, '')] for a character [c]. *)
Definition remove_char (c : ascii) (s : str) : str :=
  filter (fun x => negb (char_eqb c x)) s.

(** [s[0]] *)
Definition index0 (s : str) : result ascii :=
  match s with
  | [] => raise IndexError
  | c :: _ => ret c
  end.

(** [s[1:-1]] *)
Definition slice_1_m1 (s : str) : str := removelast (tl s).

(** [s[n:-1]] *)
Definition slice_n_m1 (n : nat) (s : str) : str := removelast (skipn n s).

(** [s.startswith(p)] *)
Fixpoint startswith (p s : str) : bool :=
  match p, s with
  | [], _ => true
  | _ :: _, [] => false
  | a :: p', b :: s' => char_eqb a b && startswith p' s'
  end.

(** [s.split(c)] for a character [c]: never the empty list. *)
Fixpoint split (c : ascii) (s : str) : list str :=
  match s with
  | [] => [[]]
  | x :: s' =>
      if char_eqb x c then [] :: split c s'
      else match split c s' with
           | [] => [[x]]
           | w :: ws => (x :: w) :: ws
           end
  end.

(** [s] between double quotes. *)
Definition quoted (s : str) : str := dquote :: s ++ [dquote].

(** [sep.join(l)] *)
Fixpoint join (sep : str) (l : list str) : str :=
  match l with
  | [] => []
  | [w] => w
  | w :: ws => w ++ sep ++ join sep ws
  end.

(** *** Integers: [int(s)] and [str(n)] *)

(** Decimal digits with single underscores between digits, the digit
    syntax shared by [int()] and [float()]; [prev] tells whether the
    previous character was a digit. *)
Fixpoint dec_digits (s : str) (prev : bool) (acc : Z) : option Z :=
  match s with
  | [] => if prev then Some acc else None
  | c :: s' =>
      if isdecimal c then dec_digits s' true (acc * 10 + digit_val c)
      else if char_eqb c "_" && prev then dec_digits s' false acc
      else None
  end.

(** The numeric constructors see the text after non-ASCII white space has
    been turned into a blank and an unconvertible non-ASCII character into
    a question mark, and strip the white space of the C locale. *)
Definition c_isspace (c : ascii) : bool :=
  let n := code c in ((9 <=? n) && (n <=? 13) || (n =? 32))%N.

Definition to_ascii_number (s : str) : str :=
  map (fun c => if (code c <? 127)%N then c
                else if isspace c then " "%char else "?"%char) s.

Definition number_text (s : str) : str :=
  strip_by c_isspace (to_ascii_number s).

Definition split_sign (s : str) : bool * str :=
  match s with
  | c :: r => if char_eqb c "-" then (true, r)
              else if char_eqb c "+" then (false, r)
              else (false, s)
  | [] => (false, s)
  end.

(** [int(s)], base 10.  The limit that the interpreter puts on the number
    of digits (4300 by default, from Python 3.11 on) is not part of this
    function: it agrees with [int] on texts of at most that many digits. *)
Definition int_of_str (s : str) : result Z :=
  let '(neg, body) := split_sign (number_text s) in
  match dec_digits body false 0 with
  | Some n => ret (if neg then - n else n)%Z
  | None => raise ValueError
  end.

Fixpoint digits_fuel (fuel : nat) (n : Z) : str :=
  match fuel with
  | O => []
  | S f =>
      if (n <? 10)%Z then [digit_char n]
      else digits_fuel f (n / 10) ++ [digit_char (n mod 10)]
  end.

(** The decimal digits of a natural number. *)
Definition digits_of (n : Z) : str :=
  digits_fuel (S (Z.to_nat (Z.log2 n))) n.

(** [str(n)] for an integer; as for [int], the limit on the number of
    digits is not part of this function. *)
Definition str_of_int (n : Z) : str :=
  if (n <? 0)%Z then "-"%char :: digits_of (- n) else digits_of n.

(** *** Floats: [float(s)] and [repr(x)] *)

(** A binary64 value: not-a-number, an infinity, or [(-1)^neg * m * 2^e]
    with [0 <= m < 2^53] and [-1074 <= e <= 971]; [m < 2^52] only at
    [e = -1074] (zeros and subnormal numbers). *)
Inductive pyfloat : Type :=
| FNan
| FInf (neg : bool)
| FFin (neg : bool) (m e : Z).

Definition pyfloat_eqb (x y : pyfloat) : bool :=
  match x, y with
  | FNan, FNan => true
  | FInf a, FInf b => Bool.eqb a b
  | FFin a m e, FFin b m' e' => Bool.eqb a b && (m =? m')%Z && (e =? e')%Z
  | _, _ => false
  end.

Local Open Scope Z_scope.

(** The fraction [n / (d * 2^e)] with an integer numerator and
    denominator. *)
Definition scaled (n d e : Z) : Z * Z :=
  if 0 <=? e then (n, d * 2 ^ e) else (n * 2 ^ (- e), d).

(** The binary64 value nearest to [n / d] (ties to even), for [0 <= n] and
    [0 < d]; too large a quotient gives an infinity. *)
Definition round_ratio (neg : bool) (n d : Z) : pyfloat :=
  if n =? 0 then FFin neg 0 (-1074) else
  let e0 := Z.max (-1074) (Z.log2 n - Z.log2 d - 53) in
  let e := if 2 ^ 53 <=? fst (scaled n d e0) / snd (scaled n d e0)
           then e0 + 1 else e0 in
  let a := fst (scaled n d e) in
  let b := snd (scaled n d e) in
  let q := a / b in
  let r := a mod b in
  let up := (b <? 2 * r) || ((b =? 2 * r) && Z.odd q) in
  let m := if up then q + 1 else q in
  let m' := if m =? 2 ^ 53 then 2 ^ 52 else m in
  let e' := if m =? 2 ^ 53 then e + 1 else e in
  if 971 <? e' then FInf neg else FFin neg m' e'.

(** The binary64 value nearest to [c * 10^s]. *)
Definition round_decimal (neg : bool) (c s : Z) : pyfloat :=
  if 0 <=? s then round_ratio neg (c * 10 ^ s) 1
  else round_ratio neg c (10 ^ (- s)).

(** The longest prefix of decimal digits, and what follows it. *)
Fixpoint span_digits (s : str) : str * str :=
  match s with
  | c :: s' =>
      if isdecimal c then let '(d, r) := span_digits s' in (c :: d, r)
      else ([], s)
  | [] => ([], [])
  end.

Definition digits_value (d : str) : Z :=
  fold_left (fun acc c => acc * 10 + digit_val c) d 0.

(** Underscores are dropped when each stands between two digits; any other
    underscore is an error. *)
Fixpoint drop_underscores (s : str) (prev : ascii) : option str :=
  match s with
  | [] => if char_eqb prev "_" then None else Some []
  | c :: s' =>
      if char_eqb c "_" then
        if isdecimal prev then drop_underscores s' c else None
      else if char_eqb prev "_" && negb (isdecimal c) then None
      else option_map (cons c) (drop_underscores s' c)
  end.

(** The exponent part: empty, or [e] or [E], an optional sign and at least
    one digit, up to the end of the text. *)
Definition float_exponent (s : str) : option Z :=
  match s with
  | [] => Some 0
  | c :: r =>
      if char_eqb c "e" || char_eqb c "E" then
        let '(neg, ds) := split_sign r in
        match span_digits ds with
        | ((_ :: _) as d, []) =>
            Some (if neg then - digits_value d else digits_value d)
        | _ => None
        end
      else None
  end.

(** A decimal number: digits, an optional point and digits, with a digit
    on at least one side, and an exponent part. *)
Definition float_decimal (neg : bool) (s : str) : option pyfloat :=
  let '(ip, r) := span_digits s in
  let '(fp, r') :=
    match r with
    | c :: t => if char_eqb c "." then span_digits t else ([], r)
    | [] => ([], [])
    end in
  match ip ++ fp with
  | [] => None
  | _ :: _ =>
      match float_exponent r' with
      | Some ex =>
          Some (round_decimal neg (digits_value (ip ++ fp))
                              (ex - Z.of_nat (List.length fp)))
      | None => None
      end
  end.

(** [float(s)] *)
Definition float_of_str (s : str) : result pyfloat :=
  match drop_underscores s "000"%char with
  | None => raise ValueError
  | Some s1 =>
      let '(neg, body) := split_sign (number_text s1) in
      let name := lower body in
      if str_eqb name (lit "inf") || str_eqb name (lit "infinity")
      then ret (FInf neg)
      else if str_eqb name (lit "nan") then ret FNan
      else match float_decimal neg body with
           | Some x => ret x
           | None => raise ValueError
           end
  end.

(** [m * 2^e] as an exact decimal: the pair [(D, k)] with
    [m * 2^e = D / 10^k]. *)
Definition exact_decimal (m e : Z) : Z * Z :=
  if 0 <=? e then (m * 2 ^ e, 0) else (m * 5 ^ (- e), - e).

(** The shortest decimal [c * 10^s] that reads back as [FFin false m e],
    the nearest to it among the shortest; [n] digits are tried, then one
    more, up to 17. *)
Fixpoint shortest_from (fuel : nat) (n : Z) (x : pyfloat) (D k L : Z)
  : Z * Z :=
  if L <=? n then (D, - k) else
  let p := 10 ^ (L - n) in
  let lo := D / p in
  let hi := lo + 1 in
  let r := D mod p in
  let s := L - n - k in
  let nearest :=
    if 2 * r <? p then lo
    else if p <? 2 * r then hi
    else if Z.even lo then lo else hi in
  match fuel with
  | O => (nearest, s)
  | S f =>
      let lo_ok := pyfloat_eqb (round_decimal false lo s) x in
      let hi_ok := pyfloat_eqb (round_decimal false hi s) x in
      if lo_ok && hi_ok then (nearest, s)
      else if lo_ok then (lo, s)
      else if hi_ok then (hi, s)
      else shortest_from f (n + 1) x D k L
  end.

Definition shortest (m e : Z) : Z * Z :=
  let '(D, k) := exact_decimal m e in
  shortest_from 16 1 (FFin false m e) D k (Z.of_nat (List.length (digits_of D))).

Definition strip_zeros (d : str) : str := rstrip_by (char_eqb "0") d.

Definition zeros (n : Z) : str := repeat "0"%char (Z.to_nat n).

(** The exponent of the scientific form: a sign and at least two digits. *)
Definition exp_text (x : Z) : str :=
  let d := digits_of (Z.abs x) in
  (if x <? 0 then "-"%char else "+"%char)
    :: (if Nat.ltb (List.length d) 2 then "0"%char :: d else d).

(** The text of the digits [ds] with the decimal point before position
    [decpt], in the format of [repr]: scientific when [decpt <= -4] or
    [16 < decpt], positional with at least one fractional digit
    otherwise. *)
Definition float_format (ds : str) (decpt : Z) : str :=
  let n := Z.of_nat (List.length ds) in
  if (decpt <=? -4) || (16 <? decpt) then
    match ds with
    | [] => []
    | [d] => d :: "e"%char :: exp_text (decpt - 1)
    | d :: rest => d :: "."%char :: rest ++ "e"%char :: exp_text (decpt - 1)
    end
  else if decpt <=? 0 then lit "0." ++ zeros (- decpt) ++ ds
  else if n <=? decpt then ds ++ zeros (decpt - n) ++ lit ".0"
  else firstn (Z.to_nat decpt) ds ++ "."%char :: skipn (Z.to_nat decpt) ds.

(** [repr(x)], which is also [str(x)], for a float. *)
Definition repr_float (x : pyfloat) : str :=
  match x with
  | FNan => lit "nan"
  | FInf neg => if neg then lit "-inf" else lit "inf"
  | FFin neg m e =>
      let body :=
        if m =? 0 then lit "0.0"
        else let '(c, s) := shortest m e in
             let d := digits_of c in
             float_format (strip_zeros d) (Z.of_nat (List.length d) + s) in
      if neg then "-"%char :: body else body
  end.

Local Close Scope Z_scope.

(** *** Dynamically typed values *)

Inductive pyval : Type :=
| PNone
| PBool (b : bool)
| PInt (n : Z)
| PFloat (x : pyfloat)
| PStr (s : str)
| PList (l : list str).

(** The truth value of a value used as a condition. *)
Definition truthy (v : pyval) : bool :=
  match v with
  | PNone => false
  | PBool b => b
  | PInt n => negb (n =? 0)%Z
  | PFloat (FFin _ m _) => negb (m =? 0)%Z
  | PFloat _ => true
  | PStr s => match s with [] => false | _ => true end
  | PList l => match l with [] => false | _ => true end
  end.

Definition hex_digit (n : N) : ascii :=
  if (n <? 10)%N then ascii_of_N (n + 48) else ascii_of_N (n + 87).

Definition isprintable (c : ascii) : bool :=
  let n := code c in
  ((32 <=? n) && (n <=? 126) || (161 <=? n) && negb (n =? 173))%N.

Definition repr_char (quote c : ascii) : str :=
  if char_eqb c quote || char_eqb c "\"%char then ["\"%char; c]
  else if char_eqb c "009" then lit "\t"
  else if char_eqb c newline then lit "\n"
  else if char_eqb c creturn then lit "\r"
  else if isprintable c then [c]
  else "\"%char :: "x"%char
         :: [hex_digit (code c / 16); hex_digit (code c mod 16)].

(** [repr(s)] for a string. *)
Definition repr_str (s : str) : str :=
  let quote :=
    if contains "'" s && negb (contains dquote s) then dquote else "'"%char in
  quote :: flat_map (repr_char quote) s ++ [quote].

(** [str(v)], the text that the conversion [%s] inserts. *)
Definition str_of_val (v : pyval) : str :=
  match v with
  | PNone => lit "None"
  | PBool b => if b then lit "True" else lit "False"
  | PInt n => str_of_int n
  | PFloat x => repr_float x
  | PStr s => s
  | PList l => "["%char :: join (lit ", ") (map repr_str l) ++ ["]"%char]
  end.

(** [sep.join(v)]: the elements of a list of strings, the characters of a
    string; any other value is not iterable. *)
Definition join_val (sep : str) (v : pyval) : result str :=
  match v with
  | PList l => ret (join sep l)
  | PStr s => ret (join sep (map (fun c => [c]) s))
  | _ => raise TypeError
  end.

(** [v.replace(c, '')] on the values of [pyval]: a string has the
    method; None, a boolean, a number and a list have no such attribute. *)
Definition replace_val (c : ascii) (v : pyval) : result pyval :=
  match v with
  | PStr s => ret (PStr (remove_char c s))
  | _ => raise AttributeError
  end.

(** *** Dictionaries with keys that are strings or [None] *)

Definition pykey := option str.

Definition key_eqb (a b : pykey) : bool :=
  match a, b with
  | None, None => true
  | Some x, Some y => str_eqb x y
  | _, _ => false
  end.

(** [str(k)] for a key. *)
Definition str_of_key (k : pykey) : str :=
  match k with
  | None => lit "None"
  | Some s => s
  end.

Definition dict (V : Type) : Type := list (pykey * V).

(** [d[k] = v]: an existing key keeps its place, a new key goes last. *)
Fixpoint dict_set {V} (d : dict V) (k : pykey) (v : V) : dict V :=
  match d with
  | [] => [(k, v)]
  | (k', v') :: d' =>
      if key_eqb k k' then (k', v) :: d' else (k', v') :: dict_set d' k v
  end.

Fixpoint dict_get {V} (d : dict V) (k : pykey) : option V :=
  match d with
  | [] => None
  | (k', v') :: d' => if key_eqb k k' then Some v' else dict_get d' k
  end.

Definition dict_keys {V} (d : dict V) : list pykey := map fst d.

(** *** Text files *)

(** Reading in text mode turns each of CR LF and CR into LF. *)
Fixpoint universal_newlines (s : str) : str :=
  match s with
  | [] => []
  | c :: r =>
      if char_eqb c creturn then
        match r with
        | c' :: r' =>
            if char_eqb c' newline then newline :: universal_newlines r'
            else newline :: universal_newlines r
        | [] => [newline]
        end
      else c :: universal_newlines r
  end.

Fixpoint lines_from (cur : str) (s : str) : list str :=
  match s with
  | [] => match cur with [] => [] | _ => [cur] end
  | c :: r =>
      if char_eqb c newline then (cur ++ [c]) :: lines_from [] r
      else lines_from (cur ++ [c]) r
  end.

(** [f.readlines()]: the lines of the text, each with its line end. *)
Definition readlines (content : str) : list str :=
  lines_from [] (universal_newlines content).

End Py.

Import Py.
Open Scope py_scope.

(** ** class GameConfig *)

Module GameConfig.

(** [self.header] and [self.option_key]; the two paths [self.file] and
    [self.default] name the two components of [fs] below. *)
Definition header : str := lit "/Script/Pal.PalGameWorldSettings".
Definition option_key : str := lit "OptionSettings".

(** The file system as the class sees it: the content of the live file
    and of the default file, [None] for a file that is not there.  The
    directory of the live file is taken to exist and to be writable, so
    that opening the file for writing does not fail. *)
Record fs : Type := mkFs {
  file : option str;
  default : option str
}.

(** A value of [self.config]: the two-element list [[tag, value]]. *)
Definition entry : Type := (str * pyval)%type.

(** The mutable fields of the object. *)
Record t : Type := mkConfig {
  config : dict entry;
  configured : bool
}.

(** *** _parse_options: the tokenizer *)

(** The local variables of the scanning loop. *)
Record lexer : Type := mkLexer {
  buffer : str;
  values : dict str;
  in_group : bool;
  group : option ascii;
  key : pykey
}.

Definition lexer_init : lexer :=
  {| buffer := []; values := []; in_group := false;
     group := None; key := None |}.

Definition is_group (g : option ascii) (c : ascii) : bool :=
  match g with
  | Some d => char_eqb c d
  | None => false
  end.

(** One iteration of [for character in options]. *)
Definition lexer_step (st : lexer) (character : ascii) : lexer :=
  if char_eqb character "=" && negb (in_group st) then
    {| buffer := []; values := values st; in_group := in_group st;
       group := group st; key := Some (strip (buffer st)) |}
  else if char_eqb character "," && negb (in_group st) then
    {| buffer := [];
       values := dict_set (values st) (key st) (strip (buffer st));
       in_group := in_group st; group := group st; key := key st |}
  else if char_eqb character dquote && negb (in_group st) then
    {| buffer := buffer st ++ [character]; values := values st;
       in_group := true; group := Some character; key := key st |}
  else if char_eqb character "(" && negb (in_group st) then
    {| buffer := buffer st ++ [character]; values := values st;
       in_group := true; group := Some ")"%char; key := key st |}
  else if is_group (group st) character then
    {| buffer := buffer st ++ [character]; values := values st;
       in_group := false; group := group st; key := key st |}
  else
    {| buffer := buffer st ++ [character]; values := values st;
       in_group := in_group st; group := group st; key := key st |}.

Definition lexer_run (options : str) : lexer :=
  fold_left lexer_step options lexer_init.

(** After the loop: "Don't forget the last value." *)
Definition lexer_finish (st : lexer) : dict str :=
  match key st with
  | Some _ => dict_set (values st) (key st) (strip (buffer st))
  | None => values st
  end.

(** The dictionary [values] when the classification loop starts. *)
Definition lex (options : str) : dict str :=
  lexer_finish (lexer_run options).

(** *** _parse_options: the type classifier *)

(** The body of [for key, val in values.items()]: the entry stored for
    the raw value [val], or the exception the body raises. *)
Definition classify (val : str) : result entry :=
  if str_eqb (lower val) (lit "true") then ret (lit "bool", PBool true)
  else if str_eqb (lower val) (lit "false") then ret (lit "bool", PBool false)
  else if isdigit val then
    n <- int_of_str val ;; ret (lit "int", PInt n)
  else
    c <- index0 val ;;
    if char_eqb c dquote then
      ret (lit "string", PStr (strip_char dquote val))
    else if char_eqb c "(" then
      ret (lit "group", PList (split "," (slice_1_m1 val)))
    else if contains "." val then
      x <- float_of_str val ;; ret (lit "float", PFloat x)
    else ret (lit "literal", PStr val).

(** The classification loop over [values.items()], writing into
    [self.config]; it stops at the first exception, with the entries
    stored so far. *)
Fixpoint classify_all (vals : dict str) (cfg : dict entry)
  : dict entry * result unit :=
  match vals with
  | [] => (cfg, ret tt)
  | (k, val) :: rest =>
      match classify val with
      | inl e => (cfg, raise e)
      | inr en => classify_all rest (dict_set cfg k en)
      end
  end.

Definition _parse_options (self : t) (options : str) : t * result unit :=
  let '(cfg, r) := classify_all (lex options) [] in
  ({| config := cfg; configured := configured self |}, r).

(** *** load *)

(** [line.strip()[len(self.option_key) + 2:-1]] *)
Definition options_of_line (line : str) : str :=
  slice_n_m1 (List.length option_key + 2) (strip line).

(** [for line in f.readlines()] of either file; [live] tells the loop over
    the live file, which also sets [self.configured]. *)
Fixpoint load_lines (live : bool) (self : t) (lines : list str)
  : t * result unit :=
  match lines with
  | [] => (self, ret tt)
  | line :: rest =>
      if startswith option_key line then
        let self1 :=
          if live then {| config := config self; configured := true |}
          else self in
        match _parse_options self1 (options_of_line line) with
        | (self2, inl e) => (self2, raise e)
        | (self2, inr _) => load_lines live self2 rest
        end
      else load_lines live self rest
  end.

Definition load (self : t) (w : fs) : t * result unit :=
  let '(self1, r) :=
    match file w with
    | Some content => load_lines true self (readlines content)
    | None => (self, ret tt)
    end in
  match r with
  | inl e => (self1, raise e)
  | inr _ =>
      if negb (configured self1) then
        match default w with
        | Some content => load_lines false self1 (readlines content)
        | None => (self1, raise FileNotFoundError)
        end
      else (self1, ret tt)
  end.

(** The fields set by [__init__] before it calls [load]. *)
Definition fresh : t := {| config := []; configured := false |}.

(** [GameConfig()] *)
Definition init (w : fs) : t * result unit := load fresh w.

(** *** save *)

(** One iteration of [for key, val in self.config.items()]: the text
    appended to [options]. *)
Definition option_text (k : pykey) (val : entry) : result str :=
  let '(tag, v) := val in
  if str_eqb tag (lit "bool") then
    ret (str_of_key k ++ "="%char
           :: (if truthy v then lit "True" else lit "False"))
  else if str_eqb tag (lit "int") then
    ret (str_of_key k ++ "="%char :: str_of_val v)
  else if str_eqb tag (lit "string") then
    ret (str_of_key k ++ "="%char :: dquote :: str_of_val v ++ [dquote])
  else if str_eqb tag (lit "float") then
    ret (str_of_key k ++ "="%char :: str_of_val v)
  else if str_eqb tag (lit "group") then
    items <- join_val (lit ",") v ;;
    ret (str_of_key k ++ "="%char :: "("%char :: items ++ [")"%char])
  else
    ret (str_of_key k ++ "="%char :: str_of_val v).

Fixpoint save_options (cfg : dict entry) (options : list str)
  : result (list str) :=
  match cfg with
  | [] => ret options
  | (k, val) :: rest =>
      o <- option_text k val ;; save_options rest (options ++ [o])
  end.

(** The two lines that [save] writes. *)
Definition file_text (options : list str) : str :=
  ("["%char :: header ++ "]"%char :: [newline])
    ++ (option_key ++ "="%char :: "("%char
          :: join (lit ",") options ++ ")"%char :: [newline]).

Definition save (self : t) (w : fs) : fs * result unit :=
  match save_options (config self) [] with
  | inl e => (w, raise e)
  | inr options =>
      ({| file := Some (file_text options); default := default w |}, ret tt)
  end.

(** *** get and set *)

Definition get (self : t) (k : pykey) (dflt : pyval) : pyval :=
  match dict_get (config self) k with
  | Some val => snd val
  | None => dflt
  end.

Definition var_types : list str :=
  [lit "bool"; lit "int"; lit "string"; lit "float"; lit "group";
   lit "literal"].

Definition set (self : t) (w : fs) (k : pykey) (var_type : str) (val : pyval)
  : (t * fs) * result unit :=
  if negb (existsb (str_eqb var_type) var_types) then
    ((self, w), raise ValueError)
  else
    match (if str_eqb var_type (lit "string") then replace_val dquote val
           else ret val) with
    | inl e => ((self, w), raise e)
    | inr val1 =>
        let self1 :=
          {| config := dict_set (config self) k (var_type, val1);
             configured := configured self |} in
        let '(w1, r) := save self1 w in
        ((self1, w1), r)
    end.

End GameConfig.

Import GameConfig.

(** ** Notions used by the statements *)

(** The texts of a list with a comma between each two of them. *)
Definition comma_separated (l : list str) : str :=
  match l with
  | [] => []
  | o :: rest => o ++ List.concat (map (fun x => ","%char :: x) rest)
  end.

(** The settings file for a list of option texts, written out: the line
    of the section and the line of the options, each ended by a line
    feed. *)
Definition settings_text (options : list str) : str :=
  lit "[/Script/Pal.PalGameWorldSettings]" ++ "010"%char
    :: lit "OptionSettings=(" ++ comma_separated options
    ++ [")"%char; "010"%char].

(** A key as it is written before the equals sign. *)
Definition key_text (k : pykey) : str :=
  match k with
  | Some s => s
  | None => lit "None"
  end.

(** A value that is None, a boolean, an integer or a float. *)
Definition scalar (val : pyval) : Prop :=
  match val with
  | PNone | PBool _ | PInt _ | PFloat _ => True
  | PStr _ | PList _ => False
  end.

(** The characters that the scanner treats specially outside a group. *)
Definition special (c : ascii) : bool :=
  char_eqb c "=" || char_eqb c "," || char_eqb c dquote || char_eqb c "(".

Definition linebreak (c : ascii) : bool :=
  char_eqb c newline || char_eqb c creturn.

(** A text without special characters and without line breaks. *)
Definition plain (s : str) : bool :=
  forallb (fun c => negb (special c) && negb (linebreak c)) s.

(** The three forms of a value in the options line: a bare token, a text
    between double quotes with no double quote inside, a text between
    parentheses with no closing parenthesis inside. *)
Inductive value_form : str -> Prop :=
| vf_bare (v : str) :
    plain v = true -> value_form v
| vf_quoted (s : str) :
    forallb (fun c => negb (char_eqb c dquote) && negb (linebreak c)) s = true ->
    value_form (quoted s)
| vf_group (g : str) :
    forallb (fun c => negb (char_eqb c ")") && negb (linebreak c)) g = true ->
    value_form ("("%char :: g ++ [")"%char]).

(** [Key=Value] *)
Definition item_text (it : str * str) : str := fst it ++ "="%char :: snd it.

Definition item_ok (it : str * str) : Prop :=
  plain (fst it) = true /\ value_form (snd it).

(** A well-formed options string: items [Key=Value] joined by commas, each
    key a bare token and each value of one of the three forms. *)
Definition well_formed (x : str) : Prop :=
  exists items, Forall item_ok items /\ x = join (lit ",") (map item_text items).

(** What the scanner stores for a list of items: each stripped value under
    its stripped key, in order, a repeated key overwriting in place. *)
Definition lex_items (items : list (str * str)) (d : dict str) : dict str :=
  fold_left (fun d it => dict_set d (Some (strip (fst it))) (strip (snd it)))
            items d.


(** The scanner commits a pair with an empty raw value: at a comma
    outside a group, or at the end of the input once a key was captured. *)
Definition commits_empty (options : str) : Prop :=
  (exists p s, options = p ++ ","%char :: s
               /\ in_group (lexer_run p) = false
               /\ strip (buffer (lexer_run p)) = [])
  \/ (key (lexer_run options) <> None
      /\ strip (buffer (lexer_run options)) = []).


(** The text that [save] writes for a value, after the key and the equals
    sign. *)
Definition value_text (val : entry) : result str :=
  let '(tag, v) := val in
  if str_eqb tag (lit "bool") then
    ret (if truthy v then lit "True" else lit "False")
  else if str_eqb tag (lit "int") then ret (str_of_val v)
  else if str_eqb tag (lit "string") then ret (quoted (str_of_val v))
  else if str_eqb tag (lit "float") then ret (str_of_val v)
  else if str_eqb tag (lit "group") then
    items <- join_val (lit ",") v ;; ret ("("%char :: items ++ [")"%char])
  else ret (str_of_val v).

(** An entry that survives a save and a reload: its key is a stripped
    bare token, and the text written for its value has one of the three
    forms, is stripped, and classifies as the entry itself. *)
Definition stable (k : pykey) (val : entry) : Prop :=
  exists ks v,
    k = Some ks /\ plain ks = true /\ strip ks = ks
    /\ value_text val = inr v /\ value_form v /\ strip v = v
    /\ classify v = inr val.

(** A store with distinct keys, all of whose entries are stable. *)
Definition stable_store (cfg : dict entry) : Prop :=
  NoDup (dict_keys cfg) /\ Forall (fun kv => stable (fst kv) (snd kv)) cfg.

(** A float whose text classifies as the same float again. *)
Definition float_stable (x : pyfloat) : Prop :=
  classify (repr_float x) = inr (lit "float", PFloat x).

Definition floats_stable (cfg : dict entry) : Prop :=
  forall k tag x, In (k, (tag, PFloat x)) cfg -> float_stable x.


(** The items [Key=Value] that [save] writes for a stable store. *)
Definition written_as (kv : pykey * entry) (it : str * str) : Prop :=
  fst kv = Some (fst it) /\ strip (fst it) = fst it
  /\ strip (snd it) = snd it /\ value_text (snd kv) = inr (snd it)
  /\ classify (snd it) = inr (snd kv).

(** A float whose significand is not negative, as every float read from a
    text is. *)
Definition float_nonneg (x : pyfloat) : Prop :=
  match x with
  | FFin _ m _ => (0 <= m)%Z
  | _ => True
  end.

(** The characters of the text of a float. *)
Definition float_char (c : ascii) : bool :=
  isdecimal c || existsb (char_eqb c) (lit ".e+-infa").


(** The range of binary64: a significand below [2^53], an exponent from
    [-1074] to [971], and a significand below [2^52] only at the least
    exponent. *)
Definition binary64 (x : pyfloat) : Prop :=
  match x with
  | FFin _ m e =>
      (0 <= m < 2 ^ 53 /\ -1074 <= e <= 971 /\ (m < 2 ^ 52 -> e = -1074))%Z
  | _ => True
  end.


(** An entry whose value has the Python type that its tag names, in the
    shape the classifier gives it. *)
Definition well_typed (val : entry) : Prop :=
  let '(tag, v) := val in
  (tag = lit "bool" /\ exists b, v = PBool b)
  \/ (tag = lit "int" /\ exists n, v = PInt n /\ (0 <= n)%Z)
  \/ (tag = lit "string"
      /\ exists s, v = PStr s /\ strip_char dquote s = s)
  \/ (tag = lit "group"
      /\ exists l, v = PList l /\ l <> []
           /\ Forall (fun w => contains "," w = false) l)
  \/ (tag = lit "float" /\ exists x, v = PFloat x /\ binary64 x)
  \/ (tag = lit "literal" /\ exists s, v = PStr s /\ s <> []).

(** The sixteen spellings of a word of four letters in either case. *)
Definition either_case (lo up : ascii) (c : ascii) : Prop := c = lo \/ c = up.


(** A key that is [None] or a stripped text. *)
Definition key_stripped (k : pykey) : Prop :=
  match k with
  | Some ks => strip ks = ks
  | None => True
  end.

(** The spellings of [true] and [false] in either case. *)
Definition spells_true (val : str) : Prop :=
  exists a b c d,
    val = [a; b; c; d]
    /\ either_case "t" "T" a /\ either_case "r" "R" b
    /\ either_case "u" "U" c /\ either_case "e" "E" d.

Definition spells_false (val : str) : Prop :=
  exists a b c d e,
    val = [a; b; c; d; e]
    /\ either_case "f" "F" a /\ either_case "a" "A" b
    /\ either_case "l" "L" c /\ either_case "s" "S" d
    /\ either_case "e" "E" e.


(** ** text_width (manage.py, lines 64-76) *)

(** The loop [for char in string]: a character above code 127 counts for
    two columns, any other for one. *)
Definition text_width (s : str) : Z :=
  fold_left (fun width c => if (127 <? code c)%N then width + 2 else width + 1)%Z
            s 0%Z.

(** ** The padding methods of [str] *)

Definition len (s : str) : Z := Z.of_nat (List.length s).

Definition spaces (n : Z) : str := repeat " "%char (Z.to_nat n).

(** [s.ljust(width)] *)
Definition ljust (s : str) (width : Z) : str :=
  if (width <=? len s)%Z then s else s ++ spaces (width - len s).

(** [s.rjust(width)] *)
Definition rjust (s : str) (width : Z) : str :=
  if (width <=? len s)%Z then s else spaces (width - len s) ++ s.

(** [s.center(width)]: of an odd margin the larger half goes to the left
    when [width] is odd. *)
Definition center (s : str) (width : Z) : str :=
  if (width <=? len s)%Z then s
  else
    let marg := (width - len s)%Z in
    let left := (marg / 2 + Z.land (Z.land marg width) 1)%Z in
    spaces left ++ s ++ spaces (marg - left).

(** [l[i] = a] for an index in range. *)
Fixpoint list_set {A} (l : list A) (i : nat) (a : A) : list A :=
  match l, i with
  | [], _ => []
  | _ :: l', O => a :: l'
  | x :: l', S i' => x :: list_set l' i' a
  end.

(** ** class Table (manage.py, lines 640-725) *)

Module Table.

Record t : Type := mk {
  header : option (list str);
  align : list str;
  data : list (list pyval);
  borders : bool
}.

(** [Table(columns)] *)
Definition init (columns : option (list str)) : t :=
  {| header := columns; align := []; data := []; borders := true |}.

(** [add]: [self.data.append(row)] *)
Definition add (self : t) (row : list pyval) : t :=
  {| header := header self; align := align self;
     data := data self ++ [row]; borders := borders self |}.

(** The first part of [render]: the header row and the widths of its
    columns, or no row and a zero for each cell of the first data row. *)
Definition start (self : t) : result (list (list str) * list Z) :=
  match header self with
  | Some cols => ret ([cols], map text_width cols)
  | None =>
      match data self with
      | [] => raise IndexError
      | row0 :: _ => ret ([], repeat 0%Z (List.length row0))
      end
  end.

(** [for i in range(len(row_data))] from index [i] on: the texts of the
    cells, and the column widths raised to them. *)
Fixpoint fill_row (row_data : list pyval) (i : nat) (row : list str)
    (col_lengths : list Z) : result (list str * list Z) :=
  match row_data with
  | [] => ret (row, col_lengths)
  | v :: rest =>
      let val := str_of_val v in
      match nth_error col_lengths i with
      | None => raise IndexError
      | Some w =>
          fill_row rest (S i) (row ++ [val])
                   (list_set col_lengths i (Z.max w (text_width val)))
      end
  end.

(** [for row_data in self.data] *)
Fixpoint fill_rows (rows_data : list (list pyval)) (rows : list (list str))
    (col_lengths : list Z) : result (list (list str) * list Z) :=
  match rows_data with
  | [] => ret (rows, col_lengths)
  | row_data :: rest =>
      match fill_row row_data 0 [] col_lengths with
      | inl e => raise e
      | inr (row, cl) => fill_rows rest (rows ++ [row]) cl
      end
  end.

(** The alignment of column [i]. *)
Definition align_of (self : t) (i : nat) : str :=
  match nth_error (align self) i with
  | Some a => if str_eqb a [] then lit "l" else a
  | None => lit "l"
  end.

(** The body of [for i in range(len(row))] for one cell. *)
Definition pad_cell (self : t) (col_lengths : list Z) (i : nat) (cell : str)
  : result str :=
  match nth_error col_lengths i with
  | None => raise IndexError
  | Some w =>
      let width := (w - (text_width cell - len cell))%Z in
      if str_eqb (align_of self i) (lit "r") then ret (rjust cell width)
      else if str_eqb (align_of self i) (lit "c") then ret (center cell width)
      else ret (ljust cell width)
  end.

Fixpoint pad_row (self : t) (col_lengths : list Z) (row : list str)
    (i : nat) (vals : list str) : result (list str) :=
  match row with
  | [] => ret vals
  | cell :: rest =>
      match pad_cell self col_lengths i cell with
      | inl e => raise e
      | inr v => pad_row self col_lengths rest (S i) (vals ++ [v])
      end
  end.

(** The line that [print] writes for one row. *)
Definition print_row (self : t) (vals : list str) : str :=
  if borders self then lit "| " ++ join (lit " | ") vals ++ lit " |"
  else lit "  " ++ join (lit "  ") vals.

(** [for row in rows]: the lines printed so far, and how the loop ends. *)
Fixpoint print_rows (self : t) (col_lengths : list Z)
    (rows : list (list str)) (printed : list str)
  : list str * result unit :=
  match rows with
  | [] => (printed, ret tt)
  | row :: rest =>
      match pad_row self col_lengths row 0 [] with
      | inl e => (printed, raise e)
      | inr vals =>
          print_rows self col_lengths rest (printed ++ [print_row self vals])
      end
  end.

(** [render]: the lines printed, and how the call ends. *)
Definition render (self : t) : list str * result unit :=
  match start self with
  | inl e => ([], raise e)
  | inr (rows, cl) =>
      match fill_rows (data self) rows cl with
      | inl e => ([], raise e)
      | inr (rows', cl') => print_rows self cl' rows' []
      end
  end.

(** The number of columns that [render] allots before it reads the data
    rows. *)
Definition columns (self : t) : nat :=
  match header self with
  | Some cols => List.length cols
  | None => List.length (hd [] (data self))
  end.

(** The texts that [render] lays out: the header row, then the data rows
    with each value as [str] gives it. *)
Definition texts (self : t) : list (list str) :=
  match header self with
  | Some cols => [cols]
  | None => []
  end ++ map (map str_of_val) (data self).

End Table.

(** A cell is its text with blanks added on the left and on the right. *)
Definition padded_from (text cell : str) : Prop :=
  exists a b, (0 <= a)%Z /\ (0 <= b)%Z /\ cell = spaces a ++ text ++ spaces b.


(** Every cell of the row has a column that is at least as wide. *)
Definition covered (cl : list Z) (row : list str) : Prop :=
  forall j cell,
    nth_error row j = Some cell ->
    exists w, nth_error cl j = Some w /\ (text_width cell <= w)%Z.

(** The same columns, none of them narrower. *)
Definition widened (cl cl' : list Z) : Prop :=
  List.length cl' = List.length cl
  /\ forall j w, nth_error cl j = Some w ->
                 exists w', nth_error cl' j = Some w' /\ (w <= w')%Z.

(** Each cell of the row has exactly the width of its column. *)
Definition fits (widths : list Z) (row : list str) : Prop :=
  forall j v, nth_error row j = Some v ->
              nth_error widths j = Some (text_width v).

(** [render] cannot index its list of column widths: there is no header
    and no data row, or a data row has more cells than there are
    columns. *)
Definition overflows (self : Table.t) : Prop :=
  (Table.header self = None /\ Table.data self = [])
  \/ Exists (fun rd => (Table.columns self < List.length rd)%nat)
            (Table.data self).


(** A table with a header and two data rows, the second one short. *)
Definition sample_table : Table.t :=
  Table.add
    (Table.add (Table.init (Some [lit "Name"; lit "Port"]))
               [PStr (lit "palworld"); PInt 8211])
    [PStr (lit "rcon")].


(** ** yn_input (manage.py, lines 42-61) *)

Module Console.

(** What [input] raises at the end of the input. *)
Inductive input_exn : Type := EOFError.

(** The terminal: the lines that are still to be typed, and the prompts
    written so far. *)
Record t : Type := mk { stdin : list str; stdout : list str }.

End Console.

(** The prompt with its hint, lines 49-52. *)
Definition yn_prompt (prompt default : str) : str :=
  if str_eqb default (lit "y") then prompt ++ lit " [Y/n]: "
  else prompt ++ lit " [y/N]: ".

(** [while True] over the lines typed: each [input(prompt)] writes the
    prompt and takes the next line, or raises [EOFError] when there is
    none. *)
Fixpoint yn_loop (prompt default : str) (lines : list str) (out : list str)
  : Console.t * (Console.input_exn + bool) :=
  match lines with
  | [] => (Console.mk [] (out ++ [prompt]), inl Console.EOFError)
  | line :: rest =>
      let val := lower line in
      if str_eqb val (lit "y") then
        (Console.mk rest (out ++ [prompt]), inr true)
      else if str_eqb val (lit "n") then
        (Console.mk rest (out ++ [prompt]), inr false)
      else if str_eqb val [] then
        (Console.mk rest (out ++ [prompt]), inr (str_eqb default (lit "y")))
      else yn_loop prompt default rest (out ++ [prompt])
  end.

Definition yn_input (prompt default : str) (tty : Console.t)
  : Console.t * (Console.input_exn + bool) :=
  yn_loop (yn_prompt prompt default) default
          (Console.stdin tty) (Console.stdout tty).

(** What a typed line answers: yes, no, the default, or nothing. *)
Definition reply (default line : str) : option bool :=
  if str_eqb line (lit "y") || str_eqb line (lit "Y") then Some true
  else if str_eqb line (lit "n") || str_eqb line (lit "N") then Some false
  else if str_eqb line [] then Some (str_eqb default (lit "y"))
  else None.


(** ** The placeholders of discord_alert (manage.py, lines 161-164) *)

(** [s.count(sub)] for a non-empty [sub]: the occurrences found from the
    left, none overlapping the one before it.  [skip] characters of the
    last occurrence are still to be passed. *)
Fixpoint count_skip (sub s : str) (skip : nat) : Z :=
  match s with
  | [] => 0%Z
  | _ :: rest =>
      match skip with
      | S k => count_skip sub rest k
      | O =>
          if startswith sub s
          then (1 + count_skip sub rest (List.length sub - 1))%Z
          else count_skip sub rest 0
      end
  end.

Definition count (s sub : str) : Z := count_skip sub s 0.

(** [s * n] *)
Definition str_mul (s : str) (n : Z) : str :=
  List.concat (repeat s (Z.to_nat n)).

(** Lines 163-164: a message with fewer [%s] than there are parameters
    gets the missing ones appended; [parameters] is [None] or a list. *)
Definition pad_placeholders {A} (message : str) (parameters : option (list A))
  : str :=
  match parameters with
  | Some ps =>
      if (count message (lit "%s") <? Z.of_nat (List.length ps))%Z then
        message ++ str_mul (lit " %s")
                     (Z.of_nat (List.length ps) - count message (lit "%s"))
      else message
  | None => message
  end.


(** ** Lists of texts *)

(** [x in l] *)
Definition list_mem (x : str) (l : list str) : bool := existsb (str_eqb x) l.

(** [l.remove(x)], for an [x] that is in [l]: the first one goes. *)
Fixpoint list_remove (x : str) (l : list str) : list str :=
  match l with
  | [] => []
  | y :: l' => if str_eqb y x then l' else y :: list_remove x l'
  end.

(** Lines 1079-1101 of menu_crossplay, for one platform: it is taken out
    of [opts] when it is there, and appended when it is not. *)
Definition toggle (platform : str) (opts : list str) : list str :=
  if list_mem platform opts then list_remove platform opts
  else opts ++ [platform].

(** ** The player list of menu_watch (manage.py, lines 800-820) *)

Module Watch.

(** What [player_levels[...]] and [del player_levels[...]] raise on a
    missing key. *)
Inductive dict_exn : Type := KeyError.

(** An entry of the player list of the API, with the two fields that are
    read. *)
Record player : Type := mk_player { name : str; level : Z }.

(** A call of [discord_alert]. *)
Record alert : Type := mk_alert { message : str; parameters : list pyval }.

(** [player_levels], a dict from names to levels. *)
Definition levels : Type := list (str * Z).

Fixpoint lv_get (d : levels) (k : str) : option Z :=
  match d with
  | [] => None
  | (k', v) :: d' => if str_eqb k' k then Some v else lv_get d' k
  end.

(** [d[k] = v] *)
Fixpoint lv_set (d : levels) (k : str) (v : Z) : levels :=
  match d with
  | [] => [(k, v)]
  | (k', v') :: d' =>
      if str_eqb k' k then (k', v) :: d' else (k', v') :: lv_set d' k v
  end.

(** [del d[k]] *)
Definition lv_del (d : levels) (k : str) : dict_exn + levels :=
  match lv_get d k with
  | None => inl KeyError
  | Some _ => inr (filter (fun e => negb (str_eqb (fst e) k)) d)
  end.

(** The two variables that live across the rounds of the loop. *)
Record state : Type := mk_state { players : list str; player_levels : levels }.

(** Their values before the first round. *)
Definition empty : state := mk_state [] [].

Definition alert_joined (n : str) : alert :=
  mk_alert (lit "player_joined") [PStr n].
Definition alert_leveled_up (n : str) (l : Z) : alert :=
  mk_alert (lit "player_leveled_up") [PStr n; PInt l].
Definition alert_left (n : str) : alert :=
  mk_alert (lit "player_left") [PStr n].

(** [for player in current_player_data], lines 804-814: the alerts sent,
    and the names seen with the new state, or the error that ends the
    round. *)
Fixpoint scan (data : list player) (current_players : list str) (st : state)
    (alerts : list alert)
  : list alert * (dict_exn + (list str * state)) :=
  match data with
  | [] => (alerts, inr (current_players, st))
  | p :: rest =>
      let current_players := current_players ++ [name p] in
      let '(st, alerts) :=
        if negb (list_mem (name p) (players st)) then
          (mk_state (players st ++ [name p])
                    (lv_set (player_levels st) (name p) (level p)),
           alerts ++ [alert_joined (name p)])
        else (st, alerts) in
      match lv_get (player_levels st) (name p) with
      | None => (alerts, inl KeyError)
      | Some l =>
          if negb (Z.eqb l (level p)) then
            scan rest current_players
                 (mk_state (players st)
                           (lv_set (player_levels st) (name p) (level p)))
                 (alerts ++ [alert_leveled_up (name p) (level p)])
          else scan rest current_players st alerts
      end
  end.

(** [for player in players], lines 816-820.  The iterator of a list is an
    index [i] into the list as it is when the next element is asked for,
    so an element that moves down past [i] is not visited.  [fuel] bounds
    the number of rounds; [None] is a round that was not run. *)
Fixpoint sweep (fuel i : nat) (current_players : list str) (st : state)
    (alerts : list alert) {struct fuel}
  : option (list alert * (dict_exn + state)) :=
  match nth_error (players st) i with
  | None => Some (alerts, inr st)
  | Some p =>
      match fuel with
      | O => None
      | S fuel' =>
          if negb (list_mem p current_players) then
            let alerts := alerts ++ [alert_left p] in
            let players' := list_remove p (players st) in
            match lv_del (player_levels st) p with
            | inl e => Some (alerts, inl e)
            | inr lv =>
                sweep fuel' (S i) current_players (mk_state players' lv) alerts
            end
          else sweep fuel' (S i) current_players st alerts
      end
  end.

(** Lines 801-820 for a running game: [current_player_data] is the list
    of the API, or [None] when the API gave none. *)
Definition track (current_player_data : option (list player)) (st : state)
  : option (list alert * (dict_exn + state)) :=
  match current_player_data with
  | None => Some ([], inr st)
  | Some data =>
      match scan data [] st [] with
      | (alerts, inl e) => Some (alerts, inl e)
      | (alerts, inr (current_players, st')) =>
          sweep (List.length (players st')) 0 current_players st' alerts
      end
  end.

(** Every tracked name is there once and has a level, and only tracked
    names have one. *)
Definition tracked (st : state) : Prop :=
  NoDup (players st)
  /\ forall n, In n (players st) <-> lv_get (player_levels st) n <> None.

End Watch.

(** The elements at the even and at the odd positions of a list, counted
    from zero. *)
Fixpoint evens {A} (l : list A) : list A :=
  match l with
  | [] => []
  | [a] => [a]
  | a :: _ :: l' => a :: evens l'
  end.

Fixpoint odds {A} (l : list A) : list A :=
  match l with
  | [] => []
  | [_] => []
  | _ :: b :: l' => b :: odds l'
  end.


(** * Verified properties *)

(** ** Equality tests *)

Lemma char_eqb_spec (a b : ascii) : reflect (a = b) (char_eqb a b).
Proof. apply Ascii.eqb_spec. Qed.

Lemma char_eqb_refl (a : ascii) : char_eqb a a = true.
Proof. apply Ascii.eqb_refl. Qed.

Lemma str_eqb_eq (a b : str) : str_eqb a b = true <-> a = b.
Proof.
  revert b; induction a as [|x a IH]; intros [|y b]; simpl;
    try (split; [discriminate | discriminate]); try tauto.
  rewrite andb_true_iff, IH. unfold char_eqb. rewrite Ascii.eqb_eq.
  split; [intros [-> ->]; reflexivity | intros H; inversion H; auto].
Qed.

Lemma str_eqb_refl (a : str) : str_eqb a a = true.
Proof. apply str_eqb_eq; reflexivity. Qed.

Lemma str_eqb_neq (a b : str) : str_eqb a b = false <-> a <> b.
Proof.
  rewrite <- str_eqb_eq. destruct (str_eqb a b); split; congruence.
Qed.

Lemma key_eqb_eq (a b : pykey) : key_eqb a b = true <-> a = b.
Proof.
  destruct a as [x|], b as [y|]; simpl; try (split; congruence).
  rewrite str_eqb_eq. split; congruence.
Qed.

Lemma key_eqb_refl (a : pykey) : key_eqb a a = true.
Proof. apply key_eqb_eq; reflexivity. Qed.

Lemma key_eqb_neq (a b : pykey) : key_eqb a b = false <-> a <> b.
Proof.
  rewrite <- key_eqb_eq. destruct (key_eqb a b); split; congruence.
Qed.

(** ** Dictionaries *)

Section Dict.
Context {V : Type}.
Implicit Types (d : dict V) (k : pykey) (v : V).

Lemma dict_get_set_same d k v : dict_get (dict_set d k v) k = Some v.
Proof.
  induction d as [|[k' v'] d IH]; simpl.
  - now rewrite key_eqb_refl.
  - destruct (key_eqb k k') eqn:E; simpl; rewrite E; auto.
Qed.

Lemma dict_get_set_other d k k' v :
  k <> k' -> dict_get (dict_set d k v) k' = dict_get d k'.
Proof.
  intros N. induction d as [|[k0 v0] d IH]; simpl.
  - destruct (key_eqb k' k) eqn:E; auto.
    apply key_eqb_eq in E; congruence.
  - destruct (key_eqb k k0) eqn:E; simpl.
    + apply key_eqb_eq in E; subst k0.
      destruct (key_eqb k' k) eqn:E'; auto.
      apply key_eqb_eq in E'; congruence.
    + now rewrite IH.
Qed.

Lemma dict_get_None d k : dict_get d k = None <-> ~ In k (dict_keys d).
Proof.
  induction d as [|[k0 v0] d IH]; simpl; [tauto|].
  destruct (key_eqb k k0) eqn:E.
  - apply key_eqb_eq in E; subst. split; [discriminate | tauto].
  - apply key_eqb_neq in E. rewrite IH. split; [intros H [?|?] | ]; intuition congruence.
Qed.

Lemma dict_get_In d k v : dict_get d k = Some v -> In (k, v) d.
Proof.
  induction d as [|[k0 v0] d IH]; simpl; [discriminate|].
  destruct (key_eqb k k0) eqn:E; auto.
  apply key_eqb_eq in E; subst. intros [= ->]; auto.
Qed.

Lemma dict_In_get d k v :
  NoDup (dict_keys d) -> In (k, v) d -> dict_get d k = Some v.
Proof.
  induction d as [|[k0 v0] d IH]; simpl; [tauto|].
  intros ND [[= -> ->]|H].
  - now rewrite key_eqb_refl.
  - inversion ND; subst. destruct (key_eqb k k0) eqn:E; auto.
    apply key_eqb_eq in E; subst. exfalso.
    apply H2. change k0 with (fst (k0, v)). now apply in_map.
Qed.

(** Writing to a present key keeps the sequence of keys. *)
Lemma dict_set_keys_present d k v :
  In k (dict_keys d) -> dict_keys (dict_set d k v) = dict_keys d.
Proof.
  induction d as [|[k0 v0] d IH]; simpl; [tauto|].
  intros H. destruct (key_eqb k k0) eqn:E; simpl; auto.
  f_equal. apply IH. destruct H as [->|H]; auto.
  now rewrite key_eqb_refl in E.
Qed.

(** Writing to an absent key appends the pair. *)
Lemma dict_set_absent d k v :
  ~ In k (dict_keys d) -> dict_set d k v = d ++ [(k, v)].
Proof.
  induction d as [|[k0 v0] d IH]; simpl; auto.
  intros H. destruct (key_eqb k k0) eqn:E.
  - apply key_eqb_eq in E; subst; tauto.
  - f_equal. apply IH; tauto.
Qed.

Lemma dict_set_keys d k v :
  dict_keys (dict_set d k v) =
  if existsb (key_eqb k) (dict_keys d) then dict_keys d
  else dict_keys d ++ [k].
Proof.
  destruct (existsb (key_eqb k) (dict_keys d)) eqn:E.
  - apply dict_set_keys_present. apply existsb_exists in E.
    destruct E as (k' & H & E). apply key_eqb_eq in E; now subst.
  - rewrite dict_set_absent.
    + unfold dict_keys. now rewrite map_app.
    + intros H. assert (existsb (key_eqb k) (dict_keys d) = true); [|congruence].
      apply existsb_exists. exists k; split; auto. apply key_eqb_refl.
Qed.

Lemma dict_set_NoDup d k v :
  NoDup (dict_keys d) -> NoDup (dict_keys (dict_set d k v)).
Proof.
  intros ND. rewrite dict_set_keys.
  destruct (existsb (key_eqb k) (dict_keys d)) eqn:E; auto.
  apply NoDup_app; auto.
  - constructor; [simpl; tauto | constructor].
  - intros x Hx [<-|[]].
    assert (existsb (key_eqb k) (dict_keys d) = true); [|congruence].
    apply existsb_exists. exists k; split; auto. apply key_eqb_refl.
Qed.

End Dict.

(** ** The serializer emits one text per entry, in order *)

Lemma save_options_spec (cfg : dict entry) (acc options : list str) :
  save_options cfg acc = inr options <->
  exists os, options = acc ++ os
             /\ Forall2 (fun kv o => option_text (fst kv) (snd kv) = inr o)
                        cfg os.
Proof.
  revert acc options. induction cfg as [|[k en] cfg IH]; intros acc options; simpl.
  - split.
    + intros [= <-]. exists []. rewrite app_nil_r. split; auto.
    + intros (os & -> & F). inversion F. now rewrite app_nil_r.
  - destruct (option_text k en) as [e|o] eqn:E; simpl.
    + split; [discriminate|]. intros (os & _ & F). inversion F; subst.
      simpl in *. congruence.
    + rewrite IH. split.
      * intros (os & -> & F). exists (o :: os). rewrite <- app_assoc. split; auto.
      * intros (os & -> & F). inversion F; subst. simpl in *.
        assert (y = o) by congruence. subst y.
        exists l'. rewrite <- app_assoc. split; auto.
Qed.

Lemma save_ok (self : t) (w w' : fs) :
  save self w = (w', inr tt) ->
  exists options,
    file w' = Some (file_text options) /\ default w' = default w
    /\ Forall2 (fun kv o => option_text (fst kv) (snd kv) = inr o)
               (config self) options.
Proof.
  unfold save. destruct (save_options (config self) []) as [e|options] eqn:E.
  - discriminate.
  - intros [= <-]. exists options. simpl. repeat split; auto.
    apply save_options_spec in E. destruct E as (os & -> & F). exact F.
Qed.

Lemma Forall2_In_l {A B} (R : A -> B -> Prop) l1 l2 a :
  Forall2 R l1 l2 -> In a l1 -> exists b, In b l2 /\ R a b.
Proof.
  induction 1 as [|x y l1 l2 r F IH]; simpl; [tauto|].
  intros [->|H]; [exists y; auto|].
  destruct (IH H) as (b & ? & ?). exists b; auto.
Qed.

Lemma var_types_spec (var_type : str) :
  existsb (str_eqb var_type) var_types = true <-> In var_type var_types.
Proof.
  rewrite existsb_exists. split.
  - intros (x & H & E). apply str_eqb_eq in E. now subst.
  - intros H. exists var_type. split; auto. apply str_eqb_refl.
Qed.

(** ** C5: the example of the specification *)

(** C5. Parsing [A=True,B=42,C="hi, there",D=(1,2,3)] gives exactly the
    four entries A=Bool(true), B=Int(42), C=Str("hi, there") and
    D=Group(["1","2","3"]): the scanner yields four pairs, the comma
    between the quotes does not end the value of C. *)
Theorem C5_parse_example (self : t) :
  let options :=
    lit "A=True,B=42,C=" ++ quoted (lit "hi, there") ++ lit ",D=(1,2,3)" in
  lex options =
    [(Some (lit "A"), lit "True"); (Some (lit "B"), lit "42");
     (Some (lit "C"), quoted (lit "hi, there"));
     (Some (lit "D"), lit "(1,2,3)")]
  /\ _parse_options self options =
     ({| config :=
           [(Some (lit "A"), (lit "bool", PBool true));
            (Some (lit "B"), (lit "int", PInt 42));
            (Some (lit "C"), (lit "string", PStr (lit "hi, there")));
            (Some (lit "D"),
             (lit "group", PList [lit "1"; lit "2"; lit "3"]))];
         configured := configured self |}, inr tt).
Proof. split; reflexivity. Qed.

(** ** C4: an unknown type tag *)

(** C4. With a type tag outside bool, int, string, float, group and
    literal, [set] raises [ValueError] ("Invalid variable type") and
    both the object and the file system are what they were before the
    call. *)
Theorem C4_set_invalid_type (self : t) (w : fs) (k : pykey)
    (var_type : str) (val : pyval) :
  ~ In var_type var_types ->
  set self w k var_type val = ((self, w), inl ValueError).
Proof.
  intros H. unfold set.
  destruct (existsb (str_eqb var_type) var_types) eqn:E; simpl; auto.
  apply var_types_spec in E. contradiction.
Qed.

Lemma C4_set_invalid_type_witness :
  let w := {| file := Some (lit "x"); default := None |} in
  ~ In (lit "double") var_types
  /\ set fresh w (Some (lit "K")) (lit "double") (PInt 1)
     = ((fresh, w), inl ValueError).
Proof.
  assert (N : ~ In (lit "double") var_types).
  { intros H. apply var_types_spec in H. vm_compute in H. discriminate. }
  split; [exact N|].
  apply (C4_set_invalid_type fresh _ (Some (lit "K")) (lit "double") (PInt 1) N).
Defined.

(** ** C10: a string loses its double quotes in [set] *)

Lemma remove_char_not_In (c : ascii) (s : str) : ~ In c (remove_char c s).
Proof.
  unfold remove_char. intros H. apply filter_In in H. destruct H as [_ H].
  now rewrite char_eqb_refl in H.
Qed.

Lemma set_string_eq (self : t) (w : fs) (k : pykey) (v : str) :
  set self w k (lit "string") (PStr v) =
  let self1 :=
    {| config :=
         dict_set (config self) k (lit "string", PStr (remove_char dquote v));
       configured := configured self |} in
  ((self1, fst (save self1 w)), snd (save self1 w)).
Proof.
  unfold set.
  change (existsb (str_eqb (lit "string")) var_types) with true.
  change (str_eqb (lit "string") (lit "string")) with true.
  cbv iota. simpl negb. cbv iota. simpl replace_val. cbv beta iota zeta.
  now destruct (save _ w).
Qed.

(** What [remove_char] keeps, said with the functions of the library. *)
Lemma remove_char_filter (c : ascii) (s : str) :
  remove_char c s = filter (fun x => negb (Ascii.eqb x c)) s.
Proof.
  unfold remove_char. apply filter_ext. intros x. unfold char_eqb.
  now rewrite Ascii.eqb_sym.
Qed.

Lemma join_comma_separated (l : list str) :
  join (lit ",") l = comma_separated l.
Proof.
  destruct l as [|o rest]; [reflexivity|]. revert o.
  induction rest as [|x rest IH]; intros o.
  - cbn [join comma_separated map List.concat]. now rewrite app_nil_r.
  - change (join (lit ",") (o :: x :: rest))
      with (o ++ lit "," ++ join (lit ",") (x :: rest)).
    rewrite IH. reflexivity.
Qed.

(** The two lines that [save] writes, character for character. *)
Lemma file_text_settings (options : list str) :
  file_text options = settings_text options.
Proof.
  unfold file_text, settings_text. rewrite join_comma_separated.
  reflexivity.
Qed.

(** A text that [save] gives to an entry is its key, an equals sign and
    the text of its value. *)
Lemma option_text_shape (k : pykey) (val : entry) (o : str) :
  option_text k val = inr o ->
  exists text, value_text val = inr text
               /\ o = key_text k ++ "="%char :: text.
Proof.
  destruct val as [tag v]. unfold option_text, value_text.
  change (str_of_key k) with (key_text k).
  repeat (match goal with
          | |- context [if ?b then _ else _] => destruct b
          end; try (intros [= <-]; eexists; split; reflexivity)).
  destruct (join_val (lit ",") v) as [e|items]; cbn [bind];
    [discriminate|].
  intros [= <-]. eexists; split; reflexivity.
Qed.

(** What a successful [save] has written. *)
Lemma save_written (self : t) (w w' : fs) :
  save self w = (w', inr tt) ->
  exists options,
    file w' = Some (settings_text options)
    /\ Forall2 (fun kv o =>
                  exists text, value_text (snd kv) = inr text
                               /\ o = key_text (fst kv) ++ "="%char :: text)
               (config self) options.
Proof.
  intros S. apply save_ok in S. destruct S as (options & F & _ & A).
  exists options. rewrite <- file_text_settings. split; [exact F|].
  eapply Forall2_impl; [|exact A].
  intros kv o H. now apply option_text_shape.
Qed.

(** C10. [set(key, 'string', v)] stores [v] without its double quotes:
    the stored value is [v] with the characters of code 34 filtered out,
    every other character kept in its place; it contains no double
    quote, [get] returns it, and when [save] succeeds the file is the
    section line and the option line, and among the options, which are
    separated by commas, is [key="..."] with that value between the
    quotes. *)
Theorem C10_set_string_drops_quotes (self : t) (w : fs) (k : pykey)
    (v : str) :
  let v' := filter (fun c => negb (Ascii.eqb c "034")) v in
  let '((self', w'), r) := set self w k (lit "string") (PStr v) in
  config self' = dict_set (config self) k (lit "string", PStr v')
  /\ get self' k PNone = PStr v'
  /\ ~ In "034"%char v'
  /\ match r with
     | inr _ =>
         exists options,
           file w' = Some (settings_text options)
           /\ In (key_text k ++ "="%char :: "034"%char :: v' ++ ["034"%char])
                 options
     | inl _ => w' = w
     end.
Proof.
  intros v'. rewrite set_string_eq. cbv zeta.
  rewrite (remove_char_filter dquote v).
  change (filter (fun x => negb (Ascii.eqb x dquote)) v) with v'.
  set (self1 := {| config := dict_set (config self) k (lit "string", PStr v');
                   configured := configured self |}).
  split; [reflexivity|]. split.
  { unfold get. simpl. now rewrite dict_get_set_same. }
  split.
  { unfold v'. intros H. apply filter_In in H. destruct H as [_ H].
    now rewrite Ascii.eqb_refl in H. }
  destruct (save self1 w) as [w1 r] eqn:S. simpl.
  destruct r as [e|[]].
  - revert S. unfold save.
    destruct (save_options (config self1) []); congruence.
  - apply save_written in S. destruct S as (options & F & A).
    exists options. split; [exact F|].
    assert (I : In (k, (lit "string", PStr v')) (config self1)).
    { simpl. apply dict_get_In. apply dict_get_set_same. }
    destruct (Forall2_In_l _ _ _ _ A I) as (o & Io & text & T & ->).
    cbn [fst snd] in *. injection T as <-. exact Io.
Qed.

(** ** C6: the order of the keys *)

(** What a successful call of [set] has done. *)
Lemma set_inv (self self' : t) (w w' : fs) (k : pykey) (var_type : str)
    (val : pyval) :
  set self w k var_type val = ((self', w'), inr tt) ->
  exists val1,
    In var_type var_types
    /\ (if str_eqb var_type (lit "string") then replace_val dquote val
        else inr val) = inr val1
    /\ self' = {| config := dict_set (config self) k (var_type, val1);
                  configured := configured self |}
    /\ save self' w = (w', inr tt).
Proof.
  unfold set.
  destruct (existsb (str_eqb var_type) var_types) eqn:E;
    cbv [negb]; cbv iota; [|discriminate].
  apply var_types_spec in E.
  destruct (if str_eqb var_type (lit "string") then replace_val dquote val
            else inr val) as [e|val1] eqn:R; [discriminate|].
  destruct (save _ w) as [w1 r] eqn:S.
  intros [= <- <- ->]. exists val1. auto.
Qed.

(** C6. A successful [set] keeps the order of the keys: an existing key
    keeps its place, a new key goes last, every other entry is untouched.
    [save] then writes the section line and the option line; the options
    are separated by commas, there is one for each entry, in the order of
    the store, and each is the key of its entry, an equals sign and the
    text of its value. *)
Theorem C6_order_preserved (self self' : t) (w w' : fs) (k : pykey)
    (var_type : str) (val : pyval) :
  set self w k var_type val = ((self', w'), inr tt) ->
  dict_keys (config self') =
    (if existsb (key_eqb k) (dict_keys (config self))
     then dict_keys (config self)
     else dict_keys (config self) ++ [k])
  /\ (forall k', k <> k' ->
        dict_get (config self') k' = dict_get (config self) k')
  /\ exists options,
       file w' = Some (settings_text options)
       /\ Forall2 (fun kv o =>
                     exists text,
                       value_text (snd kv) = inr text
                       /\ o = key_text (fst kv) ++ "="%char :: text)
                  (config self') options.
Proof.
  intros H. apply set_inv in H. destruct H as (val1 & _ & _ & -> & S).
  simpl config.
  split; [apply dict_set_keys|].
  split; [intros k' N; now apply dict_get_set_other|].
  exact (save_written _ _ _ S).
Qed.

Lemma C6_order_preserved_witness :
  let self :=
    {| config := [(Some (lit "A"), (lit "int", PInt 1));
                  (Some (lit "B"), (lit "bool", PBool true))];
       configured := true |} in
  let w := {| file := None; default := None |} in
  exists self' w',
    set self w (Some (lit "B")) (lit "int") (PInt 7) = ((self', w'), inr tt)
    /\ dict_keys (config self') = [Some (lit "A"); Some (lit "B")]
    /\ file w'
       = Some (lit "[/Script/Pal.PalGameWorldSettings]" ++ "010"%char
                 :: lit "OptionSettings=(A=1,B=7)" ++ ["010"%char]).
Proof.
  eexists; eexists.
  assert (E : set {| config := [(Some (lit "A"), (lit "int", PInt 1));
                               (Some (lit "B"), (lit "bool", PBool true))];
                     configured := true |}
                  {| file := None; default := None |}
                  (Some (lit "B")) (lit "int") (PInt 7)
              = (({| config := [(Some (lit "A"), (lit "int", PInt 1));
                                (Some (lit "B"), (lit "int", PInt 7))];
                     configured := true |},
                  {| file := Some (file_text [lit "A=1"; lit "B=7"]);
                     default := None |}), inr tt)) by reflexivity.
  split; [exact E|].
  destruct (C6_order_preserved _ _ _ _ _ _ _ E) as (K & _ & _).
  split; [exact K | reflexivity].
Defined.

(** ** Stripping *)

Section Strip.
Variable p : ascii -> bool.

Lemma dropwhile_app_keep (a : str) (c : ascii) :
  p c = false -> dropwhile p (a ++ [c]) = dropwhile p a ++ [c].
Proof.
  intros H. induction a as [|x a IH]; simpl.
  - now rewrite H.
  - destruct (p x); auto.
Qed.

Lemma dropwhile_nil (s : str) : dropwhile p s = [] <-> forallb p s = true.
Proof.
  induction s as [|c s IH]; simpl; [tauto|].
  destruct (p c); simpl; [exact IH | split; discriminate].
Qed.

Lemma dropwhile_head (s : str) :
  match dropwhile p s with [] => True | c :: _ => p c = false end.
Proof.
  induction s as [|c s IH]; simpl; auto.
  destruct (p c) eqn:E; auto.
Qed.

Lemma dropwhile_forallb (f : ascii -> bool) (s : str) :
  forallb f s = true -> forallb f (dropwhile p s) = true.
Proof.
  induction s as [|c s IH]; simpl; auto.
  intros H. apply andb_true_iff in H. destruct H as [H1 H2].
  destruct (p c); simpl; auto. now rewrite H1, H2.
Qed.

Lemma forallb_rev (f : ascii -> bool) (s : str) :
  forallb f (rev s) = forallb f s.
Proof.
  induction s as [|c s IH]; simpl; auto.
  rewrite forallb_app, IH. simpl. rewrite andb_true_r. apply andb_comm.
Qed.

Lemma strip_by_forallb (f : ascii -> bool) (s : str) :
  forallb f s = true -> forallb f (strip_by p s) = true.
Proof.
  intros H. unfold strip_by, rstrip_by, lstrip_by.
  rewrite forallb_rev. apply dropwhile_forallb. rewrite forallb_rev.
  now apply dropwhile_forallb.
Qed.

(** A text that neither begins nor ends with a stripped character is
    left as it is. *)
Lemma strip_by_ends (c d : ascii) (s : str) :
  p c = false -> p d = false -> strip_by p (c :: s ++ [d]) = c :: s ++ [d].
Proof.
  intros Hc Hd. unfold strip_by, rstrip_by, lstrip_by. simpl. rewrite Hc.
  change (c :: s ++ [d]) with ((c :: s) ++ [d]).
  rewrite rev_app_distr. simpl. rewrite Hd. simpl.
  rewrite rev_app_distr, rev_involutive. reflexivity.
Qed.

Lemma strip_by_single (c : ascii) : p c = false -> strip_by p [c] = [c].
Proof.
  intros Hc. unfold strip_by, rstrip_by, lstrip_by. simpl. rewrite Hc.
  simpl. now rewrite Hc.
Qed.

Lemma strip_by_nil : strip_by p [] = [].
Proof. reflexivity. Qed.

Lemma strip_by_none (s : str) :
  forallb (fun c => negb (p c)) s = true -> strip_by p s = s.
Proof.
  intros H. destruct s as [|c s]; auto.
  destruct (exists_last (l := c :: s)) as (s' & d & E); [discriminate|].
  assert (Hd : p d = false).
  { rewrite E in H. rewrite forallb_app in H. simpl in H.
    apply andb_true_iff in H. destruct H as [_ H].
    now destruct (p d). }
  simpl in H. apply andb_true_iff in H. destruct H as [Hc _].
  apply negb_true_iff in Hc.
  destruct s' as [|c' s'].
  - simpl in E. injection E as -> ->. now apply strip_by_single.
  - simpl in E. injection E as <- ->. now apply strip_by_ends.
Qed.

Lemma rstrip_by_cons (c : ascii) (t : str) :
  p c = false -> rstrip_by p (c :: t) = c :: rstrip_by p t.
Proof.
  intros H. unfold rstrip_by. simpl. rewrite dropwhile_app_keep by exact H.
  rewrite rev_app_distr. reflexivity.
Qed.

(** The result of stripping neither begins nor ends with a stripped
    character. *)
Lemma strip_by_shape (s : str) :
  strip_by p s = []
  \/ (exists c, strip_by p s = [c] /\ p c = false)
  \/ (exists c m d,
        strip_by p s = c :: m ++ [d] /\ p c = false /\ p d = false).
Proof.
  unfold strip_by, lstrip_by.
  pose proof (dropwhile_head s) as H1.
  destruct (dropwhile p s) as [|c t]; [left; reflexivity|].
  right. rewrite rstrip_by_cons by exact H1.
  destruct (rstrip_by p t) as [|x w] eqn:E.
  - left. exists c. auto.
  - right. destruct (exists_last (l := x :: w)) as (m & d & E');
      [discriminate|].
    exists c, m, d. rewrite E'. repeat split; auto.
    pose proof (dropwhile_head (rev t)) as H2.
    unfold rstrip_by in E. rewrite E' in E.
    apply (f_equal (@rev ascii)) in E.
    rewrite rev_involutive, rev_app_distr in E. simpl in E.
    now rewrite E in H2.
Qed.

Lemma strip_by_idem (s : str) : strip_by p (strip_by p s) = strip_by p s.
Proof.
  destruct (strip_by_shape s) as [E|[(c & E & H)|(c & m & d & E & H1 & H2)]];
    rewrite E.
  - reflexivity.
  - now apply strip_by_single.
  - now apply strip_by_ends.
Qed.

Lemma strip_by_nonempty (s : str) :
  existsb (fun c => negb (p c)) s = true -> strip_by p s <> [].
Proof.
  intros H. unfold strip_by, lstrip_by.
  assert (N : dropwhile p s <> []).
  { intros E. apply dropwhile_nil in E.
    apply existsb_exists in H. destruct H as (c & I & H).
    rewrite forallb_forall in E. rewrite (E c I) in H. discriminate. }
  pose proof (dropwhile_head s) as H1.
  destruct (dropwhile p s) as [|c t]; [congruence|].
  rewrite rstrip_by_cons by exact H1. discriminate.
Qed.

End Strip.

Lemma forallb_impl {A} (f g : A -> bool) (l : list A) :
  (forall a, f a = true -> g a = true) ->
  forallb f l = true -> forallb g l = true.
Proof.
  intros H. rewrite !forallb_forall. auto.
Qed.

Ltac char_cases c :=
  destruct c as [[] [] [] [] [] [] [] []]; vm_compute in *;
  try reflexivity; try discriminate; try congruence.

(** ** The scanner on well-formed text *)

Lemma plain_not_special (s : str) :
  plain s = true -> forallb (fun c => negb (special c)) s = true.
Proof.
  apply forallb_impl. intros c H. apply andb_true_iff in H. tauto.
Qed.

Lemma lexer_step_other (b : str) (vs : dict str) (g : option ascii)
    (k : pykey) (c : ascii) :
  special c = false ->
  lexer_step (mkLexer b vs false g k) c = mkLexer (b ++ [c]) vs false g k.
Proof.
  unfold special, lexer_step. simpl. rewrite !andb_true_r. intros H.
  apply orb_false_iff in H. destruct H as [H H4].
  apply orb_false_iff in H. destruct H as [H H3].
  apply orb_false_iff in H. destruct H as [H1 H2].
  rewrite H1, H2, H3, H4. now destruct (is_group g c).
Qed.

Lemma lexer_run_other (s b : str) (vs : dict str) (g : option ascii)
    (k : pykey) :
  forallb (fun c => negb (special c)) s = true ->
  fold_left lexer_step s (mkLexer b vs false g k)
  = mkLexer (b ++ s) vs false g k.
Proof.
  revert b. induction s as [|c s IH]; intros b H; simpl.
  - now rewrite app_nil_r.
  - simpl in H. apply andb_true_iff in H. destruct H as [Hc Hs].
    apply negb_true_iff in Hc. rewrite lexer_step_other by exact Hc.
    rewrite IH by exact Hs. now rewrite <- app_assoc.
Qed.

Lemma lexer_step_inside (b : str) (vs : dict str) (d : ascii) (k : pykey)
    (c : ascii) :
  lexer_step (mkLexer b vs true (Some d) k) c
  = mkLexer (b ++ [c]) vs (negb (char_eqb c d)) (Some d) k.
Proof.
  unfold lexer_step. simpl. rewrite !andb_false_r.
  now destruct (char_eqb c d).
Qed.

Lemma lexer_run_inside (s b : str) (vs : dict str) (d : ascii) (k : pykey) :
  forallb (fun c => negb (char_eqb c d)) s = true ->
  fold_left lexer_step s (mkLexer b vs true (Some d) k)
  = mkLexer (b ++ s) vs true (Some d) k.
Proof.
  revert b. induction s as [|c s IH]; intros b H; simpl.
  - now rewrite app_nil_r.
  - simpl in H. apply andb_true_iff in H. destruct H as [Hc Hs].
    rewrite lexer_step_inside, Hc, IH by exact Hs. now rewrite <- app_assoc.
Qed.

Lemma lexer_step_open_quote (b : str) (vs : dict str) (g : option ascii)
    (k : pykey) :
  lexer_step (mkLexer b vs false g k) dquote
  = mkLexer (b ++ [dquote]) vs true (Some dquote) k.
Proof. reflexivity. Qed.

Lemma lexer_step_open_paren (b : str) (vs : dict str) (g : option ascii)
    (k : pykey) :
  lexer_step (mkLexer b vs false g k) "("%char
  = mkLexer (b ++ ["("%char]) vs true (Some ")"%char) k.
Proof. reflexivity. Qed.

(** A value of one of the three forms is scanned into the buffer and
    leaves the scanner outside any group. *)
Lemma lexer_run_value (v b : str) (vs : dict str) (g : option ascii)
    (k : pykey) :
  value_form v ->
  exists g', fold_left lexer_step v (mkLexer b vs false g k)
             = mkLexer (b ++ v) vs false g' k.
Proof.
  intros [v' H|s H|s H].
  - exists g. apply lexer_run_other. now apply plain_not_special.
  - exists (Some dquote). unfold quoted. simpl fold_left.
    rewrite lexer_step_open_quote, fold_left_app.
    rewrite lexer_run_inside.
    + simpl. rewrite lexer_step_inside, char_eqb_refl. simpl.
      now rewrite <- !app_assoc.
    + revert H. apply forallb_impl. intros c H.
      apply andb_true_iff in H. tauto.
  - exists (Some ")"%char). simpl fold_left.
    rewrite lexer_step_open_paren, fold_left_app.
    rewrite lexer_run_inside.
    + simpl. rewrite lexer_step_inside, char_eqb_refl. simpl.
      now rewrite <- !app_assoc.
    + revert H. apply forallb_impl. intros c H.
      apply andb_true_iff in H. tauto.
Qed.

(** One item [Key=Value], scanned from an empty buffer. *)
Lemma lexer_run_item (it : str * str) (vs : dict str) (g : option ascii)
    (k : pykey) :
  item_ok it ->
  exists g', fold_left lexer_step (item_text it) (mkLexer [] vs false g k)
             = mkLexer (snd it) vs false g' (Some (strip (fst it))).
Proof.
  intros [Hk Hv]. unfold item_text. rewrite fold_left_app.
  rewrite lexer_run_other by now apply plain_not_special.
  simpl. unfold lexer_step at 2. simpl.
  apply (lexer_run_value _ [] vs g (Some (strip (fst it))) Hv).
Qed.

Lemma lexer_run_items (items : list (str * str)) (vs : dict str)
    (g : option ascii) (k : pykey) :
  Forall item_ok items ->
  lexer_finish
    (fold_left lexer_step (join (lit ",") (map item_text items))
               (mkLexer [] vs false g k))
  = match items with
    | [] => lexer_finish (mkLexer [] vs false g k)
    | _ => lex_items items vs
    end.
Proof.
  intros F. revert vs g k.
  induction F as [|it items H F IH]; intros vs g k; [reflexivity|].
  destruct items as [|it' items'].
  - simpl join. destruct (lexer_run_item it vs g k H) as (g' & ->).
    reflexivity.
  - change (join (lit ",") (map item_text (it :: it' :: items')))
      with (item_text it ++ lit "," ++ join (lit ",") (map item_text (it' :: items'))).
    rewrite !fold_left_app.
    destruct (lexer_run_item it vs g k H) as (g' & ->).
    simpl fold_left at 2. unfold lexer_step at 2. simpl.
    rewrite IH. reflexivity.
Qed.

(** The dictionary of raw values of a well-formed options string. *)
Lemma lex_well_formed (items : list (str * str)) :
  Forall item_ok items ->
  lex (join (lit ",") (map item_text items)) = lex_items items [].
Proof.
  intros F. unfold lex, lexer_run, lexer_init.
  rewrite lexer_run_items by exact F. now destruct items.
Qed.

(** ** Decimal digits *)

Lemma digit_char_spec (d : Z) :
  (0 <= d < 10)%Z ->
  isdecimal (digit_char d) = true /\ digit_val (digit_char d) = d.
Proof.
  intros H.
  assert (E : (d = 0 \/ d = 1 \/ d = 2 \/ d = 3 \/ d = 4 \/ d = 5
               \/ d = 6 \/ d = 7 \/ d = 8 \/ d = 9)%Z) by lia.
  repeat (destruct E as [->|E]; [split; reflexivity|]).
  subst; split; reflexivity.
Qed.

Lemma digits_value_app (a b : str) :
  digits_value (a ++ b)
  = fold_left (fun acc c => (acc * 10 + digit_val c)%Z) b (digits_value a).
Proof. unfold digits_value. apply fold_left_app. Qed.

Lemma digits_fuel_decimal (f : nat) (n : Z) :
  (0 <= n)%Z -> forallb isdecimal (digits_fuel f n) = true.
Proof.
  revert n. induction f as [|f IH]; intros n H; simpl; auto.
  destruct (n <? 10)%Z eqn:E.
  - simpl. apply Z.ltb_lt in E.
    now rewrite (proj1 (digit_char_spec n (conj H E))).
  - rewrite forallb_app, IH by (apply Z.div_pos; lia). simpl.
    now rewrite (proj1 (digit_char_spec (n mod 10)
                          (Z.mod_pos_bound n 10 eq_refl))).
Qed.

Lemma digits_fuel_value (f : nat) (n : Z) :
  (0 <= n < 2 ^ Z.of_nat f)%Z -> digits_value (digits_fuel f n) = n.
Proof.
  revert n. induction f as [|f IH]; intros n H.
  - simpl in *. change (2 ^ 0)%Z with 1%Z in H.
    assert (n = 0%Z) by lia. now subst.
  - simpl digits_fuel. destruct (n <? 10)%Z eqn:E.
    + apply Z.ltb_lt in E. unfold digits_value. simpl.
      apply (digit_char_spec n). lia.
    + apply Z.ltb_ge in E. rewrite digits_value_app. simpl.
      rewrite IH.
      * rewrite (proj2 (digit_char_spec (n mod 10)
                          (Z.mod_pos_bound n 10 eq_refl))).
        pose proof (Z.div_mod n 10). lia.
      * rewrite Nat2Z.inj_succ, Z.pow_succ_r in H by lia.
        split; [apply Z.div_pos; lia|].
        apply Z.div_lt_upper_bound; lia.
Qed.

Lemma digits_of_decimal (n : Z) :
  (0 <= n)%Z -> forallb isdecimal (digits_of n) = true.
Proof. apply digits_fuel_decimal. Qed.

Lemma digits_of_nonempty (n : Z) : digits_of n <> [].
Proof.
  unfold digits_of. simpl. destruct (n <? 10)%Z; [discriminate|].
  intros E. apply app_eq_nil in E. destruct E; discriminate.
Qed.

Lemma digits_of_value (n : Z) : (0 <= n)%Z -> digits_value (digits_of n) = n.
Proof.
  intros H. apply digits_fuel_value. split; auto.
  rewrite Nat2Z.inj_succ, Z2Nat.id by apply Z.log2_nonneg.
  destruct (Z.eq_dec n 0) as [->|N]; [reflexivity|].
  apply Z.log2_spec. lia.
Qed.

(** ** Facts about single characters *)

Lemma isdecimal_props (c : ascii) :
  isdecimal c = true ->
  isdigit_char c = true /\ isspace c = false /\ c_isspace c = false
  /\ special c = false /\ linebreak c = false /\ lower_char c = c
  /\ (code c <? 127)%N = true
  /\ char_eqb c "-" = false /\ char_eqb c "+" = false
  /\ char_eqb c "t" = false /\ char_eqb c "f" = false
  /\ char_eqb c "_" = false /\ char_eqb c "." = false.
Proof.
  char_cases c; repeat split.
Qed.

Lemma dec_digits_all (s : str) (prev : bool) (acc : Z) :
  forallb isdecimal s = true -> s <> [] ->
  dec_digits s prev acc
  = Some (fold_left (fun a c => (a * 10 + digit_val c)%Z) s acc).
Proof.
  revert prev acc. induction s as [|c s IH]; intros prev acc H N;
    [congruence|].
  simpl in H. apply andb_true_iff in H. destruct H as [Hc Hs].
  simpl. rewrite Hc. destruct s as [|c' s'].
  - reflexivity.
  - apply IH; [exact Hs | discriminate].
Qed.

Lemma forallb_decimal_not (f : ascii -> bool) (s : str) :
  (forall c, isdecimal c = true -> f c = false) ->
  forallb isdecimal s = true ->
  forallb (fun c => negb (f c)) s = true.
Proof.
  intros H. apply forallb_impl. intros c Hc. now rewrite (H c Hc).
Qed.

Lemma number_text_decimal (s : str) :
  forallb isdecimal s = true -> number_text s = s.
Proof.
  intros H. unfold number_text.
  assert (E : to_ascii_number s = s).
  { unfold to_ascii_number. rewrite <- (map_id s) at 2.
    apply map_ext_in. intros c I.
    rewrite forallb_forall in H. specialize (H c I).
    apply isdecimal_props in H. now rewrite (proj1 (proj2 (proj2 (proj2 (proj2 (proj2 (proj2 H))))))). }
  rewrite E. apply strip_by_none.
  apply forallb_decimal_not; auto. intros c Hc. now apply isdecimal_props.
Qed.

(** [int] reads a text of decimal digits as its decimal value. *)
Lemma int_of_str_decimal (s : str) :
  s <> [] -> forallb isdecimal s = true ->
  int_of_str s = inr (digits_value s).
Proof.
  intros N H. unfold int_of_str. rewrite number_text_decimal by exact H.
  destruct s as [|c s]; [congruence|].
  assert (Hc : isdecimal c = true).
  { simpl in H. now apply andb_true_iff in H. }
  apply isdecimal_props in Hc.
  destruct Hc as (_ & _ & _ & _ & _ & _ & _ & Hm & Hp & _).
  unfold split_sign. rewrite Hm, Hp.
  now rewrite dec_digits_all by (auto; discriminate).
Qed.

Lemma isdigit_decimal (s : str) :
  s <> [] -> forallb isdecimal s = true -> isdigit s = true.
Proof.
  intros N H. destruct s as [|c s]; [congruence|].
  unfold isdigit. revert H. apply forallb_impl.
  intros a Ha. now apply isdecimal_props.
Qed.

Lemma lower_decimal (s : str) :
  forallb isdecimal s = true -> lower s = s.
Proof.
  intros H. unfold lower. rewrite <- (map_id s) at 2.
  apply map_ext_in. intros c I. rewrite forallb_forall in H.
  now apply isdecimal_props, H.
Qed.

(** A non-empty text of decimal digits classifies as an integer, with
    its decimal value. *)
Lemma classify_decimal (s : str) :
  s <> [] -> forallb isdecimal s = true ->
  classify s = inr (lit "int", PInt (digits_value s)).
Proof.
  intros N H. unfold classify.
  rewrite lower_decimal by exact H.
  destruct s as [|c s]; [congruence|].
  assert (Hc : isdecimal c = true).
  { simpl in H. now apply andb_true_iff in H. }
  apply isdecimal_props in Hc.
  destruct Hc as (_ & _ & _ & _ & _ & _ & _ & _ & _ & Ht & Hf & _).
  change (lit "true") with ("t"%char :: lit "rue").
  change (lit "false") with ("f"%char :: lit "alse").
  cbn [str_eqb]. rewrite Ht, Hf. cbn [andb].
  rewrite isdigit_decimal by (auto; discriminate).
  rewrite int_of_str_decimal by (auto; discriminate).
  reflexivity.
Qed.

(** ** The classification loop *)

Lemma NoDup_app_cons {A} (l1 l2 : list A) (a : A) :
  NoDup (l1 ++ a :: l2) <-> NoDup ((l1 ++ [a]) ++ l2).
Proof. now rewrite <- app_assoc. Qed.

Lemma NoDup_app_l {A} (l1 l2 : list A) : NoDup (l1 ++ l2) -> NoDup l1.
Proof.
  induction l1 as [|a l1 IH]; simpl; intros H; [constructor|].
  inversion H; subst. constructor; auto.
  intros I. apply H2. apply in_or_app. auto.
Qed.

Lemma NoDup_app_notin {A} (l1 l2 : list A) (a : A) :
  NoDup (l1 ++ a :: l2) -> ~ In a l1.
Proof.
  intros H I. apply NoDup_remove_2 in H. apply H. apply in_or_app. auto.
Qed.

(** When the loop ends without an exception, the store holds the
    classification of every raw value, under the same keys in the same
    order. *)
Lemma classify_all_inv (vals : dict str) (acc cfg : dict entry) :
  classify_all vals acc = (cfg, inr tt) ->
  NoDup (dict_keys acc ++ dict_keys vals) ->
  exists ens,
    cfg = acc ++ ens
    /\ Forall2 (fun kr ke => fst kr = fst ke /\ classify (snd kr) = inr (snd ke))
               vals ens.
Proof.
  revert acc. induction vals as [|[k v] vals IH]; intros acc; simpl.
  - intros [= <-] _. exists []. rewrite app_nil_r. auto.
  - destruct (classify v) as [e|en] eqn:C; [discriminate|].
    intros H ND.
    assert (A : dict_set acc k en = acc ++ [(k, en)]).
    { apply dict_set_absent. eapply NoDup_app_notin; eauto. }
    rewrite A in H. apply IH in H.
    + destruct H as (ens & -> & F). exists ((k, en) :: ens).
      rewrite <- app_assoc. split; auto.
    + unfold dict_keys in *. rewrite map_app. simpl.
      now apply NoDup_app_cons.
Qed.

Lemma classify_all_ok (vals : dict str) (acc ens : dict entry) :
  Forall2 (fun kr ke => fst kr = fst ke /\ classify (snd kr) = inr (snd ke))
          vals ens ->
  NoDup (dict_keys acc ++ dict_keys vals) ->
  classify_all vals acc = (acc ++ ens, inr tt).
Proof.
  intros F. revert acc.
  induction F as [|[k v] [k' en] vals ens [E C] F IH]; intros acc ND; simpl.
  - now rewrite app_nil_r.
  - simpl in E, C. subst k'. rewrite C.
    rewrite dict_set_absent by (eapply NoDup_app_notin; eauto).
    rewrite IH.
    + now rewrite <- app_assoc.
    + unfold dict_keys in *. rewrite map_app. simpl.
      now apply NoDup_app_cons.
Qed.

Lemma int_of_str_exn (s : str) (e : exn) :
  int_of_str s = inl e -> e = ValueError.
Proof.
  unfold int_of_str. destruct (split_sign (number_text s)) as [neg body].
  destruct (dec_digits body false 0); congruence.
Qed.

Lemma float_of_str_exn (s : str) (e : exn) :
  float_of_str s = inl e -> e = ValueError.
Proof.
  unfold float_of_str. destruct (drop_underscores s "000"); [|congruence].
  destruct (split_sign (number_text s0)) as [neg body].
  destruct (_ || _); [discriminate|].
  destruct (str_eqb _ _); [discriminate|].
  destruct (float_decimal neg body); congruence.
Qed.

(** The classifier raises nothing but [IndexError], on the empty text,
    and [ValueError], from [int] and [float]. *)
Lemma classify_exn (val : str) (e : exn) :
  classify val = inl e ->
  (e = IndexError /\ val = []) \/ e = ValueError.
Proof.
  unfold classify.
  destruct (str_eqb (lower val) (lit "true")); [discriminate|].
  destruct (str_eqb (lower val) (lit "false")); [discriminate|].
  destruct (isdigit val).
  - destruct (int_of_str val) as [e'|n] eqn:E; simpl; [|discriminate].
    intros [= <-]. right. eapply int_of_str_exn; eauto.
  - destruct val as [|c s]; cbn [index0 bind].
    + intros [= <-]. auto.
    + destruct (char_eqb c dquote); [discriminate|].
      destruct (char_eqb c "("); [discriminate|].
      destruct (contains "." (c :: s)); [|discriminate].
      destruct (float_of_str (c :: s)) as [e'|x] eqn:E; simpl; [|discriminate].
      intros [= <-]. right. eapply float_of_str_exn; eauto.
Qed.

Lemma classify_all_exn (vals : dict str) (acc cfg : dict entry) (e : exn) :
  classify_all vals acc = (cfg, inl e) -> e = IndexError \/ e = ValueError.
Proof.
  revert acc. induction vals as [|[k v] vals IH]; intros acc; simpl.
  - discriminate.
  - destruct (classify v) as [e'|en] eqn:C.
    + intros [= _ <-]. apply classify_exn in C. tauto.
    + apply IH.
Qed.

(** An empty raw value anywhere in [values] makes the loop raise. *)
Lemma classify_all_empty (vals : dict str) (acc : dict entry) (k : pykey) :
  In (k, []) vals ->
  exists cfg e, classify_all vals acc = (cfg, inl e).
Proof.
  revert acc. induction vals as [|[k' v] vals IH]; intros acc; simpl;
    [tauto|].
  intros [[= -> ->]|I].
  - exists acc, IndexError. reflexivity.
  - destruct (classify v) as [e|en]; [eauto|]. now apply IH.
Qed.

(** ** Invariants of the scanning loop *)

Lemma fold_left_invariant {A B} (P : A -> Prop) (f : A -> B -> A)
    (l : list B) (a : A) :
  (forall a b, P a -> P (f a b)) -> P a -> P (fold_left f l a).
Proof.
  intros H. revert a. induction l as [|b l IH]; simpl; auto.
Qed.

Lemma lexer_step_cases (st : lexer) (c : ascii) :
  (in_group st = false /\ c = "="%char
   /\ lexer_step st c
      = mkLexer [] (values st) false (group st) (Some (strip (buffer st))))
  \/ (in_group st = false /\ c = ","%char
      /\ lexer_step st c
         = mkLexer [] (dict_set (values st) (key st) (strip (buffer st)))
                   false (group st) (key st))
  \/ (in_group st = false /\ (c = dquote \/ c = "("%char)
      /\ exists g, lexer_step st c
                   = mkLexer (buffer st ++ [c]) (values st) true g (key st))
  \/ (exists b, lexer_step st c
                = mkLexer (buffer st ++ [c]) (values st) b (group st) (key st)
                /\ (b = true -> in_group st = true)).
Proof.
  unfold lexer_step.
  destruct (in_group st) eqn:G; simpl; rewrite ?andb_false_r, ?andb_true_r.
  - right; right; right. destruct (is_group (group st) c); eauto.
  - destruct (char_eqb_spec c "=") as [->|N1]; [left; auto|].
    destruct (char_eqb_spec c ",") as [->|N2]; [right; left; auto|].
    destruct (char_eqb_spec c dquote) as [->|N3];
      [right; right; left; eauto|].
    destruct (char_eqb_spec c "(") as [->|N4];
      [right; right; left; eauto|].
    right; right; right. destruct (is_group (group st) c); eauto.
Qed.

(** The keys of [values] stay distinct. *)
Lemma lexer_run_NoDup (options : str) :
  NoDup (dict_keys (values (lexer_run options))).
Proof.
  unfold lexer_run.
  apply (fold_left_invariant (fun st => NoDup (dict_keys (values st)))).
  - intros st c H.
    destruct (lexer_step_cases st c)
      as [(_ & _ & ->)|[(_ & _ & ->)|[(_ & _ & g & ->)|(b & -> & _)]]];
      simpl; auto.
    now apply dict_set_NoDup.
  - constructor.
Qed.

Lemma lex_NoDup (options : str) : NoDup (dict_keys (lex options)).
Proof.
  unfold lex, lexer_finish. pose proof (lexer_run_NoDup options).
  destruct (key (lexer_run options)); auto. now apply dict_set_NoDup.
Qed.

(** Inside a group the buffer holds at least the opening delimiter, which
    is not white space. *)
Lemma lexer_run_in_group (options : str) :
  in_group (lexer_run options) = true ->
  existsb (fun c => negb (isspace c)) (buffer (lexer_run options)) = true.
Proof.
  unfold lexer_run.
  apply (fold_left_invariant
           (fun st => in_group st = true ->
                      existsb (fun c => negb (isspace c)) (buffer st) = true)).
  - intros st c H.
    destruct (lexer_step_cases st c)
      as [(_ & _ & ->)|[(_ & _ & ->)|[(_ & E & g & ->)|(b & -> & Hb)]]];
      simpl; try discriminate.
    + intros _. rewrite existsb_app. simpl.
      destruct E as [->| ->]; simpl; now rewrite orb_true_r.
    + intros ->. rewrite existsb_app, H by auto. reflexivity.
  - discriminate.
Qed.

(** The store of a successful parse holds, for every key of [values],
    the classification of its raw value. *)
Lemma parse_ok_get (self self' : t) (options : str) (k : pykey) (raw : str) :
  _parse_options self options = (self', inr tt) ->
  dict_get (lex options) k = Some raw ->
  exists en, classify raw = inr en /\ dict_get (config self') k = Some en.
Proof.
  unfold _parse_options.
  destruct (classify_all (lex options) []) as [cfg r] eqn:C.
  intros [= <- ->] G. simpl.
  apply classify_all_inv in C; [|apply lex_NoDup].
  destruct C as (ens & -> & F). simpl.
  apply dict_get_In in G.
  destruct (Forall2_In_l _ _ _ _ F G) as ([k' en] & I & E & Cl).
  simpl in E, Cl. subst k'. exists en. split; auto.
  apply dict_In_get; auto.
  assert (K : dict_keys ens = dict_keys (lex options)).
  { clear -F. induction F as [|x y l l' [E _] F IH]; simpl; auto.
    now rewrite IH, E. }
  rewrite K. apply lex_NoDup.
Qed.

(** ** C7: integers, and a leading minus sign *)

(** C7 as stated fails on the raw value [-1.5]: it is not a boolean text,
    it begins with a minus sign, and it classifies as a float, not as a
    literal. *)
Lemma C7_counterexample :
  let val := lit "-1.5" in
  str_eqb (lower val) (lit "true") = false
  /\ str_eqb (lower val) (lit "false") = false
  /\ hd_error val = Some "-"%char
  /\ classify val
     = inr (lit "float", PFloat (FFin true 6755399441055744 (-52)))
  /\ classify val <> inr (lit "literal", PStr val).
Proof.
  vm_compute. repeat split. discriminate.
Qed.

(** C7 (amended). A non-empty raw value made of decimal digits only, at
    most 4300 of them (the number of digits that [int] accepts by
    default), classifies as Int, with its decimal value; a raw value that
    begins with a minus sign and contains no point classifies as Literal,
    unchanged. *)
Theorem C7_int_or_literal (val : str) :
  (val <> [] -> forallb isdecimal val = true ->
   (len val <= 4300)%Z ->
   classify val = inr (lit "int", PInt (digits_value val)))
  /\ (hd_error val = Some "-"%char -> contains "." val = false ->
      classify val = inr (lit "literal", PStr val)).
Proof.
  split; [intros N D _; now apply classify_decimal|].
  intros H D. destruct val as [|c s]; [discriminate|].
  injection H as ->. unfold classify.
  change (str_eqb (lower ("-"%char :: s)) (lit "true")) with false.
  change (str_eqb (lower ("-"%char :: s)) (lit "false")) with false.
  change (isdigit ("-"%char :: s)) with false.
  cbn [index0 bind]. change (char_eqb "-" dquote) with false.
  change (char_eqb "-" "(") with false. cbv iota.
  now rewrite D.
Qed.

Lemma C7_int_or_literal_witness :
  classify (lit "42") = inr (lit "int", PInt 42)
  /\ classify (lit "-5") = inr (lit "literal", PStr (lit "-5")).
Proof.
  split.
  - apply (proj1 (C7_int_or_literal (lit "42"))).
    + discriminate.
    + reflexivity.
    + unfold len. simpl. lia.
  - apply (proj2 (C7_int_or_literal (lit "-5"))).
    + reflexivity.
    + reflexivity.
Defined.

(** ** C8: values with a point *)

(** C8 as stated fails on the raw value [a.b]: none of the first four
    rules applies, it contains a point, and the classification raises
    [ValueError] instead of giving a value. *)
Lemma C8_counterexample :
  let val := lit "a.b" in
  str_eqb (lower val) (lit "true") = false
  /\ str_eqb (lower val) (lit "false") = false
  /\ isdigit val = false
  /\ hd_error val = Some "a"%char
  /\ contains "." val = true
  /\ classify val = inl ValueError.
Proof.
  vm_compute. repeat split.
Qed.

Lemma float_rule_applies (val : str) (x : pyfloat) :
  str_eqb (lower val) (lit "true") = false ->
  str_eqb (lower val) (lit "false") = false ->
  isdigit val = false ->
  hd_error val <> Some dquote ->
  hd_error val <> Some "("%char ->
  contains "." val = true ->
  float_of_str val = inr x ->
  classify val = inr (lit "float", PFloat x).
Proof.
  intros H1 H2 H3 H4 H5 H6 H7. unfold classify.
  rewrite H1, H2, H3. destruct val as [|c s]; [discriminate|].
  cbn [index0 bind].
  destruct (char_eqb_spec c dquote) as [->|_]; [now elim H4|].
  destruct (char_eqb_spec c "(") as [->|_]; [now elim H5|].
  now rewrite H6, H7.
Qed.

(** ** C9: empty raw values *)

(** C9 as stated fails on [K=,K=1]: the scanner commits the pair of [K]
    and the empty text at the first comma, the second item overwrites
    it, and parsing produces a store. *)
Lemma C9_counterexample :
  let options := lit "K=,K=1" in
  commits_empty options
  /\ _parse_options fresh options
     = ({| config := [(Some (lit "K"), (lit "int", PInt 1))];
           configured := false |}, inr tt).
Proof.
  split; [|reflexivity].
  left. exists (lit "K="), (lit "K=1"). repeat split.
Qed.

(** C9 (amended). When the dictionary of raw values that the scanner
    hands to the classification loop holds an empty raw value, parsing
    raises an exception, [IndexError] or [ValueError], and ends without
    returning. *)
Theorem C9_empty_value_raises (self : t) (options : str) (k : pykey) :
  In (k, []) (lex options) ->
  exists self' e,
    _parse_options self options = (self', inl e)
    /\ (e = IndexError \/ e = ValueError).
Proof.
  intros I. unfold _parse_options.
  destruct (classify_all_empty (lex options) [] k I) as (cfg & e & E).
  rewrite E. eexists; exists e. split; [reflexivity|].
  eapply classify_all_exn; eauto.
Qed.

Lemma C9_empty_value_raises_witness :
  In (Some (lit "K"), []) (lex (lit "K=1,"))
  /\ exists self' e,
       _parse_options fresh (lit "K=1,") = (self', inl e)
       /\ (e = IndexError \/ e = ValueError).
Proof.
  assert (I : In (Some (lit "K"), []) (lex (lit "K=1,")))
    by (left; reflexivity).
  split; [exact I|].
  apply (C9_empty_value_raises fresh (lit "K=1,") (Some (lit "K")) I).
Defined.

(** The two inputs named by the claim raise [IndexError]. *)
Lemma C9_examples :
  _parse_options fresh (lit "K=") = (fresh, inl IndexError)
  /\ _parse_options fresh (lit "K=1,") = (fresh, inl IndexError).
Proof. split; reflexivity. Qed.

(** ** C2: a delimiter that is never closed *)

(** C2 as stated fails on the input made of [K=], a double quote and the
    word [unterminated]: the input ends inside the quote, no error is
    raised, and the store holds the text after the quote as a string. *)
Lemma C2_counterexample :
  let options := lit "K=" ++ dquote :: lit "unterminated" in
  in_group (lexer_run options) = true
  /\ _parse_options fresh options
     = ({| config :=
             [(Some (lit "K"), (lit "string", PStr (lit "unterminated")))];
           configured := false |}, inr tt).
Proof. split; reflexivity. Qed.

(** C2 (amended). When the input ends inside an open quote or
    parenthesis and a key was captured, the scanner raises nothing: the
    text buffered since the last separator, which is not empty, is
    committed, stripped, as the raw value of that key; and when parsing
    succeeds the store maps the key to the classification of this
    text. *)
Theorem C2_unterminated_is_committed (self : t) (options : str)
    (k : str) :
  in_group (lexer_run options) = true ->
  key (lexer_run options) = Some k ->
  let raw := strip (buffer (lexer_run options)) in
  raw <> []
  /\ dict_get (lex options) (Some k) = Some raw
  /\ forall self',
       _parse_options self options = (self', inr tt) ->
       exists en,
         classify raw = inr en
         /\ dict_get (config self') (Some k) = Some en.
Proof.
  intros G K raw.
  assert (L : dict_get (lex options) (Some k) = Some raw).
  { unfold lex, lexer_finish. rewrite K. apply dict_get_set_same. }
  split; [|split; [exact L|]].
  - apply strip_by_nonempty. now apply lexer_run_in_group.
  - intros self' P. eapply parse_ok_get; eauto.
Qed.

Lemma C2_unterminated_is_committed_witness :
  let options := lit "K=(a,b" in
  in_group (lexer_run options) = true
  /\ key (lexer_run options) = Some (lit "K")
  /\ dict_get (lex options) (Some (lit "K")) = Some (lit "(a,b").
Proof.
  assert (G : in_group (lexer_run (lit "K=(a,b")) = true) by reflexivity.
  assert (K : key (lexer_run (lit "K=(a,b")) = Some (lit "K")) by reflexivity.
  split; [exact G|]. split; [exact K|].
  exact (proj1 (proj2 (C2_unterminated_is_committed
                         fresh (lit "K=(a,b") (lit "K") G K))).
Defined.

(** ** Stable stores are written and read back unchanged *)

Lemma option_text_value (k : pykey) (val : entry) :
  option_text k val
  = (v <- value_text val ;; ret (str_of_key k ++ "="%char :: v)).
Proof.
  destruct val as [tag v]. unfold option_text, value_text.
  repeat (match goal with
          | |- context [if ?b then _ else _] => destruct b
          end; try reflexivity).
  destruct (join_val (lit ",") v); reflexivity.
Qed.

Lemma stable_items (cfg : dict entry) :
  Forall (fun kv => stable (fst kv) (snd kv)) cfg ->
  exists items, Forall item_ok items /\ Forall2 written_as cfg items.
Proof.
  induction 1 as [|[k val] cfg H F IH].
  - exists []. split; constructor.
  - destruct IH as (items & I & W).
    destruct H as (ks & v & E & P & S1 & T & VF & S2 & C). simpl in *.
    exists ((ks, v) :: items). split; constructor; auto.
    + split; auto.
    + repeat split; auto.
Qed.

Lemma written_keys (cfg : dict entry) (items : list (str * str)) :
  Forall2 written_as cfg items ->
  dict_keys cfg = map (fun it => Some (fst it)) items.
Proof.
  induction 1 as [|kv it cfg items (E & _) F IH]; simpl; auto.
  now rewrite E, IH.
Qed.

Lemma written_options (cfg : dict entry) (items : list (str * str)) :
  Forall2 written_as cfg items ->
  save_options cfg [] = inr (map item_text items).
Proof.
  intros F. apply save_options_spec. exists (map item_text items).
  split; auto. induction F as [|[k val] [ks v] cfg items W F IH];
    simpl; constructor; auto.
  destruct W as (E & _ & _ & T & _). simpl in *. subst k.
  rewrite option_text_value, T. reflexivity.
Qed.

Lemma lex_items_fresh (items : list (str * str)) (acc : dict str) :
  Forall (fun it => strip (fst it) = fst it /\ strip (snd it) = snd it) items ->
  NoDup (dict_keys acc ++ map (fun it => Some (fst it)) items) ->
  lex_items items acc = acc ++ map (fun it => (Some (fst it), snd it)) items.
Proof.
  intros F. revert acc. induction F as [|[ks v] items [S1 S2] F IH];
    intros acc ND; simpl in *.
  - now rewrite app_nil_r.
  - unfold lex_items in *. simpl. rewrite S1, S2.
    rewrite dict_set_absent by (eapply NoDup_app_notin; eauto).
    rewrite IH.
    + now rewrite <- app_assoc.
    + unfold dict_keys in *. rewrite map_app. simpl.
      now apply NoDup_app_cons.
Qed.

(** Parsing the items written for a stable store gives the store back. *)
Lemma parse_written (self : t) (cfg : dict entry)
    (items : list (str * str)) :
  NoDup (dict_keys cfg) ->
  Forall item_ok items ->
  Forall2 written_as cfg items ->
  _parse_options self (join (lit ",") (map item_text items))
  = ({| config := cfg; configured := configured self |}, inr tt).
Proof.
  intros ND I W. unfold _parse_options.
  rewrite lex_well_formed by exact I.
  rewrite lex_items_fresh.
  - rewrite (classify_all_ok _ [] cfg); [reflexivity| |].
    + clear -W. induction W as [|[k val] [ks v] cfg items H W IH];
        simpl; constructor; auto.
      destruct H as (E & _ & _ & _ & C). simpl in *. auto.
    + simpl. replace (dict_keys (map _ items)) with (dict_keys cfg); auto.
      unfold dict_keys at 2. rewrite map_map.
      exact (written_keys cfg items W).
  - clear -W. induction W as [|kv it cfg items H W IH]; constructor; auto.
    destruct H as (_ & S1 & S2 & _). auto.
  - simpl. now rewrite <- (written_keys cfg items W).
Qed.

(** ** The two lines of the file *)

Lemma universal_newlines_id (s : str) :
  forallb (fun c => negb (char_eqb c creturn)) s = true ->
  universal_newlines s = s.
Proof.
  induction s as [|c s IH]; simpl; auto.
  intros H. apply andb_true_iff in H. destruct H as [Hc Hs].
  apply negb_true_iff in Hc. rewrite Hc. now rewrite IH.
Qed.

Lemma lines_from_line (s cur rest : str) :
  forallb (fun c => negb (char_eqb c newline)) s = true ->
  lines_from cur (s ++ newline :: rest)
  = (cur ++ s ++ [newline]) :: lines_from [] rest.
Proof.
  revert cur. induction s as [|c s IH]; intros cur H; simpl.
  - reflexivity.
  - simpl in H. apply andb_true_iff in H. destruct H as [Hc Hs].
    apply negb_true_iff in Hc. rewrite Hc, IH by exact Hs.
    now rewrite <- app_assoc.
Qed.

Lemma linebreak_split (s : str) :
  forallb (fun c => negb (linebreak c)) s = true ->
  forallb (fun c => negb (char_eqb c newline)) s = true
  /\ forallb (fun c => negb (char_eqb c creturn)) s = true.
Proof.
  intros H. split; revert H; apply forallb_impl; intros c H;
    unfold linebreak in H; apply negb_true_iff in H;
    apply orb_false_iff in H; destruct H as [H1 H2];
    now rewrite ?H1, ?H2.
Qed.

(** The file that [save] writes has two lines when the options hold no
    line break. *)
Lemma readlines_file_text (options : list str) :
  forallb (fun c => negb (linebreak c)) (join (lit ",") options) = true ->
  readlines (file_text options)
  = [ ("["%char :: header ++ ["]"%char]) ++ [newline];
      ((option_key ++ lit "=(") ++ join (lit ",") options ++ [")"%char])
        ++ [newline] ].
Proof.
  intros H. set (body := join (lit ",") options) in *.
  assert (E : file_text options
              = ("["%char :: header ++ ["]"%char]) ++ newline
                  :: ((option_key ++ lit "=(") ++ body ++ [")"%char])
                  ++ newline :: []).
  { unfold file_text. fold body.
    change (lit "=(") with ["="%char; "("%char].
    generalize header option_key. intros h o.
    repeat (rewrite <- ?app_assoc; rewrite <- ?app_comm_cons; cbn [app]).
    reflexivity. }
  assert (L : forallb (fun c => negb (linebreak c))
                ((option_key ++ lit "=(") ++ body ++ [")"%char]) = true).
  { rewrite !forallb_app, H. reflexivity. }
  apply linebreak_split in L. destruct L as [L1 L2].
  unfold readlines. rewrite universal_newlines_id.
  - rewrite E. rewrite lines_from_line by reflexivity.
    rewrite lines_from_line by exact L1. reflexivity.
  - rewrite E. rewrite forallb_app. simpl forallb at 1.
    cbn [forallb]. rewrite forallb_app. rewrite L2. reflexivity.
Qed.

Lemma startswith_app (p s : str) : startswith p (p ++ s) = true.
Proof.
  induction p as [|c p IH]; simpl; [now destruct s|].
  now rewrite char_eqb_refl.
Qed.

Lemma strip_line (c d : ascii) (m : str) :
  isspace c = false -> isspace d = false ->
  strip ((c :: m ++ [d]) ++ [newline]) = c :: m ++ [d].
Proof.
  intros Hc Hd. unfold strip, strip_by, lstrip_by.
  replace ((c :: m ++ [d]) ++ [newline]) with (c :: m ++ [d; newline])
    by (simpl; now rewrite <- app_assoc).
  cbn [dropwhile]. rewrite Hc. rewrite rstrip_by_cons by exact Hc.
  f_equal. unfold rstrip_by. rewrite rev_app_distr. cbn [rev app dropwhile].
  change (isspace newline) with true. cbv iota. rewrite Hd.
  cbn [rev]. now rewrite rev_involutive.
Qed.

Lemma startswith_option_line (body : str) :
  startswith option_key
    (((option_key ++ lit "=(") ++ body ++ [")"%char]) ++ [newline]) = true.
Proof. rewrite <- !app_assoc. apply startswith_app. Qed.

(** From the options line to the text between the parentheses. *)
Lemma options_of_line_written (body : str) :
  options_of_line (((option_key ++ lit "=(") ++ body ++ [")"%char])
                     ++ [newline])
  = body.
Proof.
  unfold options_of_line.
  change ((option_key ++ lit "=(") ++ body ++ [")"%char])
    with ("O"%char :: (lit "ptionSettings=(" ++ body) ++ [")"%char]).
  rewrite strip_line by reflexivity.
  unfold slice_n_m1. simpl skipn. apply removelast_last.
Qed.

Lemma written_no_linebreak (items : list (str * str)) :
  Forall item_ok items ->
  forallb (fun c => negb (linebreak c))
          (join (lit ",") (map item_text items)) = true.
Proof.
  assert (P : forall s, plain s = true ->
                        forallb (fun c => negb (linebreak c)) s = true).
  { intros s. apply forallb_impl. intros c H.
    apply andb_true_iff in H. tauto. }
  assert (V : forall v, value_form v ->
                        forallb (fun c => negb (linebreak c)) v = true).
  { intros v [v' H|s H|s H].
    - now apply P.
    - unfold quoted. simpl. rewrite forallb_app. simpl. rewrite andb_true_r.
      revert H. apply forallb_impl. intros c H.
      apply andb_true_iff in H. tauto.
    - simpl. rewrite forallb_app. simpl. rewrite andb_true_r.
      revert H. apply forallb_impl. intros c H.
      apply andb_true_iff in H. tauto. }
  assert (I : forall it, item_ok it ->
                forallb (fun c => negb (linebreak c)) (item_text it) = true).
  { intros it [Hk Hv]. unfold item_text. rewrite forallb_app. simpl.
    now rewrite P, V. }
  induction 1 as [|it items H F IH]; [reflexivity|].
  destruct items as [|it' items'].
  - simpl. now apply I.
  - change (join (lit ",") (map item_text (it :: it' :: items')))
      with (item_text it ++ lit "," ++ join (lit ",") (map item_text (it' :: items'))).
    rewrite !forallb_app, I, IH by auto. reflexivity.
Qed.

(** Loading the file that [save] wrote for a stable store gives the
    store back, marked as configured. *)
Lemma stable_store_reload (self : t) (w : fs) :
  stable_store (config self) ->
  exists w',
    save self w = (w', inr tt)
    /\ default w' = default w
    /\ init w' = ({| config := config self; configured := true |}, inr tt).
Proof.
  intros [ND F]. destruct (stable_items _ F) as (items & I & W).
  unfold save. rewrite (written_options _ _ W).
  eexists. split; [reflexivity|]. split; [reflexivity|].
  unfold init, load. cbn [file default].
  rewrite readlines_file_text by now apply written_no_linebreak.
  cbn [load_lines].
  change (startswith option_key (("["%char :: header ++ ["]"%char]) ++ [newline]))
    with false. cbv iota.
  rewrite startswith_option_line, options_of_line_written.
  rewrite (parse_written _ (config self) items ND I W).
  reflexivity.
Qed.

(** ** The text of a float *)

Section RoundRatio.
Local Open Scope Z_scope.
Variables n d : Z.
Hypothesis Hn : 0 < n.
Hypothesis Hd : 0 < d.

Lemma scaled_pos (e : Z) :
  0 < fst (scaled n d e) /\ 0 < snd (scaled n d e).
Proof.
  unfold scaled. destruct (0 <=? e) eqn:E; simpl; split; auto.
  - apply Z.leb_le in E. apply Z.mul_pos_pos; auto.
    now apply Z.pow_pos_nonneg.
  - apply Z.leb_gt in E. apply Z.mul_pos_pos; auto.
    apply Z.pow_pos_nonneg; lia.
Qed.

(** Comparing the fraction with [K] is comparing [n * 2^(s-e)] with
    [K * d * 2^s], for any [s] above [0] and [e]. *)
Lemma scaled_le (e s K : Z) :
  0 <= s -> e <= s ->
  (K * snd (scaled n d e) <= fst (scaled n d e)
   <-> K * d * 2 ^ s <= n * 2 ^ (s - e)).
Proof.
  intros Hs He. unfold scaled. destruct (0 <=? e) eqn:E; simpl.
  - apply Z.leb_le in E.
    assert (P : 0 < 2 ^ (s - e)) by (apply Z.pow_pos_nonneg; lia).
    replace (2 ^ s) with (2 ^ e * 2 ^ (s - e))
      by (rewrite <- Z.pow_add_r by lia; f_equal; lia).
    rewrite (Z.mul_le_mono_pos_r _ _ _ P).
    replace (K * (d * 2 ^ e) * 2 ^ (s - e))
      with (K * d * (2 ^ e * 2 ^ (s - e))) by ring.
    reflexivity.
  - apply Z.leb_gt in E.
    assert (P : 0 < 2 ^ s) by (apply Z.pow_pos_nonneg; lia).
    replace (2 ^ (s - e)) with (2 ^ (- e) * 2 ^ s)
      by (rewrite <- Z.pow_add_r by lia; f_equal; lia).
    rewrite (Z.mul_le_mono_pos_r _ _ _ P).
    replace (n * 2 ^ (- e) * 2 ^ s) with (n * (2 ^ (- e) * 2 ^ s)) by ring.
    reflexivity.
Qed.

Lemma log2_bounds (x : Z) : 0 < x -> 2 ^ Z.log2 x <= x < 2 ^ (Z.log2 x + 1).
Proof.
  intros H. pose proof (Z.log2_spec x H) as L.
  now rewrite <- Z.add_1_r in L.
Qed.

Lemma scaled_upper (e j : Z) :
  0 <= j -> Z.log2 n + 1 <= j + Z.log2 d + e ->
  fst (scaled n d e) < 2 ^ j * snd (scaled n d e).
Proof.
  intros Hj H. apply Z.nle_gt. intros C.
  set (s := Z.max 0 e).
  apply (scaled_le e s (2 ^ j)) in C; [|lia|lia].
  pose proof (log2_bounds n Hn) as [_ Ln].
  pose proof (log2_bounds d Hd) as [Ld _].
  pose proof (Z.log2_nonneg n). pose proof (Z.log2_nonneg d).
  assert (P1 : 0 < 2 ^ (s - e)) by (apply Z.pow_pos_nonneg; lia).
  assert (P2 : 0 < 2 ^ s) by (apply Z.pow_pos_nonneg; lia).
  assert (P3 : 0 < 2 ^ j) by (apply Z.pow_pos_nonneg; lia).
  assert (A : n * 2 ^ (s - e) < 2 ^ (Z.log2 n + 1 + (s - e))).
  { rewrite Z.pow_add_r by lia. now apply Z.mul_lt_mono_pos_r. }
  assert (B : 2 ^ (j + Z.log2 d + s) <= 2 ^ j * d * 2 ^ s).
  { rewrite !Z.pow_add_r by lia.
    apply Z.mul_le_mono_nonneg_r; [lia|].
    apply Z.mul_le_mono_nonneg_l; lia. }
  assert (M : 2 ^ (Z.log2 n + 1 + (s - e)) <= 2 ^ (j + Z.log2 d + s))
    by (apply Z.pow_le_mono_r; lia).
  lia.
Qed.

Lemma scaled_lower (e j : Z) :
  0 <= j -> j + Z.log2 d + 1 + e <= Z.log2 n ->
  2 ^ j * snd (scaled n d e) <= fst (scaled n d e).
Proof.
  intros Hj H. set (s := Z.max 0 e).
  apply (scaled_le e s (2 ^ j)); [lia|lia|].
  pose proof (log2_bounds n Hn) as [Ln _].
  pose proof (log2_bounds d Hd) as [_ Ld].
  pose proof (Z.log2_nonneg n). pose proof (Z.log2_nonneg d).
  assert (P1 : 0 < 2 ^ (s - e)) by (apply Z.pow_pos_nonneg; lia).
  assert (P2 : 0 < 2 ^ s) by (apply Z.pow_pos_nonneg; lia).
  assert (P3 : 0 < 2 ^ j) by (apply Z.pow_pos_nonneg; lia).
  assert (A : 2 ^ (Z.log2 n + (s - e)) <= n * 2 ^ (s - e)).
  { rewrite Z.pow_add_r by lia. apply Z.mul_le_mono_nonneg_r; lia. }
  assert (B : 2 ^ j * d * 2 ^ s <= 2 ^ (j + (Z.log2 d + 1) + s)).
  { rewrite (Z.pow_add_r 2 (j + (Z.log2 d + 1)) s) by lia.
    rewrite (Z.pow_add_r 2 j (Z.log2 d + 1)) by lia.
    apply Z.mul_le_mono_nonneg_r; [lia|].
    apply Z.mul_le_mono_nonneg_l; lia. }
  assert (M : 2 ^ (j + (Z.log2 d + 1) + s) <= 2 ^ (Z.log2 n + (s - e)))
    by (apply Z.pow_le_mono_r; lia).
  lia.
Qed.

Lemma scaled_half (e : Z) :
  2 ^ 53 * snd (scaled n d e) <= fst (scaled n d e) ->
  2 ^ 52 * snd (scaled n d (e + 1)) <= fst (scaled n d (e + 1)).
Proof.
  intros H. set (s := Z.max 0 (e + 1)).
  apply (scaled_le e s (2 ^ 53)) in H; [|lia|lia].
  apply (scaled_le (e + 1) s (2 ^ 52)); [lia|lia|].
  replace (2 ^ (s - e)) with (2 * 2 ^ (s - (e + 1))) in H.
  - change (2 ^ 53) with (2 * 2 ^ 52) in H. lia.
  - rewrite <- Z.pow_succ_r by lia. f_equal. lia.
Qed.

(** The quotient at the chosen exponent has at most 53 bits, and exactly
    53 above the least exponent. *)
Lemma round_exponent_spec :
  let e0 := Z.max (-1074) (Z.log2 n - Z.log2 d - 53) in
  let e := if 2 ^ 53 <=? fst (scaled n d e0) / snd (scaled n d e0)
           then e0 + 1 else e0 in
  let q := fst (scaled n d e) / snd (scaled n d e) in
  -1074 <= e /\ 0 <= q < 2 ^ 53 /\ (-1074 < e -> 2 ^ 52 <= q).
Proof.
  intros e0 e q.
  assert (E0 : -1074 <= e0 /\ Z.log2 n - Z.log2 d - 53 <= e0) by (unfold e0; lia).
  assert (Q : forall x, 0 <= fst (scaled n d x) / snd (scaled n d x)).
  { intros x. destruct (scaled_pos x). apply Z.div_pos; lia. }
  assert (U : forall x j, 0 <= j -> Z.log2 n + 1 <= j + Z.log2 d + x ->
                fst (scaled n d x) / snd (scaled n d x) < 2 ^ j).
  { intros x j Hj H. destruct (scaled_pos x).
    apply Z.div_lt_upper_bound; [lia|].
    rewrite Z.mul_comm. now apply scaled_upper. }
  assert (L : forall x, 2 ^ 52 * snd (scaled n d x) <= fst (scaled n d x) ->
                2 ^ 52 <= fst (scaled n d x) / snd (scaled n d x)).
  { intros x H. destruct (scaled_pos x).
    apply Z.div_le_lower_bound; [lia|]. now rewrite Z.mul_comm. }
  unfold q, e.
  destruct (2 ^ 53 <=? fst (scaled n d e0) / snd (scaled n d e0)) eqn:T.
  - apply Z.leb_le in T. split; [lia|]. split; [split; [apply Q|]|].
    + apply U; lia.
    + intros _. apply L. apply scaled_half.
      destruct (scaled_pos e0) as [_ Pb].
      pose proof (Z.mul_div_le (fst (scaled n d e0)) _ Pb).
      nia.
  - apply Z.leb_gt in T. split; [lia|]. split; [split; [apply Q|exact T]|].
    intros G. apply L. apply scaled_lower; [lia|].
    assert (e0 = Z.log2 n - Z.log2 d - 53) by (unfold e0 in *; lia). lia.
Qed.

End RoundRatio.

(** [round_ratio] gives a value in the range of binary64. *)
Lemma round_ratio_binary64 (neg : bool) (n d : Z) :
  (0 <= n)%Z -> (0 < d)%Z -> binary64 (round_ratio neg n d).
Proof.
  intros Hn Hd. unfold round_ratio.
  destruct (n =? 0)%Z eqn:N.
  - simpl. repeat split; try lia; reflexivity.
  - apply Z.eqb_neq in N. assert (Hn' : (0 < n)%Z) by lia.
    pose proof (round_exponent_spec n d Hn' Hd) as S. cbv zeta in *.
    set (e := if (2 ^ 53 <=? _)%Z then _ else _) in *.
    set (q := (fst (scaled n d e) / snd (scaled n d e))%Z) in *.
    destruct S as (E & [Q0 Q1] & Q2).
    set (up := (_ || _)%bool).
    assert (M : (q <= (if up then q + 1 else q) <= 2 ^ 53)%Z)
      by (destruct up; lia).
    set (m := if up then (q + 1)%Z else q) in *.
    destruct (m =? 2 ^ 53)%Z eqn:T.
    + destruct (971 <? e + 1)%Z eqn:O; [exact I|].
      apply Z.ltb_ge in O. simpl. repeat split; try lia.
      all: try (change (2 ^ 52)%Z with 4503599627370496%Z;
                change (2 ^ 53)%Z with 9007199254740992%Z in *; lia).
    + apply Z.eqb_neq in T.
      destruct (971 <? e)%Z eqn:O; [exact I|].
      apply Z.ltb_ge in O. simpl. repeat split; lia.
Qed.

Lemma binary64_nonneg (x : pyfloat) : binary64 x -> float_nonneg x.
Proof. destruct x; simpl; auto. tauto. Qed.

Lemma round_decimal_binary64 (neg : bool) (c s : Z) :
  (0 <= c)%Z -> binary64 (round_decimal neg c s).
Proof.
  intros H. unfold round_decimal. destruct (0 <=? s)%Z eqn:E.
  - apply Z.leb_le in E. apply round_ratio_binary64; [|lia].
    apply Z.mul_nonneg_nonneg; auto. apply Z.pow_nonneg. lia.
  - apply Z.leb_gt in E. apply round_ratio_binary64; auto.
    apply Z.pow_pos_nonneg; lia.
Qed.

Lemma span_digits_decimal (s : str) :
  forallb isdecimal (fst (span_digits s)) = true.
Proof.
  induction s as [|c s IH]; simpl; auto.
  destruct (isdecimal c) eqn:E; simpl; auto.
  destruct (span_digits s) as [d r]. simpl in *. now rewrite E.
Qed.

Lemma digit_val_nonneg (c : ascii) : isdecimal c = true -> (0 <= digit_val c)%Z.
Proof.
  unfold isdecimal, digit_val. intros H. apply andb_true_iff in H.
  destruct H as [H _]. apply N.leb_le in H. lia.
Qed.

Lemma fold_digits_nonneg (s : str) (acc : Z) :
  forallb isdecimal s = true -> (0 <= acc)%Z ->
  (0 <= fold_left (fun a c => a * 10 + digit_val c) s acc)%Z.
Proof.
  revert acc. induction s as [|c s IH]; intros acc H Ha; simpl in *; auto.
  apply andb_true_iff in H. destruct H as [Hc Hs].
  apply IH; auto. pose proof (digit_val_nonneg c Hc). lia.
Qed.

Lemma digits_value_nonneg (s : str) :
  forallb isdecimal s = true -> (0 <= digits_value s)%Z.
Proof. intros H. apply fold_digits_nonneg; auto. lia. Qed.

Lemma float_decimal_binary64 (neg : bool) (s : str) (x : pyfloat) :
  float_decimal neg s = Some x -> binary64 x.
Proof.
  unfold float_decimal.
  pose proof (span_digits_decimal s) as Hi.
  destruct (span_digits s) as [ip r]. simpl in Hi.
  assert (G : forall fp r',
            forallb isdecimal fp = true ->
            match ip ++ fp with
            | [] => None
            | _ :: _ =>
                match float_exponent r' with
                | Some ex =>
                    Some (round_decimal neg (digits_value (ip ++ fp))
                                        (ex - Z.of_nat (List.length fp)))
                | None => None
                end
            end = Some x -> binary64 x).
  { intros fp r' Hf. assert (D : forallb isdecimal (ip ++ fp) = true)
      by (rewrite forallb_app, Hi, Hf; reflexivity).
    destruct (ip ++ fp) as [|c ds] eqn:E; [discriminate|].
    destruct (float_exponent r'); [|discriminate].
    intros [= <-]. apply round_decimal_binary64.
    now apply digits_value_nonneg. }
  destruct r as [|c t].
  - apply G. reflexivity.
  - destruct (char_eqb c ".").
    + pose proof (span_digits_decimal t) as Hf.
      destruct (span_digits t) as [fp r']. now apply G.
    + apply G. reflexivity.
Qed.

(** [float] gives a value in the range of binary64. *)
Lemma float_of_str_binary64 (s : str) (x : pyfloat) :
  float_of_str s = inr x -> binary64 x.
Proof.
  unfold float_of_str. destruct (drop_underscores s "000"); [|discriminate].
  destruct (split_sign (number_text s0)) as [neg body].
  destruct (_ || _); [intros [= <-]; exact I|].
  destruct (str_eqb _ _); [intros [= <-]; exact I|].
  destruct (float_decimal neg body) eqn:E; [|discriminate].
  intros [= <-]. eapply float_decimal_binary64; eauto.
Qed.

Lemma float_of_str_nonneg (s : str) (x : pyfloat) :
  float_of_str s = inr x -> float_nonneg x.
Proof. intros H. eapply binary64_nonneg, float_of_str_binary64; eauto. Qed.

Lemma shortest_from_nonneg (fuel : nat) (n : Z) (x : pyfloat) (D k L : Z) :
  (0 <= D)%Z -> (0 <= fst (shortest_from fuel n x D k L))%Z.
Proof.
  intros HD. revert n. induction fuel as [|f IH]; intros n;
    cbn [shortest_from]; destruct (L <=? n)%Z; simpl; auto.
  - assert (P : (0 <= 10 ^ (L - n))%Z) by (apply Z.pow_nonneg; lia).
    pose proof (Z_div_nonneg_nonneg _ _ HD P).
    repeat match goal with
           | |- context [if ?b then _ else _] => destruct b
           end; simpl; lia.
  - assert (P : (0 <= 10 ^ (L - n))%Z) by (apply Z.pow_nonneg; lia).
    pose proof (Z_div_nonneg_nonneg _ _ HD P).
    repeat match goal with
           | |- context [if ?b then _ else _] => destruct b
           end; simpl; auto; lia.
Qed.

Lemma shortest_nonneg (m e : Z) : (0 <= m)%Z -> (0 <= fst (shortest m e))%Z.
Proof.
  intros H. unfold shortest.
  destruct (exact_decimal m e) as [D k] eqn:E.
  apply shortest_from_nonneg.
  unfold exact_decimal in E. destruct (0 <=? e)%Z; injection E as <- <-;
    apply Z.mul_nonneg_nonneg; auto; apply Z.pow_nonneg; lia.
Qed.

Lemma float_char_decimal (s : str) :
  forallb isdecimal s = true -> forallb float_char s = true.
Proof.
  apply forallb_impl. intros c H. unfold float_char. now rewrite H.
Qed.

Lemma forallb_firstn {A} (f : A -> bool) (n : nat) (l : list A) :
  forallb f l = true -> forallb f (firstn n l) = true.
Proof.
  intros H. rewrite <- (firstn_skipn n l) in H. rewrite forallb_app in H.
  now apply andb_true_iff in H.
Qed.

Lemma forallb_skipn {A} (f : A -> bool) (n : nat) (l : list A) :
  forallb f l = true -> forallb f (skipn n l) = true.
Proof.
  intros H. rewrite <- (firstn_skipn n l) in H. rewrite forallb_app in H.
  now apply andb_true_iff in H.
Qed.

Lemma forallb_repeat {A} (f : A -> bool) (a : A) (n : nat) :
  f a = true -> forallb f (repeat a n) = true.
Proof. intros H. induction n; simpl; auto. now rewrite H. Qed.

Lemma exp_text_chars (x : Z) : forallb float_char (exp_text x) = true.
Proof.
  unfold exp_text.
  assert (D : forallb float_char (digits_of (Z.abs x)) = true)
    by (apply float_char_decimal, digits_of_decimal, Z.abs_nonneg).
  cbn [forallb]. rewrite andb_true_iff. split.
  - now destruct (x <? 0)%Z.
  - destruct (Nat.ltb _ 2); simpl; now rewrite ?D.
Qed.

Lemma float_format_chars (ds : str) (decpt : Z) :
  forallb float_char ds = true ->
  forallb float_char (float_format ds decpt) = true.
Proof.
  intros H. unfold float_format.
  destruct ((decpt <=? -4)%Z || (16 <? decpt)%Z).
  - destruct ds as [|d [|d' rest]]; auto.
    + simpl in *. apply andb_true_iff in H. destruct H as [-> _].
      simpl. apply exp_text_chars.
    + cbn [forallb] in *. apply andb_true_iff in H. destruct H as [-> H].
      rewrite forallb_app. cbn [forallb]. rewrite exp_text_chars. simpl.
      simpl in H. now rewrite H.
  - destruct (decpt <=? 0)%Z.
    + rewrite !forallb_app, H. unfold zeros.
      rewrite forallb_repeat by reflexivity. reflexivity.
    + destruct (Z.of_nat (List.length ds) <=? decpt)%Z.
      * rewrite !forallb_app, H. unfold zeros.
        rewrite forallb_repeat by reflexivity. reflexivity.
      * rewrite forallb_app. cbn [forallb].
        rewrite forallb_firstn, forallb_skipn by exact H. reflexivity.
Qed.

(** The text of a float is made of digits, a point, a sign, [e] and the
    letters of [inf] and [nan]. *)
Lemma repr_float_chars (x : pyfloat) :
  float_nonneg x -> forallb float_char (repr_float x) = true.
Proof.
  destruct x as [|neg|neg m e]; simpl.
  - reflexivity.
  - now destruct neg.
  - intros H.
    assert (B : forallb float_char
                  (if (m =? 0)%Z then lit "0.0"
                   else let '(c, s) := shortest m e in
                        float_format (strip_zeros (digits_of c))
                          (Z.of_nat (List.length (digits_of c)) + s)) = true).
    { destruct (m =? 0)%Z; [reflexivity|].
      pose proof (shortest_nonneg m e H) as N.
      destruct (shortest m e) as [c s]. simpl in N.
      apply float_format_chars. unfold strip_zeros, rstrip_by.
      rewrite forallb_rev. apply dropwhile_forallb. rewrite forallb_rev.
      now apply float_char_decimal, digits_of_decimal. }
    destruct neg; simpl; now rewrite ?B.
Qed.

Lemma float_char_props (c : ascii) :
  float_char c = true ->
  negb (special c) && negb (linebreak c) = true /\ negb (isspace c) = true.
Proof. char_cases c; split; reflexivity. Qed.

Lemma repr_float_plain (x : pyfloat) :
  float_nonneg x ->
  plain (repr_float x) = true /\ strip (repr_float x) = repr_float x.
Proof.
  intros H. apply repr_float_chars in H. split.
  - revert H. apply forallb_impl. intros c Hc. now apply float_char_props.
  - apply strip_by_none. revert H. apply forallb_impl.
    intros c Hc. now apply float_char_props.
Qed.

(** ** Quotes, parentheses, split and join *)

Lemma char_eqb_sym (a b : ascii) : char_eqb a b = char_eqb b a.
Proof.
  destruct (char_eqb_spec a b) as [->|N].
  - now rewrite char_eqb_refl.
  - destruct (char_eqb_spec b a); congruence.
Qed.

Lemma strip_quoted (s : str) : strip (quoted s) = quoted s.
Proof. unfold quoted, strip. now apply strip_by_ends. Qed.

Lemma strip_group (g : str) :
  strip ("("%char :: g ++ [")"%char]) = "("%char :: g ++ [")"%char].
Proof. unfold strip. now apply strip_by_ends. Qed.

Lemma dropwhile_none (p : ascii -> bool) (s : str) :
  forallb (fun c => negb (p c)) s = true -> dropwhile p s = s.
Proof.
  destruct s as [|c s]; simpl; auto.
  intros H. apply andb_true_iff in H. destruct H as [H _].
  apply negb_true_iff in H. now rewrite H.
Qed.

(** Stripping the quotes of a quoted text without inner quotes gives the
    text. *)
Lemma strip_char_quoted (s : str) :
  forallb (fun c => negb (char_eqb c dquote)) s = true ->
  strip_char dquote (quoted s) = s.
Proof.
  intros H.
  assert (H' : forallb (fun c => negb (char_eqb dquote c)) s = true).
  { revert H. apply forallb_impl. intros c. now rewrite char_eqb_sym. }
  unfold strip_char, strip_by, lstrip_by, quoted.
  cbn [dropwhile]. rewrite char_eqb_refl.
  destruct s as [|c s].
  - reflexivity.
  - cbn [forallb] in H'. apply andb_true_iff in H'. destruct H' as [Hc Hs].
    apply negb_true_iff in Hc. cbn [app dropwhile]. rewrite Hc.
    rewrite rstrip_by_cons by exact Hc. f_equal.
    unfold rstrip_by. rewrite rev_app_distr. cbn [rev app dropwhile].
    rewrite char_eqb_refl. rewrite dropwhile_none.
    + apply rev_involutive.
    + now rewrite forallb_rev.
Qed.

Lemma slice_group (g : str) :
  slice_1_m1 ("("%char :: g ++ [")"%char]) = g.
Proof. unfold slice_1_m1. simpl tl. apply removelast_last. Qed.

Lemma split_nonempty (c : ascii) (s : str) : split c s <> [].
Proof.
  destruct s as [|x s]; simpl; [discriminate|].
  destruct (char_eqb x c); [discriminate|].
  destruct (split c s); discriminate.
Qed.

Lemma join_cons (sep w : str) (ws : list str) :
  ws <> [] -> join sep (w :: ws) = w ++ sep ++ join sep ws.
Proof. destruct ws; [congruence|reflexivity]. Qed.

(** Joining what [split] gives restores the text. *)
Lemma join_split (c : ascii) (s : str) : join [c] (split c s) = s.
Proof.
  induction s as [|x s IH]; [reflexivity|].
  simpl split. pose proof (split_nonempty c s) as N.
  destruct (char_eqb_spec x c) as [->|Nx].
  - rewrite join_cons by exact N. simpl. now rewrite IH.
  - destruct (split c s) as [|w ws]; [congruence|].
    destruct ws as [|w' ws'].
    + simpl in *. now rewrite IH.
    + rewrite join_cons by discriminate.
      rewrite join_cons in IH by discriminate.
      simpl. now rewrite <- IH.
Qed.

(** Splitting what [join] gives restores a non-empty list whose elements
    hold no separator. *)
Lemma split_join (c : ascii) (l : list str) :
  l <> [] ->
  Forall (fun w => forallb (fun x => negb (char_eqb x c)) w = true) l ->
  split c (join [c] l) = l.
Proof.
  assert (S : forall w rest,
             forallb (fun x => negb (char_eqb x c)) w = true ->
             split c (w ++ c :: rest) = w :: split c rest).
  { induction w as [|x w IH]; intros rest H; simpl.
    - now rewrite char_eqb_refl.
    - simpl in H. apply andb_true_iff in H. destruct H as [Hx Hw].
      apply negb_true_iff in Hx. rewrite Hx, IH by exact Hw. reflexivity. }
  assert (S1 : forall w,
             forallb (fun x => negb (char_eqb x c)) w = true ->
             split c w = [w]).
  { induction w as [|x w IH]; intros H; simpl; auto.
    simpl in H. apply andb_true_iff in H. destruct H as [Hx Hw].
    apply negb_true_iff in Hx. rewrite Hx, IH by exact Hw. reflexivity. }
  intros N F. revert N. induction F as [|w l H F IH]; intros N;
    [now elim N|].
  destruct l as [|w' l'].
  - simpl. now apply S1.
  - rewrite join_cons by discriminate. cbn [app].
    rewrite S by exact H. rewrite IH by discriminate. reflexivity.
Qed.

Lemma plain_strip (s : str) : plain s = true -> plain (strip s) = true.
Proof. apply strip_by_forallb. Qed.

(** Stripping keeps the form of a value. *)
Lemma value_form_strip (v : str) : value_form v -> value_form (strip v).
Proof.
  intros [v' H|s H|g H].
  - apply vf_bare. now apply plain_strip.
  - rewrite strip_quoted. now apply vf_quoted.
  - rewrite strip_group. now apply vf_group.
Qed.

Lemma strip_idem (s : str) : strip (strip s) = strip s.
Proof. apply strip_by_idem. Qed.

(** The first character tells the form of a value. *)
Lemma value_form_head (v : str) :
  value_form v ->
  match v with
  | [] => True
  | c :: _ =>
      (c = dquote /\ exists s, v = quoted s
          /\ forallb (fun x => negb (char_eqb x dquote)) s = true)
      \/ (c = "("%char /\ exists g, v = "("%char :: g ++ [")"%char])
      \/ (c <> dquote /\ c <> "("%char /\ plain v = true)
  end.
Proof.
  intros [v' H|s H|g H].
  - destruct v' as [|c r]; auto. right; right.
    assert (Hc : special c = false).
    { simpl in H. apply andb_true_iff in H. destruct H as [Hc _].
      apply andb_true_iff in Hc. destruct Hc as [Hc _].
      now apply negb_true_iff in Hc. }
    repeat split; auto; intros ->; discriminate Hc.
  - left. split; auto. exists s. split; auto.
    revert H. apply forallb_impl. intros c H.
    apply andb_true_iff in H. tauto.
  - right; left. split; auto. exists g. reflexivity.
Qed.

(** ** What the classifier returns *)

Lemma classify_inv (val : str) (en : entry) :
  classify val = inr en ->
  en = (lit "bool", PBool true)
  \/ en = (lit "bool", PBool false)
  \/ (isdigit val = true
      /\ exists n, int_of_str val = inr n /\ en = (lit "int", PInt n))
  \/ (exists c s,
        val = c :: s
        /\ ((c = dquote /\ en = (lit "string", PStr (strip_char dquote val)))
            \/ (c = "("%char
                /\ en = (lit "group", PList (split "," (slice_1_m1 val))))
            \/ (c <> dquote /\ c <> "("%char
                /\ ((exists x, float_of_str val = inr x
                               /\ en = (lit "float", PFloat x))
                    \/ en = (lit "literal", PStr val))))).
Proof.
  unfold classify.
  destruct (str_eqb (lower val) (lit "true")); [intros [= <-]; auto|].
  destruct (str_eqb (lower val) (lit "false")); [intros [= <-]; auto|].
  destruct (isdigit val).
  - destruct (int_of_str val) as [e|n]; cbn [bind]; [discriminate|].
    intros [= <-]. right; right; left. eauto.
  - destruct val as [|c s]; cbn [index0 bind]; [discriminate|].
    intros H. right; right; right. exists c, s. split; auto.
    destruct (char_eqb_spec c dquote) as [->|N1];
      [injection H as <-; auto|].
    destruct (char_eqb_spec c "(") as [->|N2];
      [injection H as <-; auto|].
    right; right. repeat split; auto.
    destruct (contains "." (c :: s)).
    + destruct (float_of_str (c :: s)) as [e|x]; cbn [bind] in H;
        [discriminate|].
      injection H as <-. left. eauto.
    + injection H as <-. auto.
Qed.

Lemma dec_digits_nonneg (s : str) (prev : bool) (acc n : Z) :
  dec_digits s prev acc = Some n -> (0 <= acc)%Z -> (0 <= n)%Z.
Proof.
  revert prev acc. induction s as [|c s IH]; intros prev acc; simpl.
  - destruct prev; [intros [= <-]; auto | discriminate].
  - destruct (isdecimal c) eqn:D.
    + intros H A. eapply IH; eauto. pose proof (digit_val_nonneg c D). lia.
    + destruct (char_eqb c "_" && prev); [|discriminate].
      intros H A. eapply IH; eauto.
Qed.

Lemma isdigit_char_number (c : ascii) :
  isdigit_char c = true ->
  let c' := if (code c <? 127)%N then c
            else if isspace c then " "%char else "?"%char in
  c_isspace c' = false /\ char_eqb c' "-" = false /\ char_eqb c' "+" = false.
Proof. char_cases c; repeat split. Qed.

(** [int] gives no negative number on a text that [isdigit] accepts. *)
Lemma int_of_str_isdigit_nonneg (val : str) (n : Z) :
  isdigit val = true -> int_of_str val = inr n -> (0 <= n)%Z.
Proof.
  intros D. unfold int_of_str.
  assert (F : forallb isdigit_char val = true /\ val <> []).
  { destruct val; [discriminate|]. split; [exact D|discriminate]. }
  destruct F as [F N].
  assert (P : Forall (fun c' => c_isspace c' = false
                                /\ char_eqb c' "-" = false
                                /\ char_eqb c' "+" = false)
                     (to_ascii_number val)).
  { unfold to_ascii_number. apply Forall_map. apply Forall_forall.
    intros c I. rewrite forallb_forall in F.
    exact (isdigit_char_number c (F c I)). }
  assert (S : number_text val = to_ascii_number val).
  { unfold number_text. apply strip_by_none. apply forallb_forall.
    intros c I. rewrite Forall_forall in P.
    destruct (P c I) as (-> & _). reflexivity. }
  rewrite S.
  destruct (to_ascii_number val) as [|c r] eqn:E.
  - simpl. discriminate.
  - inversion P as [|? ? (_ & Hm & Hp) _]; subst.
    unfold split_sign. rewrite Hm, Hp.
    destruct (dec_digits (c :: r) false 0) eqn:DD; [|discriminate].
    intros [= <-]. eapply dec_digits_nonneg; eauto. lia.
Qed.

Lemma plain_decimal (s : str) :
  forallb isdecimal s = true -> plain s = true /\ strip s = s.
Proof.
  intros H. split.
  - revert H. apply forallb_impl. intros c Hc.
    apply isdecimal_props in Hc.
    destruct Hc as (_ & _ & _ & -> & -> & _). reflexivity.
  - apply strip_by_none. revert H. apply forallb_impl. intros c Hc.
    apply isdecimal_props in Hc.
    destruct Hc as (_ & -> & _). reflexivity.
Qed.

(** ** Entries that are stable *)

Lemma stable_bool (ks : str) (b : bool) :
  plain ks = true -> strip ks = ks ->
  stable (Some ks) (lit "bool", PBool b).
Proof.
  intros P S. exists ks, (if b then lit "True" else lit "False").
  repeat split; auto; destruct b; try reflexivity;
    apply vf_bare; reflexivity.
Qed.

Lemma stable_int (ks : str) (n : Z) :
  plain ks = true -> strip ks = ks -> (0 <= n)%Z ->
  stable (Some ks) (lit "int", PInt n).
Proof.
  intros P S N. exists ks, (digits_of n).
  pose proof (digits_of_decimal n N) as D.
  destruct (plain_decimal _ D) as [Pd Sd].
  assert (T : str_of_int n = digits_of n).
  { unfold str_of_int. destruct (n <? 0)%Z eqn:E; auto.
    apply Z.ltb_lt in E. lia. }
  repeat split; auto.
  - simpl. now rewrite T.
  - now apply vf_bare.
  - rewrite classify_decimal by (auto; apply digits_of_nonempty).
    now rewrite digits_of_value.
Qed.

Lemma stable_string (ks s : str) :
  plain ks = true -> strip ks = ks ->
  forallb (fun c => negb (char_eqb c dquote) && negb (linebreak c)) s = true ->
  stable (Some ks) (lit "string", PStr s).
Proof.
  intros P S H. exists ks, (quoted s). repeat split; auto.
  - now apply vf_quoted.
  - apply strip_quoted.
  - unfold classify, quoted.
    change (str_eqb (lower (dquote :: s ++ [dquote])) (lit "true")) with false.
    change (str_eqb (lower (dquote :: s ++ [dquote])) (lit "false")) with false.
    change (isdigit (dquote :: s ++ [dquote])) with false.
    cbn [index0 bind]. rewrite char_eqb_refl.
    fold (quoted s). rewrite strip_char_quoted; auto.
    revert H. apply forallb_impl. intros c Hc.
    apply andb_true_iff in Hc. tauto.
Qed.

Lemma stable_group (ks : str) (l : list str) :
  plain ks = true -> strip ks = ks -> l <> [] ->
  Forall (fun w =>
            forallb (fun c => negb (char_eqb c ",") && negb (char_eqb c ")")
                              && negb (linebreak c)) w = true) l ->
  stable (Some ks) (lit "group", PList l).
Proof.
  intros P S N F.
  exists ks, ("("%char :: join (lit ",") l ++ [")"%char]).
  assert (J : forallb (fun c => negb (char_eqb c ")") && negb (linebreak c))
                      (join (lit ",") l) = true).
  { clear N. induction F as [|w l H F IH]; [reflexivity|].
    assert (W : forallb (fun c => negb (char_eqb c ")") && negb (linebreak c))
                        w = true).
    { revert H. apply forallb_impl. intros c Hc.
      apply andb_true_iff in Hc. destruct Hc as [Hc ->].
      apply andb_true_iff in Hc. destruct Hc as [_ ->]. reflexivity. }
    destruct l as [|w' l']; [exact W|].
    rewrite join_cons by discriminate.
    rewrite !forallb_app, W, IH. reflexivity. }
  repeat split; auto.
  - now apply vf_group.
  - apply strip_group.
  - unfold classify.
    change (str_eqb (lower ("("%char :: join (lit ",") l ++ [")"%char]))
                    (lit "true")) with false.
    change (str_eqb (lower ("("%char :: join (lit ",") l ++ [")"%char]))
                    (lit "false")) with false.
    change (isdigit ("("%char :: join (lit ",") l ++ [")"%char])) with false.
    cbn [index0 bind]. change (char_eqb "(" dquote) with false.
    rewrite char_eqb_refl. cbv iota.
    rewrite slice_group. change (lit ",") with [","%char].
    rewrite split_join; auto.
    revert F. apply Forall_impl. intros w. apply forallb_impl.
    intros c Hc. apply andb_true_iff in Hc. destruct Hc as [Hc _].
    apply andb_true_iff in Hc. tauto.
Qed.

Lemma stable_literal (ks s : str) :
  plain ks = true -> strip ks = ks ->
  plain s = true -> strip s = s ->
  classify s = inr (lit "literal", PStr s) ->
  stable (Some ks) (lit "literal", PStr s).
Proof.
  intros P S Ps Ss C. exists ks, s. repeat split; auto. now apply vf_bare.
Qed.

Lemma stable_float (ks : str) (x : pyfloat) :
  plain ks = true -> strip ks = ks -> float_nonneg x -> float_stable x ->
  stable (Some ks) (lit "float", PFloat x).
Proof.
  intros P S N F. exists ks, (repr_float x).
  destruct (repr_float_plain x N) as [Pr Sr].
  repeat split; auto. now apply vf_bare.
Qed.

Lemma dict_set_Forall {V} (Q : pykey * V -> Prop) (d : dict V) (k : pykey)
    (v : V) :
  Forall Q d -> Q (k, v) -> Forall Q (dict_set d k v).
Proof.
  intros F H. induction F as [|[k' v'] d H' F IH]; simpl.
  - constructor; auto.
  - destruct (key_eqb k k') eqn:E.
    + apply key_eqb_eq in E. subst k'. constructor; auto.
    + constructor; auto.
Qed.

(** The classification of a stripped value of one of the three forms,
    under a stripped bare key, is a stable entry, provided a float has a
    text that classifies as the same float. *)
Lemma classified_stable (ks raw : str) (en : entry) :
  plain ks = true -> strip ks = ks ->
  value_form raw -> strip raw = raw ->
  classify raw = inr en ->
  (forall x, snd en = PFloat x -> float_stable x) ->
  stable (Some ks) en.
Proof.
  intros P S VF SR C FS.
  destruct (classify_inv raw en C)
    as [->|[->|[(D & n & I & ->)|(c & s & E & H)]]].
  - now apply stable_bool.
  - now apply stable_bool.
  - apply stable_int; auto. eapply int_of_str_isdigit_nonneg; eauto.
  - pose proof (value_form_head raw VF) as VH. rewrite E in VH.
    destruct H as [(-> & ->)|[(-> & ->)|(N1 & N2 & H)]].
    + destruct VH as [(_ & s0 & Q & Hs)|[(A & _)|(A & _)]];
        [|discriminate A|now elim A].
      exists ks, raw. rewrite <- E in *. repeat split; auto.
      rewrite Q at 1. rewrite strip_char_quoted by exact Hs.
      simpl. now rewrite Q.
    + destruct VH as [(A & _)|[(_ & g & Q)|(_ & A & _)]];
        [discriminate A| |now elim A].
      exists ks, raw. rewrite <- E in *. repeat split; auto.
      rewrite Q at 1. rewrite slice_group. simpl.
      change [","%char] with (lit ","). change (lit ",") with [","%char].
      rewrite join_split. now rewrite Q.
    + destruct H as [(x & F & ->)| ->].
      * apply stable_float;
          [assumption | assumption
          | eapply float_of_str_nonneg; eauto | apply FS; reflexivity].
      * exists ks, raw. rewrite <- E in *. repeat split; auto.
Qed.

(** Every pair that the scanner stores for well-formed items is a
    stripped key and a stripped value of one of the three forms. *)
Lemma lex_items_forms (items : list (str * str)) (acc : dict str) :
  Forall item_ok items ->
  Forall (fun kr => exists ks, fst kr = Some ks /\ plain ks = true
                               /\ strip ks = ks
                               /\ value_form (snd kr)
                               /\ strip (snd kr) = snd kr) acc ->
  Forall (fun kr => exists ks, fst kr = Some ks /\ plain ks = true
                               /\ strip ks = ks
                               /\ value_form (snd kr)
                               /\ strip (snd kr) = snd kr)
         (lex_items items acc).
Proof.
  intros F. revert acc. induction F as [|[kt vt] items [Hk Hv] F IH];
    intros acc A; [exact A|].
  unfold lex_items in *. simpl. apply IH. apply dict_set_Forall; auto.
  exists (strip kt). simpl in *. repeat split.
  - now apply plain_strip.
  - apply strip_idem.
  - now apply value_form_strip.
  - apply strip_idem.
Qed.

(** A well-formed options string whose floats are stable parses to a
    stable store. *)
Lemma parse_well_formed_stable (self self1 : t) (x : str) :
  well_formed x ->
  _parse_options self x = (self1, inr tt) ->
  floats_stable (config self1) ->
  stable_store (config self1).
Proof.
  intros (items & I & ->) P FS. unfold _parse_options in P.
  destruct (classify_all _ []) as [cfg r] eqn:C.
  injection P as <- ->. simpl in *.
  pose proof (lex_NoDup (join (lit ",") (map item_text items))) as ND.
  apply classify_all_inv in C; [|exact ND].
  destruct C as (ens & -> & F). simpl in *.
  rewrite lex_well_formed in * by exact I.
  pose proof (lex_items_forms items [] I (Forall_nil _)) as Q.
  split.
  - replace (dict_keys ens) with (dict_keys (lex_items items [])); auto.
    clear -F. induction F as [|a b l l' [E _] F IH]; simpl; auto.
    now rewrite IH, E.
  - clear ND. revert FS Q. induction F as [|kr ke l l' [E C] F IH];
      intros FS Q; constructor.
    + apply Forall_inv in Q. destruct Q as (ks & K & Pk & Sk & VF & SV).
      assert (K' : fst ke = Some ks) by (rewrite <- E; exact K).
      rewrite K'. eapply classified_stable; eauto.
      intros y Y. destruct ke as [k [tag v]]. simpl in Y. subst v.
      apply (FS k tag y). now left.
    + apply IH.
      * intros k tag y Y. apply (FS k tag y). now right.
      * now apply Forall_inv_tail in Q.
Qed.

(** ** C1: parse, save, reload *)

(** C1 as stated fails on [K=0.00001]: the value is read as the float
    1e-05, written as [1e-05], and read back as a literal, not as a
    float. *)
Lemma C1_counterexample :
  let x := lit "K=0.00001" in
  let w := {| file := None; default := None |} in
  well_formed x
  /\ exists self1 w',
       _parse_options fresh x = (self1, inr tt)
       /\ config self1
          = [(Some (lit "K"),
              (lit "float", PFloat (FFin false 5902958103587057 (-69))))]
       /\ save self1 w = (w', inr tt)
       /\ file w' = Some (file_text [lit "K=1e-05"])
       /\ init w'
          = ({| config :=
                  [(Some (lit "K"), (lit "literal", PStr (lit "1e-05")))];
                configured := true |}, inr tt).
Proof.
  split.
  - exists [(lit "K", lit "0.00001")]. split; [|reflexivity].
    constructor; [|constructor]. split; [reflexivity|].
    apply vf_bare. reflexivity.
  - eexists; eexists. split; [vm_compute; reflexivity|].
    split; [reflexivity|]. split; [vm_compute; reflexivity|].
    split; vm_compute; reflexivity.
Qed.

(** C1 (amended). For every well-formed options string whose parse
    succeeds and in which the text written for every float classifies as
    the same float again: saving the parsed store and loading the saved
    file, which strips the envelope and parses the line, gives exactly the
    parsed store, the same keys with the same tags and values in the same
    order. *)
Theorem C1_roundtrip (self self1 : t) (w : fs) (x : str) :
  well_formed x ->
  _parse_options self x = (self1, inr tt) ->
  floats_stable (config self1) ->
  exists w',
    save self1 w = (w', inr tt)
    /\ init w' = ({| config := config self1; configured := true |}, inr tt).
Proof.
  intros WF P FS.
  destruct (stable_store_reload self1 w
              (parse_well_formed_stable self self1 x WF P FS))
    as (w' & S & _ & L).
  exists w'. auto.
Qed.

Lemma C1_roundtrip_witness :
  let x := lit "A=True,B=42,C=" ++ quoted (lit "hi, there")
             ++ lit ",D=(1,2,3),E=1.5" in
  let cfg :=
    [(Some (lit "A"), (lit "bool", PBool true));
     (Some (lit "B"), (lit "int", PInt 42));
     (Some (lit "C"), (lit "string", PStr (lit "hi, there")));
     (Some (lit "D"), (lit "group", PList [lit "1"; lit "2"; lit "3"]));
     (Some (lit "E"),
      (lit "float", PFloat (FFin false 6755399441055744 (-52))))] in
  let w := {| file := None; default := None |} in
  well_formed x
  /\ _parse_options fresh x = ({| config := cfg; configured := false |}, inr tt)
  /\ floats_stable cfg
  /\ exists w',
       save {| config := cfg; configured := false |} w = (w', inr tt)
       /\ init w' = ({| config := cfg; configured := true |}, inr tt).
Proof.
  intros x cfg w.
  assert (WF : well_formed x).
  { exists [(lit "A", lit "True"); (lit "B", lit "42");
            (lit "C", quoted (lit "hi, there")); (lit "D", lit "(1,2,3)");
            (lit "E", lit "1.5")].
    split; [|reflexivity].
    repeat (apply Forall_cons; [split; [reflexivity|]|]);
      try apply Forall_nil; cbn [snd].
    - apply vf_bare; reflexivity.
    - apply vf_bare; reflexivity.
    - apply vf_quoted; reflexivity.
    - apply (vf_group (lit "1,2,3")); reflexivity.
    - apply vf_bare; reflexivity. }
  assert (P : _parse_options fresh x
              = ({| config := cfg; configured := false |}, inr tt))
    by (vm_compute; reflexivity).
  assert (FS : floats_stable cfg).
  { intros k tag y H. simpl in H.
    repeat (destruct H as [H|H]; [try discriminate H|]); try contradiction.
    injection H as _ _ <-. vm_compute. reflexivity. }
  split; [exact WF|]. split; [exact P|]. split; [exact FS|].
  exact (C1_roundtrip fresh {| config := cfg; configured := false |} w x
                      WF P FS).
Defined.

(** ** C3: set, then reload *)

Lemma remove_char_none (c : ascii) (s : str) :
  forallb (fun x => negb (char_eqb x c)) s = true -> remove_char c s = s.
Proof.
  induction s as [|x s IH]; simpl; auto.
  intros H. apply andb_true_iff in H. destruct H as [Hx Hs].
  rewrite char_eqb_sym, Hx. now rewrite IH.
Qed.

(** The tag of a stable entry is one of the six, and a stable string
    holds no double quote. *)
Lemma stable_tag (k : pykey) (var_type : str) (val : pyval) :
  stable k (var_type, val) ->
  In var_type var_types
  /\ (var_type = lit "string" -> replace_val dquote val = inr val).
Proof.
  intros (ks & v & _ & _ & _ & T & VF & _ & C).
  destruct (classify_inv v _ C)
    as [E|[E|[(_ & n & _ & E)|(c & s & Ev & H)]]].
  - injection E as -> ->. split; [simpl; auto|discriminate].
  - injection E as -> ->. split; [simpl; auto|discriminate].
  - injection E as -> ->. split; [simpl; auto 7|discriminate].
  - destruct H as [(-> & E)|[(-> & E)|(_ & _ & [(x & _ & E)|E])]];
      injection E as -> ->; (split; [simpl; auto 7|]); try discriminate.
    intros _. pose proof (value_form_head v VF) as VH. rewrite Ev in VH.
    destruct VH as [(_ & s0 & Q & Hs)|[(A & _)|(A & _)]];
      [|discriminate A|now elim A].
    rewrite Ev, Q, strip_char_quoted by exact Hs.
    simpl. now rewrite remove_char_none.
Qed.

(** C3 as stated fails for the string value made of [a], a double quote
    and [b]: [set] succeeds, and after a reload [get] returns [ab]. *)
Lemma C3_counterexample :
  let w := {| file := None; default := None |} in
  let v := lit "a" ++ dquote :: lit "b" in
  exists self' w' self'',
    set fresh w (Some (lit "K")) (lit "string") (PStr v)
    = ((self', w'), inr tt)
    /\ init w' = (self'', inr tt)
    /\ get self'' (Some (lit "K")) PNone = PStr (lit "ab")
    /\ get self'' (Some (lit "K")) PNone <> PStr v.
Proof.
  do 3 eexists. split; [vm_compute; reflexivity|].
  split; [vm_compute; reflexivity|].
  split; [reflexivity|]. vm_compute. discriminate.
Qed.

(** C3 (amended). On a store with distinct keys all of whose entries are
    stable, for a key, a type tag and a value that form a stable entry
    (a stripped bare key, and a value whose written text has one of the
    three forms, is stripped and classifies as that tag and value), [set]
    succeeds, and a fresh object loaded from the live file returns from
    [get], for that key, exactly the value passed to [set]. *)
Theorem C3_set_then_reload (self : t) (w : fs) (k : pykey)
    (var_type : str) (val dflt : pyval) :
  stable_store (config self) ->
  stable k (var_type, val) ->
  exists self' w' self'',
    set self w k var_type val = ((self', w'), inr tt)
    /\ init w' = (self'', inr tt)
    /\ get self'' k dflt = val.
Proof.
  intros [ND F] St. destruct (stable_tag _ _ _ St) as [T R].
  set (self1 := {| config := dict_set (config self) k (var_type, val);
                   configured := configured self |}).
  assert (SS : stable_store (config self1)).
  { split; simpl.
    - now apply dict_set_NoDup.
    - now apply dict_set_Forall. }
  destruct (stable_store_reload self1 w SS) as (w' & S & _ & L).
  exists self1, w', {| config := config self1; configured := true |}.
  split; [|split; [exact L|]].
  - unfold set. apply var_types_spec in T. rewrite T. cbn [negb].
    destruct (str_eqb var_type (lit "string")) eqn:E.
    + apply str_eqb_eq in E. rewrite (R E). fold self1. now rewrite S.
    + fold self1. now rewrite S.
  - unfold get. simpl. now rewrite dict_get_set_same.
Qed.

Lemma C3_set_then_reload_witness :
  let self :=
    {| config := [(Some (lit "RCONEnabled"), (lit "bool", PBool false))];
       configured := true |} in
  let w := {| file := None; default := None |} in
  stable_store (config self)
  /\ stable (Some (lit "RCONPort")) (lit "int", PInt 25575)
  /\ exists self' w' self'',
       set self w (Some (lit "RCONPort")) (lit "int") (PInt 25575)
       = ((self', w'), inr tt)
       /\ init w' = (self'', inr tt)
       /\ get self'' (Some (lit "RCONPort")) PNone = PInt 25575.
Proof.
  intros self w.
  assert (SS : stable_store (config self)).
  { split; simpl.
    - repeat constructor. simpl. tauto.
    - repeat constructor. simpl. apply stable_bool; reflexivity. }
  assert (St : stable (Some (lit "RCONPort")) (lit "int", PInt 25575)).
  { apply stable_int; [reflexivity | reflexivity | lia]. }
  split; [exact SS|]. split; [exact St|].
  exact (C3_set_then_reload self w (Some (lit "RCONPort")) (lit "int")
                           (PInt 25575) PNone SS St).
Defined.

(** ** Plain decimal numbers *)

Lemma decimal_or_point_props (c : ascii) :
  isdecimal c || char_eqb c "." = true ->
  (code c <? 127)%N = true /\ c_isspace c = false
  /\ char_eqb c "_" = false /\ lower_char c = c
  /\ char_eqb c "-" = false /\ char_eqb c "+" = false
  /\ char_eqb c "i" = false /\ char_eqb c "n" = false
  /\ char_eqb c "t" = false /\ char_eqb c "f" = false
  /\ char_eqb c dquote = false /\ char_eqb c "(" = false.
Proof. char_cases c; repeat split. Qed.

Lemma drop_underscores_none (s : str) (prev : ascii) :
  forallb (fun c => negb (char_eqb c "_")) s = true ->
  char_eqb prev "_" = false ->
  drop_underscores s prev = Some s.
Proof.
  revert prev. induction s as [|c s IH]; intros prev H P; simpl.
  - now rewrite P.
  - cbn [forallb] in H. apply andb_true_iff in H. destruct H as [Hc Hs].
    apply negb_true_iff in Hc. rewrite Hc, P. cbn [andb].
    now rewrite IH.
Qed.

Lemma span_digits_app (ip r : str) :
  forallb isdecimal ip = true ->
  match r with [] => True | c :: _ => isdecimal c = false end ->
  span_digits (ip ++ r) = (ip, r).
Proof.
  intros H R. induction ip as [|c ip IH]; cbn [span_digits app].
  - destruct r as [|c r]; auto. cbn [span_digits]. now rewrite R.
  - cbn [forallb] in H. apply andb_true_iff in H. destruct H as [Hc Hs].
    rewrite Hc, IH by exact Hs. reflexivity.
Qed.

(** [float] reads digits, a point and digits as the binary64 value nearest
    to the decimal number. *)
Lemma float_of_str_plain (ip fp : str) :
  forallb isdecimal ip = true -> forallb isdecimal fp = true ->
  ip ++ fp <> [] ->
  float_of_str (ip ++ "."%char :: fp)
  = inr (round_decimal false (digits_value (ip ++ fp))
                       (- Z.of_nat (List.length fp))).
Proof.
  intros Hi Hf N. set (s := ip ++ "."%char :: fp).
  assert (A : forallb (fun c => isdecimal c || char_eqb c ".") s = true).
  { unfold s. rewrite forallb_app. cbn [forallb]. rewrite andb_true_iff.
    split.
    - revert Hi. apply forallb_impl. now intros c ->.
    - rewrite char_eqb_refl, orb_true_r. cbn [andb].
      revert Hf. apply forallb_impl. now intros c ->. }
  assert (Ne : exists c r, s = c :: r /\ isdecimal c || char_eqb c "." = true).
  { unfold s in *. destruct ip as [|c ip]; simpl in *.
    - eexists; eexists; split; [reflexivity|]. reflexivity.
    - eexists; eexists; split; [reflexivity|].
      apply andb_true_iff in A. tauto. }
  unfold float_of_str.
  rewrite drop_underscores_none; [|revert A; apply forallb_impl; intros c Hc;
      apply decimal_or_point_props in Hc;
      destruct Hc as (_ & _ & -> & _); reflexivity|reflexivity].
  assert (T : number_text s = s).
  { unfold number_text.
    assert (E : to_ascii_number s = s).
    { unfold to_ascii_number. rewrite <- (map_id s) at 2.
      apply map_ext_in. intros c I. rewrite forallb_forall in A.
      destruct (decimal_or_point_props c (A c I)) as (-> & _). reflexivity. }
    rewrite E. apply strip_by_none. revert A. apply forallb_impl.
    intros c Hc. apply decimal_or_point_props in Hc.
    destruct Hc as (_ & -> & _). reflexivity. }
  rewrite T.
  assert (Lw : lower s = s).
  { unfold lower. rewrite <- (map_id s) at 2. apply map_ext_in.
    intros c I. rewrite forallb_forall in A.
    now apply decimal_or_point_props, A. }
  destruct Ne as (c & r & Es & Hc).
  apply decimal_or_point_props in Hc.
  destruct Hc as (_ & _ & _ & _ & Hm & Hp & Hi' & Hn & _).
  assert (Sg : split_sign s = (false, s)).
  { rewrite Es. unfold split_sign. now rewrite Hm, Hp. }
  rewrite Sg, Lw.
  assert (F1 : str_eqb s (lit "inf") || str_eqb s (lit "infinity") = false).
  { rewrite Es. change (lit "inf") with ("i"%char :: lit "nf").
    change (lit "infinity") with ("i"%char :: lit "nfinity").
    cbn [str_eqb]. now rewrite Hi'. }
  assert (F2 : str_eqb s (lit "nan") = false).
  { rewrite Es. change (lit "nan") with ("n"%char :: lit "an").
    cbn [str_eqb]. now rewrite Hn. }
  rewrite F1, F2.
  unfold float_decimal, s.
  rewrite span_digits_app by (auto; reflexivity).
  rewrite char_eqb_refl.
  rewrite <- (app_nil_r fp) at 1. rewrite span_digits_app by auto.
  destruct (ip ++ fp) eqn:E; [congruence|].
  simpl float_exponent. cbv iota. rewrite <- E. reflexivity.
Qed.

(** A raw value made of digits, a point and digits, with a digit on at
    least one side, classifies as Float. *)
Lemma classify_plain_decimal (ip fp : str) :
  forallb isdecimal ip = true -> forallb isdecimal fp = true ->
  ip ++ fp <> [] ->
  classify (ip ++ "."%char :: fp)
  = inr (lit "float",
         PFloat (round_decimal false (digits_value (ip ++ fp))
                               (- Z.of_nat (List.length fp)))).
Proof.
  intros Hi Hf N. pose proof (float_of_str_plain ip fp Hi Hf N) as F.
  set (s := ip ++ "."%char :: fp) in *.
  assert (A : forallb (fun c => isdecimal c || char_eqb c ".") s = true).
  { unfold s. rewrite forallb_app. cbn [forallb]. rewrite andb_true_iff.
    split.
    - revert Hi. apply forallb_impl. now intros c ->.
    - rewrite char_eqb_refl, orb_true_r. cbn [andb].
      revert Hf. apply forallb_impl. now intros c ->. }
  assert (Lw : lower s = s).
  { unfold lower. rewrite <- (map_id s) at 2. apply map_ext_in.
    intros c I. rewrite forallb_forall in A.
    now apply decimal_or_point_props, A. }
  assert (D : isdigit s = false).
  { assert (G : forallb isdigit_char s = false).
    { unfold s. rewrite forallb_app. cbn [forallb].
      change (isdigit_char ".") with false. cbn [andb].
      apply andb_false_r. }
    unfold isdigit. destruct s; auto. }
  assert (P : contains "." s = true).
  { unfold contains, s. rewrite existsb_app. cbn [existsb].
    rewrite char_eqb_refl. cbn [orb]. apply orb_true_r. }
  assert (Ne : exists c r, s = c :: r /\ isdecimal c || char_eqb c "." = true).
  { destruct s as [|c r]; [discriminate|].
    exists c, r. split; auto. cbn [forallb] in A.
    apply andb_true_iff in A. tauto. }
  destruct Ne as (c & r & Es & Hc).
  apply decimal_or_point_props in Hc.
  destruct Hc as (_ & _ & _ & _ & _ & _ & _ & _ & Ht & Hff & Hq & Hp).
  apply float_rule_applies; auto.
  - rewrite Lw, Es. change (lit "true") with ("t"%char :: lit "rue").
    cbn [str_eqb]. now rewrite Ht.
  - rewrite Lw, Es. change (lit "false") with ("f"%char :: lit "alse").
    cbn [str_eqb]. now rewrite Hff.
  - rewrite Es. simpl. intros [= ->]. now rewrite char_eqb_refl in Hq.
  - rewrite Es. simpl. intros [= ->]. now rewrite char_eqb_refl in Hp.
Qed.

(** ** C8: the amended claim *)

(** C8 (amended). A raw value to which none of the boolean, digits,
    quote and parenthesis rules applies, which contains a point and which
    [float] accepts, classifies as Float, with the value that [float]
    gives, a value in the range of binary64. *)
Theorem C8_float_classification (val : str) (x : pyfloat) :
  str_eqb (lower val) (lit "true") = false ->
  str_eqb (lower val) (lit "false") = false ->
  isdigit val = false ->
  hd_error val <> Some dquote ->
  hd_error val <> Some "("%char ->
  contains "." val = true ->
  float_of_str val = inr x ->
  classify val = inr (lit "float", PFloat x) /\ binary64 x.
Proof.
  intros H1 H2 H3 H4 H5 H6 H7. split.
  - now apply float_rule_applies.
  - eapply float_of_str_binary64; eauto.
Qed.

Lemma C8_float_classification_witness :
  classify (lit "1.000000")
  = inr (lit "float", PFloat (FFin false 4503599627370496 (-52)))
  /\ binary64 (FFin false 4503599627370496 (-52)).
Proof.
  apply (C8_float_classification (lit "1.000000")).
  - reflexivity.
  - reflexivity.
  - reflexivity.
  - discriminate.
  - discriminate.
  - reflexivity.
  - vm_compute. reflexivity.
Defined.

(** * Further properties of class GameConfig *)

(** ** The parsed store is well typed and can always be saved *)

Lemma split_no_sep (c : ascii) (s : str) :
  Forall (fun w => contains c w = false) (split c s).
Proof.
  induction s as [|x s IH]; simpl.
  - constructor; [reflexivity|constructor].
  - destruct (char_eqb_spec x c) as [->|N].
    + constructor; [reflexivity|exact IH].
    + destruct (split c s) as [|w ws]; [repeat constructor|].
      * simpl. destruct (char_eqb_spec c x); [congruence|reflexivity].
      * inversion IH; subst. constructor; auto.
        simpl. destruct (char_eqb_spec c x); [congruence|assumption].
Qed.

Lemma classify_well_typed (val : str) (en : entry) :
  classify val = inr en -> well_typed en.
Proof.
  intros C. destruct (classify_inv val en C)
    as [->|[->|[(D & n & I & ->)|(c & s & E & H)]]].
  - left. split; eauto.
  - left. split; eauto.
  - right; left. split; auto. exists n. split; auto.
    eapply int_of_str_isdigit_nonneg; eauto.
  - destruct H as [(-> & ->)|[(-> & ->)|(N1 & N2 & [(x & F & ->)| ->])]].
    + right; right; left. split; auto. eexists. split; [reflexivity|].
      apply strip_by_idem.
    + right; right; right; left. split; auto. eexists.
      split; [reflexivity|]. split; [apply split_nonempty|apply split_no_sep].
    + right; right; right; right; left. split; auto. exists x. split; auto.
      eapply float_of_str_binary64; eauto.
    + right; right; right; right; right. split; auto. exists val.
      split; auto. rewrite E. discriminate.
Qed.

Lemma classify_all_well_typed (vals : dict str) (acc cfg : dict entry)
    (r : result unit) :
  classify_all vals acc = (cfg, r) ->
  NoDup (dict_keys acc) -> Forall (fun kv => well_typed (snd kv)) acc ->
  NoDup (dict_keys cfg) /\ Forall (fun kv => well_typed (snd kv)) cfg.
Proof.
  revert acc. induction vals as [|[k v] vals IH]; intros acc; simpl.
  - intros [= <- _]. auto.
  - destruct (classify v) as [e|en] eqn:C.
    + intros [= <- _]. auto.
    + intros H ND F. eapply IH; eauto.
      * now apply dict_set_NoDup.
      * apply dict_set_Forall; auto. simpl. eapply classify_well_typed; eauto.
Qed.

(** The store that [_parse_options] leaves, however it ends. *)
Lemma parse_store_invariant (self : t) (options : str) :
  let self' := fst (_parse_options self options) in
  NoDup (dict_keys (config self'))
  /\ Forall (fun kv => well_typed (snd kv)) (config self')
  /\ configured self' = configured self.
Proof.
  unfold _parse_options.
  destruct (classify_all (lex options) []) as [cfg r] eqn:C. simpl.
  destruct (classify_all_well_typed _ _ _ _ C) as [ND F];
    [constructor|constructor|]. auto.
Qed.

(** X1. Whatever the options text, and whether [_parse_options] returns
    or raises, the store it leaves has distinct keys and every entry is
    well typed: a bool holds a boolean, an int a non-negative integer, a
    string a text with no double quote at either end, a group a
    non-empty list of texts without a comma, a float a binary64 value,
    a literal a non-empty text. *)
Theorem parsed_store_well_typed (self : t) (options : str) :
  let self' := fst (_parse_options self options) in
  NoDup (dict_keys (config self'))
  /\ Forall (fun kv => well_typed (snd kv)) (config self')
  /\ configured self' = configured self.
Proof. exact (parse_store_invariant self options). Qed.

Lemma well_typed_text (k : pykey) (val : entry) :
  well_typed val -> exists o, option_text k val = inr o.
Proof.
  destruct val as [tag v]. unfold well_typed.
  intros [(-> & b & ->)|[(-> & n & -> & _)|[(-> & s & -> & _)
         |[(-> & l & -> & _)|[(-> & x & -> & _)|(-> & s & -> & _)]]]]];
    eexists; reflexivity.
Qed.

Lemma save_options_well_typed (cfg : dict entry) (acc : list str) :
  Forall (fun kv => well_typed (snd kv)) cfg ->
  exists options, save_options cfg acc = inr options.
Proof.
  intros F. revert acc. induction F as [|[k val] cfg H F IH]; intros acc;
    simpl.
  - eauto.
  - destruct (well_typed_text k val H) as (o & ->). simpl. apply IH.
Qed.

(** X2. On a store left by [_parse_options] the loop of [save] that
    builds the option texts raises nothing: every entry gets its text,
    the key, an equals sign and the text of the value, in the order of
    the store.  What is left of [save] is the opening and the writing of
    the file. *)
Theorem parsed_store_formats (self : t) (options : str) :
  let self' := fst (_parse_options self options) in
  exists texts,
    save_options (config self') [] = inr texts
    /\ Forall2 (fun kv o =>
                  exists text,
                    value_text (snd kv) = inr text
                    /\ o = key_text (fst kv) ++ "="%char :: text)
               (config self') texts.
Proof.
  intros self'.
  destruct (parse_store_invariant self options) as (_ & F & _).
  fold self' in F.
  destruct (save_options_well_typed _ [] F) as (texts & E).
  exists texts. split; [exact E|].
  apply save_options_spec in E. destruct E as (os & -> & A).
  cbn [app]. eapply Forall2_impl; [|exact A].
  intros kv o H. now apply option_text_shape.
Qed.

(** ** Which file [load] reads *)

Lemma parse_configured (self : t) (options : str) :
  configured (fst (_parse_options self options)) = configured self.
Proof.
  unfold _parse_options. now destruct (classify_all (lex options) []).
Qed.

Lemma load_lines_no_match (live : bool) (self : t) (lines : list str) :
  Forall (fun line => startswith option_key line = false) lines ->
  load_lines live self lines = (self, inr tt).
Proof.
  induction 1 as [|line lines H F IH]; cbn [load_lines]; auto.
  now rewrite H.
Qed.

Lemma load_lines_keeps_configured (live : bool) (self : t)
    (lines : list str) :
  configured self = true ->
  configured (fst (load_lines live self lines)) = true.
Proof.
  revert self. induction lines as [|line lines IH]; intros self H;
    cbn [load_lines]; auto.
  destruct (startswith option_key line); auto.
  set (self1 := if live then _ else self).
  assert (H1 : configured self1 = true) by (unfold self1; now destruct live).
  pose proof (parse_configured self1 (options_of_line line)) as P.
  destruct (_parse_options self1 (options_of_line line)) as [self2 [e|u]];
    simpl in *; [congruence|]. apply IH. congruence.
Qed.

Lemma load_lines_match (self : t) (lines : list str) :
  Exists (fun line => startswith option_key line = true) lines ->
  configured (fst (load_lines true self lines)) = true.
Proof.
  revert self. induction lines as [|line lines IH]; intros self E;
    cbn [load_lines].
  - inversion E.
  - destruct (startswith option_key line) eqn:S.
    + pose proof (parse_configured
                    {| config := config self; configured := true |}
                    (options_of_line line)) as P.
      destruct (_parse_options _ (options_of_line line)) as [self2 [e|u]];
        simpl in *; auto.
      now apply load_lines_keeps_configured.
    + apply IH. inversion E; subst; [congruence|assumption].
Qed.

Lemma load_lines_default_flag (self : t) (lines : list str) :
  configured (fst (load_lines false self lines)) = configured self.
Proof.
  revert self. induction lines as [|line lines IH]; intros self;
    cbn [load_lines]; auto.
  destruct (startswith option_key line); auto.
  pose proof (parse_configured self (options_of_line line)) as P.
  destruct (_parse_options self (options_of_line line)) as [self2 [e|u]];
    simpl in *; auto. now rewrite IH.
Qed.

(** X3. A live file none of whose lines begins with [OptionSettings] is
    read and then ignored: the object is what a missing live file gives,
    the store of the default file (or [FileNotFoundError] when that is
    missing too), and it is not marked as configured. *)
Theorem load_without_option_line (content : str) (d : option str) :
  Forall (fun line => startswith option_key line = false)
         (readlines content) ->
  init {| file := Some content; default := d |}
  = init {| file := None; default := d |}
  /\ configured (fst (init {| file := Some content; default := d |}))
     = false.
Proof.
  intros F.
  assert (E : init {| file := Some content; default := d |}
              = init {| file := None; default := d |}).
  { unfold init, load. cbn [file default].
    now rewrite load_lines_no_match by exact F. }
  split; [exact E|]. rewrite E. unfold init, load. cbn [file default].
  change (negb (configured fresh)) with true. cbv iota.
  destruct d as [c|]; [|reflexivity].
  apply load_lines_default_flag.
Qed.

Lemma load_without_option_line_witness :
  let content := lit "[/Script/Pal.PalGameWorldSettings]" ++ [newline] in
  let d := Some (lit "OptionSettings=(Difficulty=None)" ++ [newline]) in
  Forall (fun line => startswith option_key line = false)
         (readlines content)
  /\ init {| file := Some content; default := d |}
     = ({| config :=
             [(Some (lit "Difficulty"), (lit "literal", PStr (lit "None")))];
           configured := false |}, inr tt).
Proof.
  intros content d.
  assert (F : Forall (fun line => startswith option_key line = false)
                     (readlines content))
    by (repeat constructor).
  split; [exact F|].
  etransitivity; [exact (proj1 (load_without_option_line content d F))|].
  reflexivity.
Defined.

(** A live file with an option line decides the result of [init]. *)
Lemma option_line_wins (content : str) (d1 d2 : option str) :
  Exists (fun line => startswith option_key line = true)
         (readlines content) ->
  init {| file := Some content; default := d1 |}
  = init {| file := Some content; default := d2 |}
  /\ configured (fst (init {| file := Some content; default := d1 |}))
     = true.
Proof.
  intros E. pose proof (load_lines_match fresh _ E) as C.
  unfold init, load. cbn [file default].
  destruct (load_lines true fresh (readlines content)) as [self1 [e|u]];
    simpl in C |- *; rewrite ?C; simpl; auto.
Qed.

(** X4. When a line of the live file begins with [OptionSettings], the
    default file plays no part: the result of [GameConfig()] is the same
    whatever the default file is, even if it is missing, and the object
    is marked as configured, also when parsing that line raises. *)
Theorem load_with_option_line (content : str) (d1 d2 : option str) :
  Exists (fun line => startswith option_key line = true)
         (readlines content) ->
  init {| file := Some content; default := d1 |}
  = init {| file := Some content; default := d2 |}
  /\ configured (fst (init {| file := Some content; default := d1 |}))
     = true.
Proof. exact (option_line_wins content d1 d2). Qed.

Lemma load_with_option_line_witness :
  let content := lit "OptionSettings=(K=a.b)" ++ [newline] in
  Exists (fun line => startswith option_key line = true)
         (readlines content)
  /\ init {| file := Some content; default := None |}
     = ({| config := []; configured := true |}, inl ValueError).
Proof.
  intros content.
  assert (E : Exists (fun line => startswith option_key line = true)
                     (readlines content))
    by (left; reflexivity).
  split; [exact E|].
  etransitivity; [exact (proj1 (load_with_option_line content None None E))|].
  vm_compute. reflexivity.
Defined.

(** ** After a successful [set] the live file is the one that is read *)

Lemma universal_newlines_app (a b : str) :
  forallb (fun c => negb (char_eqb c creturn)) a = true ->
  universal_newlines (a ++ b) = a ++ universal_newlines b.
Proof.
  induction a as [|c a IH]; intros H; [reflexivity|].
  cbn [forallb] in H. apply andb_true_iff in H. destruct H as [Hc Ha].
  apply negb_true_iff in Hc. cbn [app universal_newlines].
  rewrite Hc. now rewrite IH.
Qed.

Lemma lines_from_prefix (p cur u : str) :
  forallb (fun c => negb (char_eqb c newline)) p = true ->
  lines_from cur (p ++ u) = lines_from (cur ++ p) u.
Proof.
  revert cur. induction p as [|c p IH]; intros cur H.
  - now rewrite app_nil_r.
  - cbn [forallb] in H. apply andb_true_iff in H. destruct H as [Hc Hp].
    apply negb_true_iff in Hc. cbn [app lines_from]. rewrite Hc.
    rewrite IH by exact Hp. now rewrite <- app_assoc.
Qed.

Lemma lines_from_head (u cur : str) :
  cur <> [] -> exists t ls, lines_from cur u = (cur ++ t) :: ls.
Proof.
  revert cur. induction u as [|c u IH]; intros cur N.
  - exists [], []. simpl. rewrite app_nil_r. now destruct cur.
  - cbn [lines_from]. destruct (char_eqb c newline).
    + exists [c]. eexists. reflexivity.
    + destruct (IH (cur ++ [c])) as (t & ls & E).
      * intros E. apply app_eq_nil in E. destruct E; discriminate.
      * exists (c :: t), ls. rewrite E. now rewrite <- app_assoc.
Qed.

(** The second line of the file that [save] writes begins with
    [OptionSettings], whatever the options hold. *)
Lemma file_text_option_line (options : list str) :
  Exists (fun line => startswith option_key line = true)
         (readlines (file_text options)).
Proof.
  unfold readlines, file_text.
  set (rest := "="%char :: "("%char
                 :: join (lit ",") options ++ ")"%char :: [newline]).
  replace (("["%char :: header ++ "]"%char :: [newline]) ++ option_key ++ rest)
    with ((("["%char :: header ++ ["]"%char]) ++ newline :: option_key) ++ rest)
    by (cbn [app]; rewrite <- !app_assoc; reflexivity).
  rewrite universal_newlines_app by reflexivity.
  rewrite <- app_assoc. cbn [app].
  change ("["%char :: (header ++ ["]"%char])
            ++ newline :: option_key ++ universal_newlines rest)
    with (("["%char :: header ++ ["]"%char])
            ++ newline :: option_key ++ universal_newlines rest).
  rewrite lines_from_line by reflexivity.
  rewrite lines_from_prefix by reflexivity.
  destruct (lines_from_head (universal_newlines rest) ([] ++ option_key))
    as (t & ls & E); [discriminate|].
  rewrite E. right. left. cbn [app]. apply startswith_app.
Qed.

(** X5. After any successful [set], a fresh [GameConfig()] reads the live
    file and is marked as configured, whether the object that called
    [set] was loaded from the live file or from the default file, and
    whatever the default file is now. *)
Theorem set_then_configured (self self' : t) (w w' : fs) (k : pykey)
    (var_type : str) (val : pyval) (d : option str) :
  set self w k var_type val = ((self', w'), inr tt) ->
  configured (fst (init w')) = true
  /\ init {| file := file w'; default := d |} = init w'.
Proof.
  intros H. apply set_inv in H. destruct H as (val1 & _ & _ & _ & S).
  apply save_ok in S. destruct S as (options & F & _ & _).
  pose proof (file_text_option_line options) as E.
  destruct w' as [f' d']. simpl in F. subst f'.
  destruct (option_line_wins (file_text options) d' d E) as [E1 C].
  split; [exact C|]. symmetry. exact E1.
Qed.

Lemma set_then_configured_witness :
  let self :=
    {| config := [(Some (lit "PublicPort"), (lit "int", PInt 8211))];
       configured := false |} in
  let w := {| file := None; default := Some (lit "x") |} in
  exists self' w',
    set self w (Some (lit "ServerName")) (lit "string") (PStr (lit "My Pals"))
    = ((self', w'), inr tt)
    /\ configured (fst (init w')) = true.
Proof.
  intros self w. do 2 eexists.
  assert (E : set self w (Some (lit "ServerName")) (lit "string")
                  (PStr (lit "My Pals"))
              = (({| config :=
                       [(Some (lit "PublicPort"), (lit "int", PInt 8211));
                        (Some (lit "ServerName"),
                         (lit "string", PStr (lit "My Pals")))];
                     configured := false |},
                  {| file :=
                       Some (file_text [lit "PublicPort=8211";
                                        lit "ServerName="
                                          ++ quoted (lit "My Pals")]);
                     default := Some (lit "x") |}), inr tt))
    by reflexivity.
  split; [exact E|].
  exact (proj1 (set_then_configured _ _ _ _ _ _ _ None E)).
Defined.

(** ** How [set] fails *)

Lemma option_text_exn (k : pykey) (val : entry) (e : exn) :
  option_text k val = inl e -> e = TypeError.
Proof.
  destruct val as [tag v]. unfold option_text.
  repeat (match goal with
          | |- context [if ?b then _ else _] => destruct b
          end; try discriminate).
  destruct v; simpl; congruence.
Qed.

Lemma save_options_exn (cfg : dict entry) (acc : list str) (e : exn) :
  save_options cfg acc = inl e -> e = TypeError.
Proof.
  revert acc. induction cfg as [|[k val] cfg IH]; intros acc; simpl.
  - discriminate.
  - destruct (option_text k val) as [e'|o] eqn:E; simpl.
    + intros [= <-]. eapply option_text_exn; eauto.
    + apply IH.
Qed.

Lemma save_options_fails (cfg : dict entry) (acc : list str) (k : pykey)
    (val : entry) (e : exn) :
  In (k, val) cfg -> option_text k val = inl e ->
  exists e', save_options cfg acc = inl e'.
Proof.
  revert acc. induction cfg as [|[k' val'] cfg IH]; intros acc; simpl;
    [tauto|].
  intros [[= -> ->]|I] E.
  - rewrite E. simpl. eauto.
  - destruct (option_text k' val'); simpl; eauto.
Qed.

(** X6. [set] is not atomic.  For a value that is None, a boolean, an
    integer or a float: with the tag [group], [set] raises [TypeError]
    from [save] after it has stored the entry, so the file is untouched
    but the object now holds the new entry and [get] returns the value;
    with the tag [string], [set] raises [AttributeError] before it
    changes anything. *)
Theorem set_failure_modes (self : t) (w : fs) (k : pykey) (val dflt : pyval) :
  scalar val ->
  set self w k (lit "string") val = ((self, w), inl AttributeError)
  /\ exists self',
       set self w k (lit "group") val = ((self', w), inl TypeError)
       /\ config self' = dict_set (config self) k (lit "group", val)
       /\ get self' k dflt = val.
Proof.
  intros SC. split.
  - unfold set. change (existsb (str_eqb (lit "string")) var_types) with true.
    change (str_eqb (lit "string") (lit "string")) with true. cbn [negb].
    destruct val; try reflexivity; elim SC.
  - set (self1 := {| config := dict_set (config self) k (lit "group", val);
                     configured := configured self |}).
    exists self1. split; [|split; [reflexivity|]].
    + unfold set. change (existsb (str_eqb (lit "group")) var_types) with true.
      change (str_eqb (lit "group") (lit "string")) with false. cbn [negb].
      fold self1. unfold save.
      assert (T : option_text k (lit "group", val) = inl TypeError).
      { destruct val; try reflexivity; elim SC. }
      assert (I : In (k, (lit "group", val)) (config self1)).
      { simpl. apply dict_get_In, dict_get_set_same. }
      destruct (save_options_fails _ [] _ _ _ I T) as (e' & E).
      rewrite E. now rewrite (save_options_exn _ _ _ E).
    + unfold get. simpl. now rewrite dict_get_set_same.
Qed.

Lemma set_failure_modes_witness :
  let w := {| file := Some (lit "old"); default := None |} in
  set fresh w (Some (lit "K")) (lit "string") (PInt 5)
  = ((fresh, w), inl AttributeError)
  /\ exists self',
       set fresh w (Some (lit "K")) (lit "group") (PInt 5)
       = ((self', w), inl TypeError)
       /\ config self' = [(Some (lit "K"), (lit "group", PInt 5))]
       /\ get self' (Some (lit "K")) PNone = PInt 5.
Proof.
  intros w.
  apply (set_failure_modes fresh w (Some (lit "K")) (PInt 5) PNone).
  exact I.
Defined.

(** ** What the scanner stores *)

(** X7. Every key and every raw value that the scanner hands to the
    classification loop is stripped of surrounding white space (a key may
    also be [None], when a comma comes before any equals sign). *)
Theorem lex_stripped (options : str) :
  Forall (fun kr => key_stripped (fst kr) /\ strip (snd kr) = snd kr)
         (lex options).
Proof.
  assert (I : Forall (fun kr => key_stripped (fst kr)
                                /\ strip (snd kr) = snd kr)
                     (values (lexer_run options))
              /\ key_stripped (key (lexer_run options))).
  { unfold lexer_run.
    apply (fold_left_invariant
             (fun st => Forall (fun kr => key_stripped (fst kr)
                                          /\ strip (snd kr) = snd kr)
                               (values st)
                        /\ key_stripped (key st))).
    - intros st c [F K].
      destruct (lexer_step_cases st c)
        as [(_ & _ & ->)|[(_ & _ & ->)|[(_ & _ & g & ->)|(b & -> & _)]]];
        simpl; auto.
      + split; auto. apply strip_idem.
      + split; auto. apply dict_set_Forall; auto. simpl. split; auto.
        apply strip_idem.
    - split; [constructor|exact I]. }
  destruct I as [F K]. unfold lex, lexer_finish.
  destruct (key (lexer_run options)) as [ks|] eqn:E; auto.
  apply dict_set_Forall; auto. simpl. split; auto. apply strip_idem.
Qed.

(** X11. An options text with no equals sign and no comma gives the empty
    store without any error, whatever else it holds. *)
Theorem parse_without_separators (self : t) (options : str) :
  forallb (fun c => negb (char_eqb c "=") && negb (char_eqb c ",")) options
  = true ->
  _parse_options self options
  = ({| config := []; configured := configured self |}, inr tt).
Proof.
  intros H.
  assert (I : values (fold_left lexer_step options lexer_init) = []
              /\ key (fold_left lexer_step options lexer_init) = None).
  { generalize lexer_init (conj (eq_refl : values lexer_init = [])
                                (eq_refl : key lexer_init = None)).
    induction options as [|c options IH]; intros st [V K]; [auto|].
    cbn [forallb] in H. apply andb_true_iff in H. destruct H as [Hc Ho].
    apply andb_true_iff in Hc. destruct Hc as [H1 H2].
    apply negb_true_iff in H1, H2.
    simpl fold_left. apply IH; auto.
    destruct (lexer_step_cases st c)
      as [(_ & -> & _)|[(_ & -> & _)|[(_ & _ & g & ->)|(b & -> & _)]]];
      simpl; auto; discriminate. }
  destruct I as [V K]. unfold _parse_options, lex, lexer_finish, lexer_run.
  rewrite K, V. reflexivity.
Qed.

Lemma parse_without_separators_witness :
  _parse_options fresh (lit "(not an option list)")
  = ({| config := []; configured := false |}, inr tt).
Proof.
  apply (parse_without_separators fresh (lit "(not an option list)")).
  reflexivity.
Defined.

(** ** Values that are written back verbatim *)

(** X8. A raw value between parentheses classifies as a group whatever
    lies between them (commas, quotes, further parentheses, nothing), and
    [save] writes it back character for character. *)
Theorem group_verbatim (g : str) :
  let raw := "("%char :: g ++ [")"%char] in
  classify raw = inr (lit "group", PList (split "," g))
  /\ value_text (lit "group", PList (split "," g)) = inr raw.
Proof.
  intros raw. split.
  - unfold classify, raw.
    change (str_eqb (lower ("("%char :: g ++ [")"%char])) (lit "true"))
      with false.
    change (str_eqb (lower ("("%char :: g ++ [")"%char])) (lit "false"))
      with false.
    change (isdigit ("("%char :: g ++ [")"%char])) with false.
    cbn [index0 bind]. change (char_eqb "(" dquote) with false.
    rewrite char_eqb_refl. cbv iota. now rewrite slice_group.
  - unfold raw. simpl. change (lit ",") with [","%char].
    now rewrite join_split.
Qed.

Lemma strip_by_wrap (p : ascii -> bool) (a : ascii) (s : str) :
  p a = true -> strip_by p s = s -> strip_by p (a :: s ++ [a]) = s.
Proof.
  intros Pa S.
  destruct (strip_by_shape p s)
    as [E|[(c & E & Pc)|(c & m & d & E & Pc & Pd)]];
    rewrite S in E; subst s; unfold strip_by, lstrip_by;
    cbn [app dropwhile]; rewrite Pa.
  - reflexivity.
  - rewrite Pc. rewrite rstrip_by_cons by exact Pc. f_equal.
    unfold rstrip_by. simpl. now rewrite Pa.
  - rewrite Pc. rewrite rstrip_by_cons by exact Pc. f_equal.
    unfold rstrip_by. rewrite <- app_assoc. rewrite rev_app_distr.
    cbn [app rev dropwhile]. rewrite Pa, Pd. cbn [rev].
    now rewrite rev_involutive.
Qed.

(** X9. A quoted raw value whose content neither begins nor ends with a
    double quote classifies as a string holding exactly that content,
    double quotes inside it included, and [save] writes the raw value
    back character for character. *)
Theorem string_verbatim (s : str) :
  strip_char dquote s = s ->
  classify (quoted s) = inr (lit "string", PStr s)
  /\ value_text (lit "string", PStr s) = inr (quoted s).
Proof.
  intros H. split; [|reflexivity].
  unfold classify, quoted.
  change (str_eqb (lower (dquote :: s ++ [dquote])) (lit "true")) with false.
  change (str_eqb (lower (dquote :: s ++ [dquote])) (lit "false")) with false.
  change (isdigit (dquote :: s ++ [dquote])) with false.
  cbn [index0 bind]. rewrite char_eqb_refl.
  unfold strip_char. rewrite strip_by_wrap; auto.
Qed.

Lemma string_verbatim_witness :
  let s := lit "say " ++ quoted (lit "hi") ++ lit ", then go" in
  strip_char dquote s = s
  /\ classify (quoted s) = inr (lit "string", PStr s).
Proof.
  intros s.
  assert (H : strip_char dquote s = s) by reflexivity.
  split; [exact H|]. exact (proj1 (string_verbatim s H)).
Defined.

(** ** Booleans *)

Lemma lower_char_letter (c : ascii) :
  (lower_char c = "t"%char -> either_case "t" "T" c)
  /\ (lower_char c = "r"%char -> either_case "r" "R" c)
  /\ (lower_char c = "u"%char -> either_case "u" "U" c)
  /\ (lower_char c = "e"%char -> either_case "e" "E" c)
  /\ (lower_char c = "f"%char -> either_case "f" "F" c)
  /\ (lower_char c = "a"%char -> either_case "a" "A" c)
  /\ (lower_char c = "l"%char -> either_case "l" "L" c)
  /\ (lower_char c = "s"%char -> either_case "s" "S" c).
Proof.
  unfold either_case.
  destruct c as [[] [] [] [] [] [] [] []]; vm_compute;
    repeat split; intros H; try discriminate H; auto.
Qed.

Lemma either_case_lower (lo up c : ascii) :
  lower_char lo = lo -> lower_char up = lo ->
  either_case lo up c -> lower_char c = lo.
Proof. intros H1 H2 [->| ->]; auto. Qed.

Lemma lower_true (val : str) : lower val = lit "true" <-> spells_true val.
Proof.
  split.
  - destruct val as [|a [|b [|c [|d [|e r]]]]]; try discriminate.
    intros [= Ha Hb Hc Hd]. exists a, b, c, d. split; auto.
    repeat split.
    + now apply (lower_char_letter a).
    + now apply (lower_char_letter b).
    + now apply (lower_char_letter c).
    + now apply (lower_char_letter d).
  - intros (a & b & c & d & -> & Ha & Hb & Hc & Hd). unfold lower.
    cbn [map].
    rewrite (either_case_lower "t" "T" a), (either_case_lower "r" "R" b),
      (either_case_lower "u" "U" c), (either_case_lower "e" "E" d);
      auto.
Qed.

Lemma lower_false (val : str) : lower val = lit "false" <-> spells_false val.
Proof.
  split.
  - destruct val as [|a [|b [|c [|d [|e [|x r]]]]]]; try discriminate.
    intros [= Ha Hb Hc Hd He]. exists a, b, c, d, e. split; auto.
    repeat split.
    + now apply (lower_char_letter a).
    + now apply (lower_char_letter b).
    + now apply (lower_char_letter c).
    + now apply (lower_char_letter d).
    + now apply (lower_char_letter e).
  - intros (a & b & c & d & e & -> & Ha & Hb & Hc & Hd & He). unfold lower.
    cbn [map].
    rewrite (either_case_lower "f" "F" a), (either_case_lower "a" "A" b),
      (either_case_lower "l" "L" c), (either_case_lower "s" "S" d),
      (either_case_lower "e" "E" e); auto.
Qed.

(** X10. A raw value classifies as the boolean true exactly when it
    spells [true] in any mix of upper and lower case, and as the boolean
    false exactly when it spells [false] so; [save] writes them back as
    [True] and [False]. *)
Theorem bool_spellings (val : str) :
  (classify val = inr (lit "bool", PBool true) <-> spells_true val)
  /\ (classify val = inr (lit "bool", PBool false) <-> spells_false val)
  /\ value_text (lit "bool", PBool true) = inr (lit "True")
  /\ value_text (lit "bool", PBool false) = inr (lit "False").
Proof.
  assert (N : forall b, classify val = inr (lit "bool", PBool b) ->
                str_eqb (lower val) (lit "true") = false ->
                str_eqb (lower val) (lit "false") = false -> False).
  { intros b C T F. destruct (classify_inv val _ C)
      as [E|[E|[(_ & n & _ & E)|(c & s & _ & H)]]].
    - unfold classify in C. rewrite T, F in C. clear E.
      destruct (isdigit val).
      + destruct (int_of_str val); discriminate.
      + destruct val as [|c s]; [discriminate|]. cbn [index0 bind] in C.
        destruct (char_eqb c dquote); [discriminate|].
        destruct (char_eqb c "("); [discriminate|].
        destruct (contains "." (c :: s)); [|discriminate].
        destruct (float_of_str (c :: s)); discriminate.
    - unfold classify in C. rewrite T, F in C. clear E.
      destruct (isdigit val).
      + destruct (int_of_str val); discriminate.
      + destruct val as [|c s]; [discriminate|]. cbn [index0 bind] in C.
        destruct (char_eqb c dquote); [discriminate|].
        destruct (char_eqb c "("); [discriminate|].
        destruct (contains "." (c :: s)); [|discriminate].
        destruct (float_of_str (c :: s)); discriminate.
    - discriminate E.
    - destruct H as [(_ & E)|[(_ & E)|(_ & _ & [(x & _ & E)|E])]];
        discriminate E. }
  split; [|split; [|split; reflexivity]].
  - rewrite <- lower_true, <- str_eqb_eq. split.
    + intros C. destruct (str_eqb (lower val) (lit "true")) eqn:T; auto.
      destruct (str_eqb (lower val) (lit "false")) eqn:F.
      * unfold classify in C. rewrite T, F in C. discriminate.
      * exfalso. apply (N true C); reflexivity.
    + intros T. unfold classify. now rewrite T.
  - rewrite <- lower_false, <- str_eqb_eq. split.
    + intros C. destruct (str_eqb (lower val) (lit "false")) eqn:F; auto.
      destruct (str_eqb (lower val) (lit "true")) eqn:T.
      * unfold classify in C. rewrite T in C. discriminate.
      * exfalso. apply (N false C); reflexivity.
    + intros F. unfold classify.
      destruct (str_eqb (lower val) (lit "true")) eqn:T.
      * apply str_eqb_eq in T, F. rewrite T in F. discriminate.
      * now rewrite F.
Qed.

(** * text_width and class Table *)

(** ** text_width *)

Local Open Scope Z_scope.

Lemma text_width_acc (s : str) (acc : Z) :
  fold_left (fun width c => if (127 <? code c)%N then width + 2 else width + 1)
            s acc
  = acc + text_width s.
Proof.
  unfold text_width. revert acc. induction s as [|c s IH]; intros acc; simpl.
  - lia.
  - rewrite IH. rewrite (IH (if (127 <? code c)%N then 2 else 1)).
    destruct (127 <? code c)%N; lia.
Qed.

Lemma text_width_cons (c : ascii) (s : str) :
  text_width (c :: s)
  = (if (127 <? code c)%N then 2 else 1) + text_width s.
Proof.
  unfold text_width at 1. simpl. rewrite text_width_acc.
  destruct (127 <? code c)%N; reflexivity.
Qed.

Lemma text_width_app (a b : str) :
  text_width (a ++ b) = text_width a + text_width b.
Proof.
  induction a as [|c a IH]; [reflexivity|].
  cbn [app]. rewrite !text_width_cons, IH. lia.
Qed.

Lemma len_app (a b : str) : len (a ++ b) = len a + len b.
Proof. unfold len. rewrite length_app. lia. Qed.

Lemma len_spaces (n : Z) : 0 <= n -> len (spaces n) = n.
Proof. intros H. unfold len, spaces. rewrite repeat_length. lia. Qed.

Lemma text_width_spaces (n : Z) : 0 <= n -> text_width (spaces n) = n.
Proof.
  intros H. unfold spaces. rewrite <- (Z2Nat.id n) at 2 by exact H.
  induction (Z.to_nat n) as [|k IH]; [reflexivity|].
  cbn [repeat]. rewrite text_width_cons, IH.
  change (127 <? code " ")%N with false. lia.
Qed.

(** The visual width against the length. *)
Lemma text_width_bounds (a b : str) :
  text_width (a ++ b) = text_width a + text_width b
  /\ len a <= text_width a <= 2 * len a
  /\ (text_width a = len a
      <-> forallb (fun c => (code c <=? 127)%N) a = true).
Proof.
  split; [apply text_width_app|].
  induction a as [|c a [IH1 IH2]].
  - split; [unfold len, text_width; simpl; lia|]. split; reflexivity.
  - rewrite text_width_cons.
    assert (L : len (c :: a) = 1 + len a)
      by (unfold len; cbn [List.length]; lia).
    rewrite L. cbn [forallb]. rewrite andb_true_iff, <- IH2.
    destruct (127 <? code c)%N eqn:E.
    + split; [lia|]. apply N.ltb_lt in E.
      split; [lia|]. intros [H _]. apply N.leb_le in H. lia.
    + split; [lia|]. apply N.ltb_ge in E.
      split; [intros H; split; [apply N.leb_le; lia|lia]|intros [_ H]; lia].
Qed.

(** X12. The visual width of a text is additive over concatenation, lies
    between its length and twice its length, and equals its length
    exactly when every character has a code of at most 127. *)
Theorem text_width_spec (a b : str) :
  text_width (a ++ b) = text_width a + text_width b
  /\ len a <= text_width a <= 2 * len a
  /\ (text_width a = len a
      <-> forallb (fun c => (code c <=? 127)%N) a = true).
Proof. exact (text_width_bounds a b). Qed.

(** ** Padding *)

Lemma text_width_len (s : str) : len s <= text_width s.
Proof. apply (text_width_bounds s []). Qed.

(** A cell padded to the column width [w] has the visual width [w],
    whatever the alignment, when [w] is at least the visual width of
    its text. *)
Lemma pad_cell_width (self : Table.t) (cl : list Z) (i : nat) (cell : str)
    (w : Z) :
  nth_error cl i = Some w -> text_width cell <= w ->
  exists v, Table.pad_cell self cl i cell = inr v
            /\ text_width v = w /\ padded_from cell v.
Proof.
  intros N H. unfold Table.pad_cell. rewrite N.
  pose proof (text_width_len cell) as L.
  set (width := w - (text_width cell - len cell)).
  assert (J : forall a b, 0 <= a -> 0 <= b -> a + b = width - len cell ->
                text_width (spaces a ++ cell ++ spaces b) = w
                /\ padded_from cell (spaces a ++ cell ++ spaces b)).
  { intros a b Ha Hb E. split.
    - rewrite !text_width_app, !text_width_spaces by lia. unfold width in E.
      lia.
    - exists a, b. auto. }
  assert (S : width <= len cell ->
              text_width cell = w /\ padded_from cell cell).
  { intros E. split; [unfold width in E; lia|].
    exists 0, 0. simpl. now rewrite app_nil_r. }
  destruct (str_eqb (Table.align_of self i) (lit "r"));
    [|destruct (str_eqb (Table.align_of self i) (lit "c"))];
    eexists; (split; [reflexivity|]).
  - unfold rjust. destruct (width <=? len cell) eqn:E.
    + apply Z.leb_le in E. auto.
    + apply Z.leb_gt in E.
      assert (R : spaces (width - len cell) ++ cell
                  = spaces (width - len cell) ++ cell ++ spaces 0)
        by (change (spaces 0) with (@nil ascii); now rewrite app_nil_r).
      rewrite R. apply J; lia.
  - unfold center. destruct (width <=? len cell) eqn:E.
    + apply Z.leb_le in E. auto.
    + apply Z.leb_gt in E. cbv zeta.
      set (marg := width - len cell).
      assert (B : 0 <= Z.land (Z.land marg width) 1 <= 1).
      { rewrite Z.land_ones with (n := 1) by lia.
        change (2 ^ 1) with 2. pose proof (Z.mod_pos_bound (Z.land marg width) 2).
        lia. }
      assert (D : 0 <= marg / 2 /\ (marg = 1 -> marg / 2 = 0)
                  /\ (2 <= marg -> marg / 2 + 1 <= marg)).
      { split; [apply Z.div_pos; lia|]. split.
        - intros ->. reflexivity.
        - intros G. pose proof (Z.div_mod marg 2).
          pose proof (Z.mod_pos_bound marg 2). lia. }
      destruct (Z.eq_dec marg 1) as [M|M].
      * apply J; try lia.
      * apply J; try lia.
  - unfold ljust. destruct (width <=? len cell) eqn:E.
    + apply Z.leb_le in E. auto.
    + apply Z.leb_gt in E.
      change (cell ++ spaces (width - len cell))
        with (spaces 0 ++ cell ++ spaces (width - len cell)).
      apply J; lia.
Qed.


(** ** The column widths of [Table.render] *)

Lemma list_set_length {A} (l : list A) (i : nat) (a : A) :
  List.length (list_set l i a) = List.length l.
Proof.
  revert i. induction l as [|x l IH]; intros [|i]; simpl; auto.
Qed.

Lemma nth_error_list_set {A} (l : list A) (i j : nat) (a : A) :
  (i < List.length l)%nat ->
  nth_error (list_set l i a) j
  = if Nat.eqb i j then Some a else nth_error l j.
Proof.
  revert i j. induction l as [|x l IH]; intros [|i] [|j] H; simpl in *;
    try lia; auto.
  apply IH. lia.
Qed.

Lemma widened_refl (cl : list Z) : widened cl cl.
Proof. split; auto. intros j w H. exists w. split; auto. lia. Qed.

Lemma widened_trans (a b c : list Z) :
  widened a b -> widened b c -> widened a c.
Proof.
  intros [L1 H1] [L2 H2]. split; [congruence|].
  intros j w H. destruct (H1 j w H) as (w1 & E1 & G1).
  destruct (H2 j w1 E1) as (w2 & E2 & G2). exists w2. split; auto. lia.
Qed.

Lemma widened_set (cl : list Z) (i : nat) (w x : Z) :
  nth_error cl i = Some w -> widened cl (list_set cl i (Z.max w x)).
Proof.
  intros H. assert (L : (i < List.length cl)%nat)
    by (apply nth_error_Some; congruence).
  split; [apply list_set_length|].
  intros j w0 H0. rewrite nth_error_list_set by exact L.
  destruct (Nat.eqb_spec i j) as [->|N].
  - exists (Z.max w x). split; auto. assert (w0 = w) by congruence. lia.
  - exists w0. split; auto. lia.
Qed.

Lemma covered_widened (cl cl' : list Z) (row : list str) :
  covered cl row -> widened cl cl' -> covered cl' row.
Proof.
  intros C [_ W] j cell H. destruct (C j cell H) as (w & E & G).
  destruct (W j w E) as (w' & E' & G'). exists w'. split; auto. lia.
Qed.

(** A data row with a column for each of its cells is laid out, and the
    columns grow to hold its cells. *)
Lemma fill_row_ok (rd : list pyval) (i : nat) (row : list str)
    (cl : list Z) :
  (i + List.length rd <= List.length cl)%nat ->
  exists cl',
    Table.fill_row rd i row cl = inr (row ++ map str_of_val rd, cl')
    /\ widened cl cl'
    /\ forall j v, nth_error rd j = Some v ->
         exists w, nth_error cl' (i + j) = Some w
                   /\ text_width (str_of_val v) <= w.
Proof.
  revert i row cl. induction rd as [|v rd IH]; intros i row cl L.
  - cbn [Table.fill_row map]. rewrite app_nil_r. exists cl.
    split; auto. split; [apply widened_refl|].
    intros [|j] ? ?; discriminate.
  - cbn [Table.fill_row]. cbn [List.length] in L.
    destruct (nth_error cl i) as [w|] eqn:N;
      [|apply nth_error_None in N; lia].
    pose proof (widened_set cl i w (text_width (str_of_val v)) N) as W.
    destruct (IH (S i) (row ++ [str_of_val v])
                 (list_set cl i (Z.max w (text_width (str_of_val v)))))
      as (cl' & E & W' & C).
    { rewrite list_set_length. lia. }
    exists cl'. split.
    { rewrite E. cbn [map]. now rewrite <- app_assoc. }
    split; [eapply widened_trans; eauto|].
    intros [|j] v0 Hv; cbn [nth_error] in Hv.
    + injection Hv as <-. rewrite Nat.add_0_r.
      destruct W' as [_ W'].
      destruct (W' i (Z.max w (text_width (str_of_val v)))) as (w' & E' & G').
      { rewrite nth_error_list_set
          by (apply nth_error_Some; congruence).
        now rewrite Nat.eqb_refl. }
      exists w'. split; auto. lia.
    + destruct (C j v0 Hv) as (w' & E' & G').
      exists w'. split; auto. now rewrite Nat.add_succ_r.
Qed.

(** A data row with more cells than there are columns raises
    [IndexError]. *)
Lemma fill_row_long (rd : list pyval) (i : nat) (row : list str)
    (cl : list Z) :
  (List.length cl < i + List.length rd)%nat -> (i <= List.length cl)%nat ->
  Table.fill_row rd i row cl = inl IndexError.
Proof.
  revert i row cl. induction rd as [|v rd IH]; intros i row cl L I.
  - cbn [List.length] in L. lia.
  - cbn [Table.fill_row]. cbn [List.length] in L.
    destruct (nth_error cl i) as [w|] eqn:N; [|reflexivity].
    assert (i < List.length cl)%nat by (apply nth_error_Some; congruence).
    apply IH; rewrite list_set_length; lia.
Qed.

Lemma covered_row0 (cl : list Z) (rd : list pyval) :
  (forall j v, nth_error rd j = Some v ->
     exists w, nth_error cl (0 + j) = Some w
               /\ text_width (str_of_val v) <= w) ->
  covered cl (map str_of_val rd).
Proof.
  intros C j cell H. rewrite nth_error_map in H.
  destruct (nth_error rd j) as [v|] eqn:E; [|discriminate].
  injection H as <-. exact (C j v E).
Qed.

(** Data rows that all fit are laid out in order, and in the end every
    row is covered by the columns. *)
Lemma fill_rows_ok (rows_data : list (list pyval)) (rows : list (list str))
    (cl : list Z) :
  Forall (fun rd => (List.length rd <= List.length cl)%nat) rows_data ->
  Forall (covered cl) rows ->
  exists cl',
    Table.fill_rows rows_data rows cl
    = inr (rows ++ map (map str_of_val) rows_data, cl')
    /\ List.length cl' = List.length cl
    /\ Forall (covered cl') (rows ++ map (map str_of_val) rows_data).
Proof.
  revert rows cl. induction rows_data as [|rd rest IH]; intros rows cl F C.
  - cbn [Table.fill_rows map]. rewrite app_nil_r. exists cl. auto.
  - cbn [Table.fill_rows]. inversion F as [|? ? F1 F2]; subst.
    destruct (fill_row_ok rd 0 [] cl) as (cl1 & E & W & K); [simpl; lia|].
    rewrite E. cbn [app].
    destruct (IH (rows ++ [map str_of_val rd]) cl1) as (cl' & E' & L' & C').
    + destruct W as [W _]. rewrite W. exact F2.
    + apply Forall_app. split.
      * eapply Forall_impl; [|exact C]. intros r Hr.
        eapply covered_widened; eauto.
      * constructor; [|constructor]. now apply covered_row0.
    + exists cl'. cbn [map]. rewrite <- app_assoc in E', C'.
      split; [exact E'|]. split; [|exact C'].
      destruct W as [W _]. congruence.
Qed.

(** As soon as one data row is too long, the second loop raises
    [IndexError]. *)
Lemma fill_rows_long (rows_data : list (list pyval))
    (rows : list (list str)) (cl : list Z) :
  Exists (fun rd => (List.length cl < List.length rd)%nat) rows_data ->
  Table.fill_rows rows_data rows cl = inl IndexError.
Proof.
  revert rows cl. induction rows_data as [|rd rest IH]; intros rows cl X.
  - inversion X.
  - cbn [Table.fill_rows].
    destruct (Nat.leb_spec (List.length rd) (List.length cl)) as [L|L].
    + destruct (fill_row_ok rd 0 [] cl) as (cl1 & E & W & K); [simpl; lia|].
      rewrite E. inversion X as [? ? B|? ? B]; subst; [lia|].
      apply IH. destruct W as [W _]. rewrite W. exact B.
    + rewrite fill_row_long; [reflexivity|simpl; lia|lia].
Qed.

(** ** The cells that [Table.render] prints *)

Lemma pad_row_ok (self : Table.t) (cl : list Z) (row : list str) (i : nat)
    (vals : list str) :
  (forall j cell, nth_error row j = Some cell ->
     exists w, nth_error cl (i + j) = Some w /\ text_width cell <= w) ->
  exists vs,
    Table.pad_row self cl row i vals = inr (vals ++ vs)
    /\ Forall2 padded_from row vs
    /\ forall j v, nth_error vs j = Some v ->
         nth_error cl (i + j) = Some (text_width v).
Proof.
  revert i vals. induction row as [|cell rest IH]; intros i vals C.
  - exists []. cbn [Table.pad_row]. rewrite app_nil_r.
    split; auto. split; [constructor|]. intros [|j] ? ?; discriminate.
  - cbn [Table.pad_row].
    destruct (C 0%nat cell eq_refl) as (w & N & G).
    rewrite Nat.add_0_r in N.
    destruct (pad_cell_width self cl i cell w N G) as (v & E & Wv & P).
    rewrite E.
    destruct (IH (S i) (vals ++ [v])) as (vs & E' & F & K).
    { intros j c Hc. specialize (C (S j) c Hc).
      now rewrite Nat.add_succ_r in C. }
    exists (v :: vs). split.
    { rewrite E'. now rewrite <- app_assoc. }
    split; [constructor; auto|].
    intros [|j] v0 H0; cbn [nth_error] in H0.
    + injection H0 as <-. rewrite Nat.add_0_r. congruence.
    + rewrite Nat.add_succ_r. exact (K j v0 H0).
Qed.

(** The third loop never raises on rows that the columns cover. *)
Lemma print_rows_ok (self : Table.t) (cl : list Z) (rows : list (list str))
    (printed : list str) :
  Forall (covered cl) rows ->
  exists cells,
    Table.print_rows self cl rows printed
    = (printed ++ map (Table.print_row self) cells, inr tt)
    /\ Forall2 (Forall2 padded_from) rows cells
    /\ Forall (fits cl) cells.
Proof.
  revert printed. induction rows as [|row rest IH]; intros printed C.
  - exists []. cbn [Table.print_rows map]. rewrite app_nil_r.
    split; auto.
  - inversion C as [|? ? C1 C2]; subst. cbn [Table.print_rows].
    destruct (pad_row_ok self cl row 0 []) as (vs & E & F & K).
    { intros j cell H. exact (C1 j cell H). }
    rewrite E. cbn [app].
    destruct (IH (printed ++ [Table.print_row self vs]) C2)
      as (cells & E' & F' & K').
    exists (vs :: cells). split.
    { rewrite E'. cbn [map]. now rewrite <- app_assoc. }
    split; constructor; auto.
Qed.

Lemma covered_header (cols : list str) :
  covered (map text_width cols) cols.
Proof.
  intros j cell H. exists (text_width cell). split; [|lia].
  rewrite nth_error_map, H. reflexivity.
Qed.


Lemma overflows_dec (self : Table.t) : {overflows self} + {~ overflows self}.
Proof.
  unfold overflows.
  destruct (Exists_dec
              (fun rd => (Table.columns self < List.length rd)%nat)
              (Table.data self)) as [X|X].
  { intros rd. destruct (lt_dec (Table.columns self) (List.length rd)); auto. }
  - left. right. exact X.
  - destruct (Table.header self) as [cols|].
    + right. intros [[A _]|B]; [discriminate|auto].
    + destruct (Table.data self) as [|row0 rest].
      * left. left. auto.
      * right. intros [[_ A]|B]; [discriminate|auto].
Qed.

Lemma render_layout (self : Table.t) :
  ~ overflows self ->
  exists cells widths,
    Table.render self = (map (Table.print_row self) cells, inr tt)
    /\ Forall2 (Forall2 padded_from) (Table.texts self) cells
    /\ Forall (fits widths) cells.
Proof.
  intros NO.
  assert (F : forall n, n = Table.columns self ->
            Forall (fun rd => (List.length rd <= n)%nat) (Table.data self)).
  { intros n ->. apply Forall_forall. intros rd I.
    destruct (Nat.leb_spec (List.length rd) (Table.columns self)); auto.
    exfalso. apply NO. right. apply Exists_exists. eauto. }
  unfold Table.render, Table.start, Table.texts.
  unfold Table.columns in F.
  destruct (Table.header self) as [cols|] eqn:H.
  - destruct (fill_rows_ok (Table.data self) [cols] (map text_width cols))
      as (cl & E & L & C).
    { apply F. now rewrite length_map. }
    { constructor; [apply covered_header|constructor]. }
    rewrite E.
    destruct (print_rows_ok self cl _ [] C) as (cells & E' & F' & K').
    exists cells, cl. auto.
  - destruct (Table.data self) as [|row0 rest] eqn:D.
    { exfalso. apply NO. left. auto. }
    rewrite <- D in *.
    destruct (fill_rows_ok (Table.data self) []
                           (repeat 0 (List.length row0)))
      as (cl & E & L & C).
    { apply F. rewrite repeat_length, D. reflexivity. }
    { constructor. }
    rewrite E.
    destruct (print_rows_ok self cl _ [] C) as (cells & E' & F' & K').
    exists cells, cl. auto.
Qed.

Lemma render_overflow (self : Table.t) :
  overflows self -> Table.render self = ([], inl IndexError).
Proof.
  unfold overflows, Table.render, Table.start, Table.columns.
  intros [[H D]|X].
  - rewrite H, D. reflexivity.
  - destruct (Table.header self) as [cols|].
    + rewrite fill_rows_long; [reflexivity|]. now rewrite length_map.
    + destruct (Table.data self) as [|row0 rest] eqn:D; [inversion X|].
      cbn [hd] in X. rewrite fill_rows_long; [reflexivity|].
      rewrite repeat_length. exact X.
Qed.

(** X13. When there is a header or a data row, and no data row has more
    cells than there are columns, [render] ends normally.  It prints one
    line for the header, if any, and one for each data row, in order;
    every cell is its text with blanks added around it, and all the
    cells of one column have the same visual width. *)
Theorem render_aligned (self : Table.t) :
  ~ overflows self ->
  exists cells widths,
    Table.render self = (map (Table.print_row self) cells, inr tt)
    /\ Forall2 (Forall2 padded_from) (Table.texts self) cells
    /\ Forall (fits widths) cells.
Proof. exact (render_layout self). Qed.

Lemma render_aligned_witness :
  ~ overflows sample_table
  /\ exists cells widths,
       Table.render sample_table
       = (map (Table.print_row sample_table) cells, inr tt)
       /\ Forall2 (Forall2 padded_from) (Table.texts sample_table) cells
       /\ Forall (fits widths) cells.
Proof.
  assert (N : ~ overflows sample_table).
  { intros [[A _]|B]; [discriminate|].
    apply Exists_exists in B. destruct B as (rd & I & L).
    destruct I as [<-|[<-|[]]]; vm_compute in L; lia. }
  split; [exact N|]. apply (render_aligned sample_table). exact N.
Defined.

(** X14. [render] raises exactly when there is neither a header nor a
    data row, or when a data row has more cells than there are columns.
    The error is then [IndexError], and nothing is printed: no line of a
    table is written before all rows have been measured. *)
Theorem render_raises (self : Table.t) (out : list str) (e : exn) :
  Table.render self = (out, inl e) <->
  overflows self /\ out = [] /\ e = IndexError.
Proof.
  split.
  - intros R. destruct (overflows_dec self) as [O|N].
    + rewrite (render_overflow self O) in R.
      injection R as <- <-. auto.
    + destruct (render_layout self N) as (cells & widths & E & _).
      rewrite E in R. discriminate.
  - intros (O & -> & ->). now apply render_overflow.
Qed.


(** * yn_input *)

Lemma lower_char_yn (c : ascii) :
  char_eqb (lower_char c) "y" = (char_eqb c "y" || char_eqb c "Y")
  /\ char_eqb (lower_char c) "n" = (char_eqb c "n" || char_eqb c "N").
Proof. char_cases c; split; reflexivity. Qed.

(** The tests of the loop body, read on the line as it was typed. *)
Lemma yn_tests (line : str) :
  str_eqb (lower line) (lit "y")
  = (str_eqb line (lit "y") || str_eqb line (lit "Y"))
  /\ str_eqb (lower line) (lit "n")
     = (str_eqb line (lit "n") || str_eqb line (lit "N"))
  /\ str_eqb (lower line) [] = str_eqb line [].
Proof.
  destruct line as [|c [|d r]]; [repeat split| |].
  - destruct (lower_char_yn c) as [Y N].
    unfold lower. cbn [map lit list_ascii_of_string str_eqb].
    rewrite Y, N. repeat split;
      destruct (char_eqb c "y"), (char_eqb c "Y"),
        (char_eqb c "n"), (char_eqb c "N"); reflexivity.
  - unfold lower. cbn [map lit list_ascii_of_string str_eqb].
    rewrite !andb_false_r. repeat split.
Qed.

Lemma yn_loop_skip (prompt default line : str) (rest out : list str) :
  reply default line = None ->
  yn_loop prompt default (line :: rest) out
  = yn_loop prompt default rest (out ++ [prompt]).
Proof.
  intros R. unfold reply in R. cbn [yn_loop].
  destruct (yn_tests line) as (Y & N & E). rewrite Y, N, E.
  destruct (str_eqb line (lit "y") || str_eqb line (lit "Y"));
    [discriminate|].
  destruct (str_eqb line (lit "n") || str_eqb line (lit "N"));
    [discriminate|].
  destruct (str_eqb line []); [discriminate|reflexivity].
Qed.

Lemma yn_loop_reply (prompt default line : str) (rest out : list str)
    (b : bool) :
  reply default line = Some b ->
  yn_loop prompt default (line :: rest) out
  = (Console.mk rest (out ++ [prompt]), inr b).
Proof.
  intros R. unfold reply in R. cbn [yn_loop].
  destruct (yn_tests line) as (Y & N & E). rewrite Y, N, E.
  destruct (str_eqb line (lit "y") || str_eqb line (lit "Y"));
    [congruence|].
  destruct (str_eqb line (lit "n") || str_eqb line (lit "N"));
    [congruence|].
  destruct (str_eqb line []); [congruence|discriminate].
Qed.

Lemma repeat_snoc {A} (a : A) (n : nat) :
  repeat a n ++ [a] = repeat a (S n).
Proof. induction n as [|n IH]; [reflexivity|]. cbn [repeat app]. now rewrite IH. Qed.

Lemma yn_loop_skips (prompt default : str) (skipped rest out : list str) :
  Forall (fun s => reply default s = None) skipped ->
  yn_loop prompt default (skipped ++ rest) out
  = yn_loop prompt default rest
            (out ++ repeat prompt (List.length skipped)).
Proof.
  revert out. induction skipped as [|s skipped IH]; intros out F.
  - cbn [app List.length repeat]. now rewrite app_nil_r.
  - inversion F as [|? ? F1 F2]; subst. cbn [app].
    rewrite (yn_loop_skip _ _ _ _ _ F1), (IH _ F2), <- app_assoc.
    reflexivity.
Qed.

(** X15. [yn_input] asks again until a line is [y], [Y], [n], [N] or
    empty, and that line decides: yes, no, or for the empty line whether
    the default is the text [y].  Every line before it is dropped, the
    lines after it are left for the next read, and the prompt, with its
    hint, has been written once for each line read. *)
Theorem yn_input_answer (prompt default : str) (skipped : list str)
    (line : str) (rest out : list str) (b : bool) :
  Forall (fun s => reply default s = None) skipped ->
  reply default line = Some b ->
  yn_input prompt default (Console.mk (skipped ++ line :: rest) out)
  = (Console.mk rest
       (out ++ repeat (yn_prompt prompt default) (S (List.length skipped))),
     inr b).
Proof.
  intros F R. unfold yn_input. cbn [Console.stdin Console.stdout].
  rewrite (yn_loop_skips _ _ _ _ _ F), (yn_loop_reply _ _ _ _ _ _ R).
  now rewrite <- app_assoc, repeat_snoc.
Qed.

Lemma yn_input_answer_witness :
  yn_input (lit "Enable API integration? (recommended)") (lit "y")
           (Console.mk [lit "yes"; lit "what"; []; lit "n"] [])
  = (Console.mk [lit "n"]
       ([] ++ repeat (yn_prompt (lit "Enable API integration? (recommended)")
                                (lit "y")) 3),
     inr true).
Proof.
  apply (yn_input_answer _ (lit "y") [lit "yes"; lit "what"] [] [lit "n"]).
  - repeat constructor.
  - reflexivity.
Defined.

(** X16. When no line of the input is an answer, [yn_input] reads all of
    it, writes the prompt once more and ends with [EOFError]: it returns
    no value, whatever the default. *)
Theorem yn_input_eof (prompt default : str) (lines out : list str) :
  Forall (fun s => reply default s = None) lines ->
  yn_input prompt default (Console.mk lines out)
  = (Console.mk []
       (out ++ repeat (yn_prompt prompt default) (S (List.length lines))),
     inl Console.EOFError).
Proof.
  intros F. unfold yn_input. cbn [Console.stdin Console.stdout].
  rewrite <- (app_nil_r lines) at 1.
  rewrite (yn_loop_skips _ _ _ _ _ F). cbn [yn_loop].
  now rewrite <- app_assoc, repeat_snoc.
Qed.

Lemma yn_input_eof_witness :
  yn_input (lit "Require a password for players to join?") (lit "n")
           (Console.mk [lit "yes"; lit "no"] [])
  = (Console.mk []
       ([] ++ repeat (yn_prompt (lit "Require a password for players to join?")
                                (lit "n")) 3),
     inl Console.EOFError).
Proof.
  apply (yn_input_eof _ (lit "n") [lit "yes"; lit "no"]).
  repeat constructor.
Defined.

(** * The placeholders of discord_alert *)

Lemma count_skip_nonneg (sub s : str) (skip : nat) : 0 <= count_skip sub s skip.
Proof.
  revert skip. induction s as [|c s IH]; intros skip; cbn [count_skip];
    [lia|].
  destruct skip; [|apply IH].
  destruct (startswith sub (c :: s)); [|apply IH].
  specialize (IH (List.length sub - 1)%nat). lia.
Qed.

(** A text that starts with a blank adds its own placeholders to those of
    the text it is appended to: no placeholder spans the seam. *)
Lemma count_skip_app (m t : str) (skip : nat) :
  (skip <= List.length m)%nat ->
  count_skip (lit "%s") (m ++ " "%char :: t) skip
  = count_skip (lit "%s") m skip + count_skip (lit "%s") (" "%char :: t) 0.
Proof.
  remember (count_skip (lit "%s") (" "%char :: t) 0) as u eqn:U.
  revert skip. induction m as [|c m IH]; intros skip L.
  - cbn [List.length] in L. assert (skip = 0%nat) by lia. subst.
    cbn [app]. change (count_skip (lit "%s") [] 0) with 0. lia.
  - cbn [app count_skip]. destruct skip as [|k].
    + assert (S : startswith (lit "%s") (c :: m ++ " "%char :: t)
                  = startswith (lit "%s") (c :: m)).
      { destruct m as [|d m]; cbn [app lit list_ascii_of_string startswith].
        - change (char_eqb "s" " ") with false.
          now rewrite !andb_false_r.
        - reflexivity. }
      rewrite S. destruct (startswith (lit "%s") (c :: m)) eqn:W.
      * change (List.length (lit "%s") - 1)%nat with 1%nat.
        rewrite IH; [lia|].
        destruct m; [|cbn [List.length]; lia].
        cbn [lit list_ascii_of_string startswith] in W.
        rewrite andb_false_r in W. discriminate.
      * apply IH. lia.
    + apply IH. cbn [List.length] in L. lia.
Qed.

Lemma count_str_mul (k : nat) :
  count (str_mul (lit " %s") (Z.of_nat k)) (lit "%s") = Z.of_nat k.
Proof.
  unfold count, str_mul. rewrite Nat2Z.id.
  induction k as [|k IH]; [reflexivity|].
  cbn [repeat List.concat]. change (lit " %s") with [" "%char; "%"%char; "s"%char].
  cbn [app]. change [" "%char; "%"%char; "s"%char] with (lit " %s").
  set (r := List.concat (repeat (lit " %s") k)) in *.
  change (count_skip (lit "%s") (" "%char :: "%"%char :: "s"%char :: r) 0)
    with (1 + count_skip (lit "%s") r 0).
  lia.
Qed.

Lemma count_padded (m : str) (k : nat) :
  count (m ++ str_mul (lit " %s") (Z.of_nat k)) (lit "%s")
  = count m (lit "%s") + Z.of_nat k.
Proof.
  destruct k as [|k].
  - change (str_mul (lit " %s") (Z.of_nat 0)) with (@nil ascii).
    rewrite app_nil_r. lia.
  - pose proof (count_str_mul (S k)) as C. unfold count, str_mul in *.
    rewrite Nat2Z.id in *. cbn [repeat List.concat] in *.
    set (r := List.concat (repeat (lit " %s") k)) in *.
    change (lit " %s" ++ r)
      with (" "%char :: "%"%char :: "s"%char :: r) in *.
    rewrite count_skip_app by lia. now rewrite C.
Qed.

(** X17. After the padding of [discord_alert] a message holds as many
    [%s] as before or as there are parameters, whichever is more.  The
    message is only ever extended at its end, by [ %s] a number of
    times, and it is left as it is when it has enough placeholders. *)
Theorem placeholders_padded {A} (message : str) (parameters : list A) :
  let padded := pad_placeholders message (Some parameters) in
  count padded (lit "%s")
  = Z.max (count message (lit "%s")) (Z.of_nat (List.length parameters))
  /\ (exists k, padded = message ++ str_mul (lit " %s") (Z.of_nat k))
  /\ (Z.of_nat (List.length parameters) <= count message (lit "%s") ->
      padded = message).
Proof.
  cbn zeta. unfold pad_placeholders.
  pose proof (count_skip_nonneg (lit "%s") message 0) as P.
  fold (count message (lit "%s")) in P.
  destruct (Z.ltb_spec (count message (lit "%s"))
                       (Z.of_nat (List.length parameters))) as [L|L].
  - set (d := Z.of_nat (List.length parameters) - count message (lit "%s")).
    assert (D : d = Z.of_nat (Z.to_nat d)) by (unfold d; lia).
    rewrite D, count_padded. split; [unfold d in *; lia|].
    split; [eauto|]. lia.
  - split; [lia|]. split; [|reflexivity].
    exists 0%nat. change (str_mul (lit " %s") (Z.of_nat 0)) with (@nil ascii).
    now rewrite app_nil_r.
Qed.

(** * The player list of menu_watch *)

Lemma str_eq_dec (a b : str) : {a = b} + {a <> b}.
Proof.
  destruct (str_eqb a b) eqn:E.
  - left. now apply str_eqb_eq.
  - right. now apply str_eqb_neq.
Qed.

Lemma mem_In (x : str) (l : list str) : list_mem x l = true <-> In x l.
Proof.
  unfold list_mem. rewrite existsb_exists. split.
  - intros (y & I & E). apply str_eqb_eq in E. now subst.
  - intros I. exists x. split; [exact I|apply str_eqb_refl].
Qed.

Lemma mem_not_In (x : str) (l : list str) :
  list_mem x l = false <-> ~ In x l.
Proof.
  rewrite <- mem_In. destruct (list_mem x l); split; congruence.
Qed.

Lemma lv_get_set (d : Watch.levels) (k n : str) (v : Z) :
  Watch.lv_get (Watch.lv_set d k v) n
  = if str_eqb k n then Some v else Watch.lv_get d n.
Proof.
  induction d as [|[k' v'] d IH]; cbn [Watch.lv_set Watch.lv_get].
  - reflexivity.
  - destruct (str_eqb k' k) eqn:E; cbn [Watch.lv_get].
    + apply str_eqb_eq in E. subst k'.
      now destruct (str_eqb k n).
    + destruct (str_eqb k' n) eqn:F; [|exact IH].
      apply str_eqb_eq in F. subst k'.
      assert (G : str_eqb k n = false).
      { apply str_eqb_neq. apply str_eqb_neq in E. congruence. }
      now rewrite G.
Qed.

Lemma lv_get_filter (d : Watch.levels) (k n : str) :
  Watch.lv_get (filter (fun e => negb (str_eqb (fst e) k)) d) n
  = if str_eqb k n then None else Watch.lv_get d n.
Proof.
  induction d as [|[k' v'] d IH]; cbn [filter Watch.lv_get fst].
  - now destruct (str_eqb k n).
  - destruct (str_eqb k' k) eqn:E; cbn [negb Watch.lv_get].
    + apply str_eqb_eq in E. subst k'. rewrite IH.
      now destruct (str_eqb k n).
    + rewrite IH. destruct (str_eqb k' n) eqn:F; [|reflexivity].
      apply str_eqb_eq in F. subst k'.
      assert (G : str_eqb k n = false).
      { apply str_eqb_neq. apply str_eqb_neq in E. congruence. }
      now rewrite G.
Qed.

Lemma list_remove_In (x : str) (l : list str) :
  NoDup l ->
  forall n, In n (list_remove x l) <-> In n l /\ n <> x.
Proof.
  induction l as [|y l IH]; intros N n; cbn [list_remove].
  - simpl. tauto.
  - inversion N as [|? ? N1 N2]; subst.
    destruct (str_eqb y x) eqn:E.
    + apply str_eqb_eq in E. subst y. simpl. split.
      * intros I. split; [auto|]. intros ->. contradiction.
      * intros [[->|I] D]; [congruence|exact I].
    + apply str_eqb_neq in E. simpl. rewrite (IH N2). split.
      * intros [->|[I D]]; auto.
      * intros [[->|I] D]; auto.
Qed.

Lemma list_remove_NoDup (x : str) (l : list str) :
  NoDup l -> NoDup (list_remove x l).
Proof.
  induction l as [|y l IH]; intros N; cbn [list_remove]; [exact N|].
  inversion N as [|? ? N1 N2]; subst.
  destruct (str_eqb y x); [exact N2|].
  constructor; [|auto]. rewrite (list_remove_In x l N2). tauto.
Qed.

Lemma list_remove_length (x : str) (l : list str) :
  (List.length (list_remove x l) <= List.length l)%nat.
Proof.
  induction l as [|y l IH]; cbn [list_remove List.length]; [lia|].
  destruct (str_eqb y x); cbn [List.length]; lia.
Qed.

Lemma list_remove_mid (p : str) (kept rest : list str) :
  ~ In p kept -> list_remove p (kept ++ p :: rest) = kept ++ rest.
Proof.
  induction kept as [|y kept IH]; intros N; cbn [app list_remove].
  - now rewrite str_eqb_refl.
  - assert (E : str_eqb y p = false).
    { apply str_eqb_neq. intros ->. apply N. now left. }
    rewrite E, IH; [reflexivity|]. intros I. apply N. now right.
Qed.

(** The three changes of the state keep every tracked name with a
    level. *)
Lemma tracked_join (st : Watch.state) (n : str) (v : Z) :
  Watch.tracked st -> ~ In n (Watch.players st) ->
  Watch.tracked
    (Watch.mk_state (Watch.players st ++ [n])
                    (Watch.lv_set (Watch.player_levels st) n v)).
Proof.
  intros [N T] I. split; cbn [Watch.players Watch.player_levels].
  - apply NoDup_app; [exact N|repeat constructor; simpl; tauto|].
    intros a Ia [<-|[]]. contradiction.
  - intros m. rewrite lv_get_set, in_app_iff.
    destruct (str_eqb n m) eqn:E.
    + apply str_eqb_eq in E. subst m. simpl. split; [discriminate|auto].
    + apply str_eqb_neq in E. rewrite <- T. simpl. tauto.
Qed.

Lemma tracked_level (st : Watch.state) (n : str) (v : Z) :
  Watch.tracked st -> In n (Watch.players st) ->
  Watch.tracked
    (Watch.mk_state (Watch.players st)
                    (Watch.lv_set (Watch.player_levels st) n v)).
Proof.
  intros [N T] I. split; cbn [Watch.players Watch.player_levels];
    [exact N|].
  intros m. rewrite lv_get_set. destruct (str_eqb n m) eqn:E.
  - apply str_eqb_eq in E. subst m. split; [discriminate|auto].
  - apply T.
Qed.

Lemma tracked_leave (st : Watch.state) (p : str) :
  Watch.tracked st -> In p (Watch.players st) ->
  exists lv,
    Watch.lv_del (Watch.player_levels st) p = inr lv
    /\ Watch.tracked
         (Watch.mk_state (list_remove p (Watch.players st)) lv).
Proof.
  intros [N T] I. unfold Watch.lv_del.
  destruct (Watch.lv_get (Watch.player_levels st) p) eqn:G.
  2:{ apply T in I. contradiction. }
  eexists. split; [reflexivity|].
  split; cbn [Watch.players Watch.player_levels].
  - now apply list_remove_NoDup.
  - intros m. rewrite lv_get_filter, (list_remove_In p _ N).
    destruct (str_eqb p m) eqn:E.
    + apply str_eqb_eq in E. subst m. split; [tauto|congruence].
    + apply str_eqb_neq in E. rewrite <- T. split; [tauto|].
      intros K. split; [exact K|congruence].
Qed.

(** The first loop on a state that keeps track: it ends normally, every
    name of the list is tracked afterwards, and a name is announced as
    joined exactly when it is new. *)
Lemma scan_ok (data : list Watch.player) (cur : list str)
    (st : Watch.state) (alerts : list Watch.alert) :
  Watch.tracked st ->
  exists new st',
    Watch.scan data cur st alerts
    = (alerts ++ new, inr (cur ++ map Watch.name data, st'))
    /\ Watch.tracked st'
    /\ (forall n, In n (Watch.players st')
                  <-> In n (Watch.players st) \/ In n (map Watch.name data))
    /\ (forall n, In (Watch.alert_joined n) new
                  <-> In n (map Watch.name data)
                      /\ ~ In n (Watch.players st))
    /\ (forall n, ~ In (Watch.alert_left n) new).
Proof.
  revert cur st alerts. induction data as [|p rest IH]; intros cur st alerts T.
  - exists [], st. cbn [Watch.scan map]. rewrite !app_nil_r.
    split; [reflexivity|]. split; [exact T|]. simpl. tauto.
  - cbn [Watch.scan map].
    destruct (list_mem (Watch.name p) (Watch.players st)) eqn:M;
      cbn [negb].
    + (* already tracked *)
      apply mem_In in M. pose proof T as [_ T2].
      destruct (Watch.lv_get (Watch.player_levels st) (Watch.name p))
        as [l|] eqn:G; [|apply T2 in M; contradiction].
      destruct (Z.eqb l (Watch.level p)); cbn [negb].
      * destruct (IH (cur ++ [Watch.name p]) st alerts T)
          as (new & st' & E & T' & P & J & L).
        exists new, st'. rewrite E, <- app_assoc. split; [reflexivity|].
        split; [exact T'|]. split; [|split; [|exact L]].
        -- intros n. rewrite P. simpl. split; [tauto|].
           intros [H|[<-|H]]; auto.
        -- intros n. rewrite J. simpl. split; [tauto|].
           intros [[<-|H] K]; [contradiction|auto].
      * destruct (IH (cur ++ [Watch.name p]) _
                     (alerts ++ [Watch.alert_leveled_up (Watch.name p)
                                                        (Watch.level p)])
                     (tracked_level st (Watch.name p) (Watch.level p) T M))
          as (new & st' & E & T' & P & J & L).
        cbn [Watch.players] in P, J.
        exists (Watch.alert_leveled_up (Watch.name p) (Watch.level p) :: new),
          st'.
        rewrite E, <- !app_assoc. split; [reflexivity|].
        split; [exact T'|]. split; [|split].
        -- intros n. rewrite P. simpl. split; [tauto|].
           intros [H|[<-|H]]; auto.
        -- intros n. simpl. rewrite J. split.
           ++ intros [H|H]; [discriminate|tauto].
           ++ intros [[<-|H] K]; [contradiction|auto].
        -- intros n [H|H]; [discriminate|exact (L n H)].
    + (* a new name *)
      apply mem_not_In in M. cbn [Watch.player_levels Watch.players].
      rewrite lv_get_set, str_eqb_refl, Z.eqb_refl. cbn [negb].
      destruct (IH (cur ++ [Watch.name p]) _
                   (alerts ++ [Watch.alert_joined (Watch.name p)])
                   (tracked_join st (Watch.name p) (Watch.level p) T M))
        as (new & st' & E & T' & P & J & L).
      cbn [Watch.players] in P, J.
      exists (Watch.alert_joined (Watch.name p) :: new), st'.
      rewrite E, <- !app_assoc. split; [reflexivity|].
      split; [exact T'|]. split; [|split].
      * intros n. rewrite P, in_app_iff. simpl. tauto.
      * intros n. simpl. rewrite J, in_app_iff. simpl. split.
        -- intros [H|H].
           ++ injection H as <-. auto.
           ++ tauto.
        -- intros [[<-|H] K]; [now left|].
           destruct (str_eq_dec (Watch.name p) n) as [<-|D]; [now left|].
           right. tauto.
      * intros n [H|H]; [discriminate|exact (L n H)].
Qed.

(** The second loop on a state that keeps track: with a round for each
    tracked name it comes to its end, normally; it only removes names,
    none that was seen in the list, and it announces only names that it
    removes. *)
Lemma sweep_ok (fuel i : nat) (cur : list str) (st : Watch.state)
    (alerts : list Watch.alert) :
  Watch.tracked st ->
  (List.length (Watch.players st) <= fuel + i)%nat ->
  exists new st',
    Watch.sweep fuel i cur st alerts = Some (alerts ++ new, inr st')
    /\ Watch.tracked st'
    /\ (forall n, In n (Watch.players st') -> In n (Watch.players st))
    /\ (forall n, In n (Watch.players st) -> In n cur ->
                  In n (Watch.players st'))
    /\ (forall a, In a new ->
          exists n, a = Watch.alert_left n /\ In n (Watch.players st)
                    /\ ~ In n cur /\ ~ In n (Watch.players st')).
Proof.
  revert i st alerts. induction fuel as [|fuel IH]; intros i st alerts T L.
  - exists [], st. rewrite app_nil_r.
    assert (N : nth_error (Watch.players st) i = None)
      by (apply nth_error_None; lia).
    cbn [Watch.sweep]. rewrite N. split; [reflexivity|].
    split; [exact T|]. simpl. tauto.
  - cbn [Watch.sweep].
    destruct (nth_error (Watch.players st) i) as [p|] eqn:N.
    2:{ exists [], st. rewrite app_nil_r. split; [reflexivity|].
        split; [exact T|]. simpl. tauto. }
    assert (I : In p (Watch.players st)) by (eapply nth_error_In; eauto).
    destruct (list_mem p cur) eqn:M; cbn [negb].
    + destruct (IH (S i) st alerts T) as (new & st' & E & R); [lia|].
      exists new, st'. split; [exact E|exact R].
    + apply mem_not_In in M.
      destruct (tracked_leave st p T I) as (lv & D & T1). rewrite D.
      destruct (IH (S i) _ (alerts ++ [Watch.alert_left p]) T1)
        as (new & st' & E & T' & P & Q & A).
      { cbn [Watch.players].
        pose proof (list_remove_length p (Watch.players st)). lia. }
      cbn [Watch.players] in P, Q, A. destruct T as [ND _].
      assert (Gone : ~ In p (Watch.players st')).
      { intros H. apply P in H.
        rewrite (list_remove_In p _ ND) in H. tauto. }
      exists (Watch.alert_left p :: new), st'.
      rewrite E, <- app_assoc. split; [reflexivity|].
      split; [exact T'|]. split; [|split].
      * intros n H. apply P in H.
        rewrite (list_remove_In p _ ND) in H. tauto.
      * intros n H C. apply Q; [|exact C].
        rewrite (list_remove_In p _ ND). split; [exact H|].
        intros ->. contradiction.
      * intros a [<-|H].
        -- exists p. auto.
        -- destruct (A a H) as (n & -> & H1 & H2 & H3).
           rewrite (list_remove_In p _ ND) in H1.
           exists n. tauto.
Qed.

Lemma pair_ind {A} (P : list A -> Prop) :
  P [] -> (forall a, P [a]) -> (forall a b l, P l -> P (a :: b :: l)) ->
  forall l, P l.
Proof.
  intros P0 P1 P2.
  assert (H : forall l, P l /\ forall a, P (a :: l)).
  { induction l as [|b l [IH1 IH2]]; split; auto. }
  intros l. apply H.
Qed.

Lemma nth_error_mid {A} (kept : list A) (a : A) (rest : list A) :
  nth_error (kept ++ a :: rest) (List.length kept) = Some a.
Proof.
  rewrite nth_error_app2 by lia. now rewrite Nat.sub_diag.
Qed.

Lemma sweep_end (fuel i : nat) (cur : list str) (st : Watch.state)
    (alerts : list Watch.alert) :
  nth_error (Watch.players st) i = None ->
  Watch.sweep fuel i cur st alerts = Some (alerts, inr st).
Proof. intros N. destruct fuel; cbn [Watch.sweep]; now rewrite N. Qed.

(** The second loop when nobody is in the list: from the position of the
    iterator on, every other name is removed and announced, and the
    names between them are passed over. *)
Lemma sweep_all_left (todo : list str) :
  forall (kept : list str) (lv : Watch.levels) (alerts : list Watch.alert)
         (fuel : nat),
    NoDup (kept ++ todo) ->
    (forall n, In n todo -> Watch.lv_get lv n <> None) ->
    (List.length todo <= fuel)%nat ->
    exists lv',
      Watch.sweep fuel (List.length kept) []
                  (Watch.mk_state (kept ++ todo) lv) alerts
      = Some (alerts ++ map Watch.alert_left (evens todo),
              inr (Watch.mk_state (kept ++ odds todo) lv')).
Proof.
  induction todo as [|a|a b l IH] using pair_ind;
    intros kept lv alerts fuel N G L.
  - exists lv. rewrite sweep_end.
    + cbn [evens odds map]. now rewrite !app_nil_r.
    + cbn [Watch.players]. apply nth_error_None. rewrite app_nil_r. lia.
  - destruct fuel as [|fuel]; [simpl in L; lia|].
    cbn [Watch.sweep Watch.players Watch.player_levels].
    rewrite nth_error_mid. cbn [list_mem existsb negb].
    unfold Watch.lv_del.
    destruct (Watch.lv_get lv a) eqn:E; [|exfalso; apply (G a); simpl; auto].
    rewrite list_remove_mid.
    2:{ apply NoDup_remove_2 in N. rewrite app_nil_r in N. exact N. }
    eexists. rewrite sweep_end; [reflexivity|].
    cbn [Watch.players]. apply nth_error_None. rewrite app_nil_r. lia.
  - destruct fuel as [|fuel]; [simpl in L; lia|].
    cbn [Watch.sweep Watch.players Watch.player_levels].
    rewrite nth_error_mid. cbn [list_mem existsb negb].
    unfold Watch.lv_del.
    destruct (Watch.lv_get lv a) eqn:E; [|exfalso; apply (G a); simpl; auto].
    pose proof (NoDup_remove_1 _ _ _ N) as N1.
    pose proof (NoDup_remove_2 _ _ _ N) as N2.
    rewrite list_remove_mid by (intros I; apply N2, in_or_app; auto).
    set (lv1 := filter (fun e => negb (str_eqb (fst e) a)) lv).
    destruct (IH (kept ++ [b]) lv1 (alerts ++ [Watch.alert_left a]) fuel)
      as (lv' & R).
    + now rewrite <- app_assoc.
    + intros n I. unfold lv1. rewrite lv_get_filter.
      assert (D : str_eqb a n = false).
      { apply str_eqb_neq. intros <-. apply N2, in_or_app. simpl. auto. }
      rewrite D. apply G. simpl. auto.
    + simpl in L. lia.
    + exists lv'. rewrite length_app in R. cbn [List.length] in R.
      rewrite Nat.add_1_r, <- !app_assoc in R. exact R.
Qed.

(** X18. A round of the loop on a state in which every tracked name is
    there once and has a level, as the empty state of the start is, ends
    normally: no [KeyError] at [player_levels[...]] or at the [del], for
    any list of the API or none, and the state it leaves is again such a
    state. *)
Theorem track_keeps_levels (data : option (list Watch.player))
    (st : Watch.state) :
  Watch.tracked st ->
  exists alerts st',
    Watch.track data st = Some (alerts, inr st') /\ Watch.tracked st'.
Proof.
  intros T. destruct data as [data|]; cbn [Watch.track]; [|eauto].
  destruct (scan_ok data [] st [] T) as (new & st1 & E & T1 & _).
  rewrite E.
  destruct (sweep_ok (List.length (Watch.players st1)) 0
                     ([] ++ map Watch.name data) st1 ([] ++ new) T1)
    as (new' & st' & E' & T' & _); [lia|].
  eauto.
Qed.

Lemma track_keeps_levels_witness :
  exists alerts st',
    Watch.track (Some [Watch.mk_player (lit "ann") 3;
                       Watch.mk_player (lit "bob") 7]) Watch.empty
    = Some (alerts, inr st')
    /\ Watch.tracked st'.
Proof.
  apply (track_keeps_levels _ Watch.empty). split.
  - constructor.
  - simpl. intros n. split; [intros []|intros H; now apply H].
Defined.

(** X19. When the API lists nobody, of the tracked names only every other
    one is announced as having left and dropped: the first, the third and
    so on.  The names between them stay tracked for this round, because
    the list is shortened while the loop goes over it. *)
Theorem everyone_left (st : Watch.state) :
  Watch.tracked st ->
  exists lv,
    Watch.track (Some []) st
    = Some (map Watch.alert_left (evens (Watch.players st)),
            inr (Watch.mk_state (odds (Watch.players st)) lv)).
Proof.
  intros [N T]. cbn [Watch.track Watch.scan]. destruct st as [ps lv].
  cbn [Watch.players Watch.player_levels] in *.
  destruct (sweep_all_left ps [] lv [] (List.length ps)) as (lv' & R);
    [exact N| |lia|].
  - intros n I. now apply T.
  - exists lv'. exact R.
Qed.

Lemma everyone_left_witness :
  exists lv,
    Watch.track (Some [])
      (Watch.mk_state [lit "ann"; lit "bob"; lit "cy"]
                      [(lit "ann", 3); (lit "bob", 7); (lit "cy", 1)])
    = Some (map Watch.alert_left [lit "ann"; lit "cy"],
            inr (Watch.mk_state [lit "bob"] lv)).
Proof.
  apply (everyone_left
           (Watch.mk_state [lit "ann"; lit "bob"; lit "cy"]
                           [(lit "ann", 3); (lit "bob", 7); (lit "cy", 1)])).
  split.
  - cbn [Watch.players].
    repeat (constructor; [simpl; intuition discriminate|]). constructor.
  - intros n. cbn [Watch.players Watch.player_levels]. split.
    + intros [<-|[<-|[<-|[]]]]; discriminate.
    + intros H. simpl in H. simpl.
      destruct (str_eq_dec (lit "ann") n) as [E|E]; [auto|].
      destruct (str_eq_dec (lit "bob") n) as [F|F]; [auto|].
      destruct (str_eq_dec (lit "cy") n) as [G|G]; [auto|].
      exfalso. apply H.
      apply str_eqb_neq in E, F, G.
      change (Watch.lv_get
                [(lit "ann", 3); (lit "bob", 7); (lit "cy", 1)] n = None).
      cbn [Watch.lv_get]. now rewrite E, F, G.
Defined.

(** X20. In a round with a list of the API, a name is announced as
    joined exactly when it is in the list and was not tracked; a name
    announced as having left was tracked, is not in the list and is
    tracked no longer; every name of the list is tracked afterwards, and
    no other name is newly tracked. *)
Theorem track_announces (data : list Watch.player) (st : Watch.state) :
  Watch.tracked st ->
  exists alerts st',
    Watch.track (Some data) st = Some (alerts, inr st')
    /\ (forall n, In (Watch.alert_joined n) alerts
                  <-> In n (map Watch.name data)
                      /\ ~ In n (Watch.players st))
    /\ (forall n, In (Watch.alert_left n) alerts ->
                  In n (Watch.players st)
                  /\ ~ In n (map Watch.name data)
                  /\ ~ In n (Watch.players st'))
    /\ (forall n, In n (map Watch.name data) -> In n (Watch.players st'))
    /\ (forall n, In n (Watch.players st') ->
                  In n (Watch.players st) \/ In n (map Watch.name data)).
Proof.
  intros T. cbn [Watch.track].
  destruct (scan_ok data [] st [] T) as (new & st1 & E & T1 & P & J & L).
  rewrite E.
  destruct (sweep_ok (List.length (Watch.players st1)) 0
                     ([] ++ map Watch.name data) st1 ([] ++ new) T1)
    as (new' & st' & E' & T' & P' & Q' & A'); [lia|].
  cbn [app] in *. exists (new ++ new'), st'. split; [exact E'|].
  split; [|split; [|split]].
  - intros n. rewrite in_app_iff, <- J. split; [|auto].
    intros [H|H]; [exact H|].
    destruct (A' _ H) as (m & D & _). discriminate.
  - intros n H. apply in_app_or in H. destruct H as [H|H].
    + exfalso. exact (L n H).
    + destruct (A' _ H) as (m & D & H1 & H2 & H3).
      injection D as <-. apply P in H1. tauto.
  - intros n H. apply Q'; [|exact H]. apply P. auto.
  - intros n H. apply P. auto.
Qed.

Lemma track_announces_witness :
  exists alerts st',
    Watch.track (Some [Watch.mk_player (lit "bob") 8])
      (Watch.mk_state [lit "ann"] [(lit "ann", 3)])
    = Some (alerts, inr st')
    /\ (forall n, In (Watch.alert_joined n) alerts
                  <-> In n (map Watch.name [Watch.mk_player (lit "bob") 8])
                      /\ ~ In n [lit "ann"])
    /\ (forall n, In (Watch.alert_left n) alerts ->
                  In n [lit "ann"]
                  /\ ~ In n (map Watch.name [Watch.mk_player (lit "bob") 8])
                  /\ ~ In n (Watch.players st'))
    /\ (forall n, In n (map Watch.name [Watch.mk_player (lit "bob") 8]) ->
                  In n (Watch.players st'))
    /\ (forall n, In n (Watch.players st') ->
                  In n [lit "ann"]
                  \/ In n (map Watch.name [Watch.mk_player (lit "bob") 8])).
Proof.
  apply (track_announces [Watch.mk_player (lit "bob") 8]
           (Watch.mk_state [lit "ann"] [(lit "ann", 3)])).
  split.
  - cbn [Watch.players]. repeat constructor. simpl. tauto.
  - intros n. cbn [Watch.players Watch.player_levels Watch.lv_get]. split.
    + intros [<-|[]]. discriminate.
    + intros H. destruct (str_eqb (lit "ann") n) eqn:E.
      * apply str_eqb_eq in E. simpl. auto.
      * congruence.
Defined.


(** * The platforms of menu_crossplay *)

Lemma toggle_members (platform : str) (opts : list str) :
  NoDup opts ->
  NoDup (toggle platform opts)
  /\ (In platform (toggle platform opts) <-> ~ In platform opts)
  /\ (forall n, n <> platform ->
                (In n (toggle platform opts) <-> In n opts)).
Proof.
  intros N. unfold toggle. destruct (list_mem platform opts) eqn:M.
  - apply mem_In in M. split; [now apply list_remove_NoDup|]. split.
    + rewrite (list_remove_In platform opts N). tauto.
    + intros n D. rewrite (list_remove_In platform opts N). tauto.
  - apply mem_not_In in M. split.
    + apply NoDup_app; [exact N|repeat constructor; simpl; tauto|].
      intros a Ia [<-|[]]. contradiction.
    + split.
      * rewrite in_app_iff. simpl. tauto.
      * intros n D. rewrite in_app_iff. simpl. split; [|tauto].
        intros [H|[H|[]]]; [exact H|congruence].
Qed.

(** X21. On a list that names no platform twice, a toggle of
    [menu_crossplay] turns the one platform on when it was off and off
    when it was on, and leaves every other platform as it was; the list
    still names no platform twice, and a second toggle brings back the
    platforms of the start. *)
Theorem toggle_flips (platform : str) (opts : list str) :
  NoDup opts ->
  NoDup (toggle platform opts)
  /\ (In platform (toggle platform opts) <-> ~ In platform opts)
  /\ (forall n, n <> platform ->
                (In n (toggle platform opts) <-> In n opts))
  /\ (forall n, In n (toggle platform (toggle platform opts)) <-> In n opts).
Proof.
  intros N. destruct (toggle_members platform opts N) as (N1 & P1 & Q1).
  destruct (toggle_members platform _ N1) as (N2 & P2 & Q2).
  split; [exact N1|]. split; [exact P1|]. split; [exact Q1|].
  intros n. destruct (str_eq_dec n platform) as [->|D].
  - rewrite P2, P1. destruct (in_dec str_eq_dec platform opts); tauto.
  - rewrite (Q2 n D). exact (Q1 n D).
Qed.

Lemma toggle_flips_witness :
  NoDup (toggle (lit "Xbox") [lit "Steam"; lit "Xbox"])
  /\ (In (lit "Xbox") (toggle (lit "Xbox") [lit "Steam"; lit "Xbox"])
      <-> ~ In (lit "Xbox") [lit "Steam"; lit "Xbox"])
  /\ (forall n, n <> lit "Xbox" ->
                (In n (toggle (lit "Xbox") [lit "Steam"; lit "Xbox"])
                 <-> In n [lit "Steam"; lit "Xbox"]))
  /\ (forall n, In n (toggle (lit "Xbox")
                        (toggle (lit "Xbox") [lit "Steam"; lit "Xbox"]))
                <-> In n [lit "Steam"; lit "Xbox"]).
Proof.
  apply (toggle_flips (lit "Xbox") [lit "Steam"; lit "Xbox"]).
  repeat (constructor; [simpl; intuition discriminate|]). constructor.
Defined.
